(** * Network-Simulation: opinion / tie-strength co-evolution on a graph

    A shallow embedding of the two simulation classes of
    [Network_Project.ipynb]:

    - [SocialDynamicsSimulation]   (module [Scalar]): one scalar opinion per
      node, stored as an immutable Python number in the node attributes;
    - [NetworkSimulationExtension] (module [Vec]): one NumPy array of
      opinions per node.  Node attributes hold a *reference* to the array,
      and [+=] / [-=] mutate the referenced array in place, so the embedding
      keeps an explicit store of arrays.

    Numbers.  Python floats are embedded as rationals [Q]; equality of
    numbers is [Qeq] ([==]).  The engines are embedded with exact
    arithmetic, which is what comparisons, ranges and the choice of branch
    depend on.  Where a property depends on rounding, the arithmetic is
    embedded once more in binary64 ([b64_round], [Scalar.interact_b64]):
    every operation is followed by rounding to the nearest binary64 number.
    Infinities and NaN have no counterpart in [Q]; statements that would
    meet them (overflow, [np.mean] of an empty array) carry the hypothesis
    that excludes them.

    Effects.  Both [update] methods read the process-wide random generators
    and mutate [self]; they are written in a state-and-exception monad over
    a [World] made of [self], the array store and the generators' state.

    Scope.  The graph generators, layout and drawing are library code and
    are not embedded: a world is any graph with its opinions and weights,
    constrained where needed by [graph_wf] and [Vec.store_wf], which hold of
    the worlds [initialize] builds. *)

From Stdlib Require Import QArith Qabs Qminmax Lqa.
From stdpp Require Import base gmap list option.

(** ** Outcomes and the state-and-exception monad *)

Inductive exn : Set :=
| IndexError      (* random.choice on an empty sequence *)
| ValueError      (* random.sample larger than the population *)
| KeyError        (* missing node or edge in a networkx view *)
| NetworkXError.  (* remove_edge on a missing edge *)

Inductive outcome (A : Type) : Type :=
| Returns (a : A)
| Raises (e : exn)
| Diverges.       (* a [while True] loop that did not exit within the fuel *)
Arguments Returns {A} a.
Arguments Raises {A} e.
Arguments Diverges {A}.

Definition raises {A} (o : outcome A) : Prop := ∃ e, o = Raises e.

Definition M (W A : Type) : Type := W → outcome A * W.

Definition ret {W A} (a : A) : M W A := λ w, (Returns a, w).

Definition bind {W A B} (c : M W A) (k : A → M W B) : M W B :=
  λ w, match c w with
       | (Returns a, w') => k a w'
       | (Raises e, w') => (Raises e, w')
       | (Diverges, w') => (Diverges, w')
       end.

Definition raise {W A} (e : exn) : M W A := λ w, (Raises e, w).
Definition diverge {W A} : M W A := λ w, (Diverges, w).
Definition gets {W A} (f : W → A) : M W A := λ w, (Returns (f w), w).
Definition modify {W} (f : W → W) : M W unit := λ w, (Returns tt, f w).

(** [d[k]] on a Python dict: [KeyError] when the key is missing. *)
Definition getitem {W A} (o : option A) : M W A :=
  match o with Some a => ret a | None => raise KeyError end.

Notation "'let*' x ':=' c 'in' k" := (bind c (λ x, k))
  (at level 10, x name, c at level 100, k at level 200, only parsing).

(** ** Numbers *)

Definition Qltb (x y : Q) : bool := negb (Qle_bool y x).

(** Python truthiness of an optional number: [None] and [0] are falsy.
    [if_truthy d] is the number when [if d:] takes the branch. *)
Definition if_truthy (d : option Q) : option Q :=
  match d with
  | Some x => if Qeq_bool x 0 then None else Some x
  | None => None
  end.

Definition in_unit (x : Q) : Prop := (0 <= x <= 1)%Q.

(** An opinion as [initialize] draws it: 0 or 1. *)
Definition is_bit (x : Q) : Prop := x = 0%Q ∨ x = 1%Q.

(** ** binary64

    A Python float is an IEEE 754 binary64 number, and [+], [-], [*] return
    the binary64 number nearest to the exact result, ties to the even
    significand.  Finite binary64 numbers are the multiples [m * 2^e] of a
    power of two with [|m| < 2^53] and [e >= -1074]; below [2^-1022] the
    spacing stays [2^-1074] (subnormal numbers).  Results of magnitude
    [2^1024] or more (infinities in Python) are outside this model. *)

(** Nearest integer to [n / d], ties to the even one; for [0 <= n], [0 < d]. *)
Definition round_half_even (n d : Z) : Z :=
  let q := (n / d)%Z in
  match (2 * (n mod d) ?= d)%Z with
  | Lt => q
  | Gt => (q + 1)%Z
  | Eq => if Z.even q then q else (q + 1)%Z
  end.

(** The unit in the last place, in units of [2^-1074], of a magnitude whose
    integer part in those units is [q]: 53 significant bits, and never less
    than the subnormal spacing. *)
Definition b64_ulp (q : Z) : Z := (2 ^ Z.max 0 (Z.log2 q - 52))%Z.

Definition b64_scale : positive := (2 ^ 1074)%positive.

(** The binary64 number nearest to [x]. *)
Definition b64_round (x : Q) : Q :=
  let a := (Z.abs (Qnum x) * Z.pos b64_scale)%Z in
  let d := Z.pos (Qden x) in
  let u := b64_ulp (a / d) in
  Qmake (Z.sgn (Qnum x) * round_half_even a (d * u) * u) b64_scale.

(** Half a unit in the last place of 1, and half the subnormal spacing. *)
Definition b64_eps : Q := 1 # 2 ^ 53.
Definition b64_tiny : Q := 1 # (2 * b64_scale).

(** [x] is a binary64 number: rounding leaves it as it is. *)
Definition is_b64 (x : Q) : Prop := (b64_round x == x)%Q.

(** [x] is a multiple of [2^-1074], as every binary64 number is. *)
Definition b64_grid (x : Q) : Prop := ∃ K : Z, (x == K # b64_scale)%Q.

(** Python's [x + y], [x - y], [x * y] on floats. *)
Definition b64_add (x y : Q) : Q := b64_round (x + y).
Definition b64_sub (x y : Q) : Q := b64_round (x - y).
Definition b64_mul (x y : Q) : Q := b64_round (x * y).

(** ** NumPy arrays of floats, elementwise

    All the arrays of one simulation have [n_topics] entries, so the
    elementwise operations below always meet arrays of equal length. *)

Definition arr_add (a b : list Q) : list Q := zip_with Qplus a b.
Definition arr_sub (a b : list Q) : list Q := zip_with Qminus a b.
Definition arr_mul (a b : list Q) : list Q := zip_with Qmult a b.
(** scalar-array broadcasts: [c * a], [a * c], [a - c] *)
Definition scal_mul (c : Q) (a : list Q) : list Q := (λ x, c * x)%Q <$> a.
Definition arr_mul_scal (a : list Q) (c : Q) : list Q := (λ x, x * c)%Q <$> a.
Definition arr_sub_scal (a : list Q) (c : Q) : list Q := (λ x, x - c)%Q <$> a.
Definition np_absolute (a : list Q) : list Q := Qabs <$> a.
Definition np_minimum (a b : list Q) : list Q := zip_with Qmin a b.
(** [np.maximum(c, a)] with a scalar [c] *)
Definition np_maximum_scal (c : Q) (a : list Q) : list Q := Qmax c <$> a.
Definition Qclip (x lo hi : Q) : Q := Qmin (Qmax x lo) hi.
Definition np_clip (a : list Q) (lo hi : Q) : list Q := (λ x, Qclip x lo hi) <$> a.
Definition arr_sum (a : list Q) : Q := foldr Qplus 0%Q a.
(** [np.mean(a)] of a non-empty array (NumPy gives NaN on an empty one). *)
Definition np_mean (a : list Q) : Q := (arr_sum a / inject_Z (Z.of_nat (length a)))%Q.

(** ** The world: [self], the store of NumPy arrays, the generators *)

Definition node := nat.
Definition ref := nat.

(** The two generators the notebook draws from: Python's [random] module
    ([py_tape]: the successive raw integers it produces) and NumPy's global
    [RandomState] ([np_tape]: the successive standard-normal variates). *)
Record Rng : Type := mkRng {
  py_tape : nat → Z;
  py_pos : nat;
  np_tape : nat → Q;
  np_pos : nat
}.

Record World (Sim : Type) : Type := mkWorld {
  self : Sim;
  arrays : gmap ref (list Q);
  random_state : Rng
}.
Arguments mkWorld {Sim} _ _ _.
Arguments self {Sim} _.
Arguments arrays {Sim} _.
Arguments random_state {Sim} _.

Section Generators.
Context {Sim : Type}.
Abbreviation W := (World Sim).

(** The next raw value of each generator, and the world once it is drawn. *)
Definition py_peek (w : W) : Z :=
  py_tape (random_state w) (py_pos (random_state w)).
Definition py_advance (w : W) : W :=
  let g := random_state w in
  mkWorld (self w) (arrays w)
    (mkRng (py_tape g) (S (py_pos g)) (np_tape g) (np_pos g)).
Definition np_peek (w : W) : Q :=
  np_tape (random_state w) (np_pos (random_state w)).
Definition np_advance (w : W) : W :=
  let g := random_state w in
  mkWorld (self w) (arrays w)
    (mkRng (py_tape g) (py_pos g) (np_tape g) (S (np_pos g))).

Definition py_next : M W Z := λ w, (Returns (py_peek w), py_advance w).
Definition np_next : M W Q := λ w, (Returns (np_peek w), np_advance w).

(** [random.random()]: 53 random bits scaled into [0,1). *)
Definition random_random : M W Q :=
  let* z := py_next in ret (inject_Z (z mod 2 ^ 53) / inject_Z (2 ^ 53))%Q.

(** [random.uniform(a, b)] is [a + (b - a) * random()]. *)
Definition random_uniform (a b : Q) : M W Q :=
  let* r := random_random in ret (a + (b - a) * r)%Q.

(** [_randbelow(n)] for [n > 0]: an index below [n]. *)
Definition randbelow (n : nat) : M W nat :=
  let* z := py_next in ret (Z.to_nat (z mod Z.of_nat n)).

(** [random.choice(seq)]. *)
Definition random_choice {A} (seq : list A) : M W A :=
  match seq with
  | [] => raise IndexError
  | _ => let* i := randbelow (length seq) in
         match seq !! i with Some x => ret x | None => raise IndexError end
  end.

(** [random.sample(population, 2)]: two draws without replacement from a
    pool; the drawn slot is refilled with the last live element. *)
Definition random_sample2 {A} (population : list A) : M W (A * A) :=
  let n := length population in
  if (n <? 2)%nat then raise ValueError else
  let* j0 := randbelow n in
  match population !! j0, population !! (n - 1)%nat with
  | Some x0, Some last =>
      let pool := <[j0 := last]> population in
      let* j1 := randbelow (n - 1) in
      match pool !! j1 with
      | Some x1 => ret (x0, x1)
      | None => raise IndexError
      end
  | _, _ => raise IndexError
  end.

(** [scipy.random.normal(loc, scale)] (NumPy's generator). *)
Definition np_normal (loc scale : Q) : M W Q :=
  let* z := np_next in ret (loc + scale * z)%Q.

(** [random.randint(a, b)] is [a + _randbelow(b - a + 1)]; an empty range
    raises [ValueError]. *)
Definition random_randint (a b : Z) : M W Z :=
  if (b - a + 1 <=? 0)%Z then raise ValueError else
  let* k := randbelow (Z.to_nat (b - a + 1)) in ret (a + Z.of_nat k)%Z.
End Generators.

(** ** The networkx graph

    An undirected [nx.Graph] whose nodes were inserted in increasing order
    (as both generators used by [initialize] do): an edge is reported by the
    edge view as [(u, v)] with [u] the endpoint met first in node order, so
    edges are keyed by the ordered pair.  The attribute dict of an edge is
    shared by both directions, hence one weight per unordered pair.  [A] is
    what the node attribute holds.  The order of [node_list] and [edge_list]
    stands for the iteration order of the views; it only decides which
    element a random index selects. *)

Record Graph (A : Type) : Type := mkGraph {
  nodes : gmap node A;
  edges : gmap (node * node) Q
}.
Arguments mkGraph {A} _ _.
Arguments nodes {A} _.
Arguments edges {A} _.

Definition ekey (u v : node) : node * node :=
  if (u <=? v)%nat then (u, v) else (v, u).

(** [[u, v] in G.edges] *)
Definition has_edge {A} (g : Graph A) (u v : node) : bool :=
  bool_decide (is_Some (edges g !! ekey u v)).

(** [list(G.nodes)] and [list(G.edges)] *)
Definition node_list {A} (g : Graph A) : list node := (map_to_list (nodes g)).*1.
Definition edge_list {A} (g : Graph A) : list (node * node) := (map_to_list (edges g)).*1.

(** [G.add_edge(u, v, weight=w)] for nodes already in the graph. *)
Definition add_edge {A} (u v : node) (w : Q) (g : Graph A) : Graph A :=
  mkGraph (nodes g) (<[ekey u v := w]> (edges g)).

Definition set_weight {A} (e : node * node) (w : Q) (g : Graph A) : Graph A :=
  mkGraph (nodes g) (<[ekey e.1 e.2 := w]> (edges g)).

Definition set_node {A} (n : node) (a : A) (g : Graph A) : Graph A :=
  mkGraph (<[n := a]> (nodes g)) (edges g).

Definition del_edge {A} (e : node * node) (g : Graph A) : Graph A :=
  mkGraph (nodes g) (delete (ekey e.1 e.2) (edges g)).

(** Endpoints of every edge are distinct nodes of the graph, keyed in order. *)
Definition graph_wf {A} (g : Graph A) : Prop :=
  ∀ u v w, edges g !! (u, v) = Some w →
    (u < v)%nat ∧ is_Some (nodes g !! u) ∧ is_Some (nodes g !! v).

(** Every two distinct nodes are connected. *)
Definition complete {A} (g : Graph A) : Prop :=
  ∀ u v, is_Some (nodes g !! u) → is_Some (nodes g !! v) → u ≠ v →
    has_edge g u v = true.

(** The graph a networkx generator returns, before any attribute is set:
    [list(G.nodes)] and [list(G.edges)].  The generators themselves
    ([nx.watts_strogatz_graph], [nx.barabasi_albert_graph]) are library
    code; [initialize] is embedded from the point where their result is
    bound to [self.graph]. *)
Record Topology : Type := mkTopology {
  t_nodes : list node;
  t_edges : list (node * node)
}.

(** What the generators guarantee: distinct nodes, and every edge reported
    once, between two distinct nodes of the graph, first endpoint first. *)
Definition topology_wf (t : Topology) : Prop :=
  NoDup (t_nodes t) ∧
  ∀ e, e ∈ t_edges t → (e.1 < e.2)%nat ∧ e.1 ∈ t_nodes t ∧ e.2 ∈ t_nodes t.

(** ** [SocialDynamicsSimulation]: scalar opinions *)

Module Scalar.

(** The attributes [__init__] stores. *)
Record Params : Type := mkParams {
  network_size : Z;
  alpha : Q;
  beta : Q;
  gamma : Q
}.

(** [__init__(self, network_size=50, alpha=0.03, beta=0.3, gamma=4)] *)
Definition __init__ (network_size : Z) (alpha beta gamma : Q) : outcome Params :=
  Returns (mkParams network_size alpha beta gamma).

(** The object once [initialize] has run: the parameters, the graph
    (node attribute ['opinion'], edge attribute ['weight']) and [step]. *)
Record Sim : Type := mkSim {
  params : Params;
  graph : Graph Q;
  step : nat
}.

Abbreviation W := (World Sim).

(** [self.graph] rewritten by [f]; [self.step += 1]. *)
Definition map_graph (f : Graph Q → Graph Q) (w : W) : W :=
  mkWorld (mkSim (params (self w)) (f (graph (self w))) (step (self w)))
          (arrays w) (random_state w).
Definition bump_step (w : W) : W :=
  mkWorld (mkSim (params (self w)) (graph (self w)) (S (step (self w))))
          (arrays w) (random_state w).

Definition with_graph (f : Graph Q → Graph Q) : M W unit := modify (map_graph f).
Definition incr_step : M W unit := modify bump_step.

(** [self.graph.nodes[n]['opinion']] and [self.graph.edges[e]['weight']] *)
Definition node_opinion (n : node) : M W Q :=
  let* g := gets (λ w, graph (self w)) in getitem (nodes g !! n).
Definition edge_weight (e : node * node) : M W Q :=
  let* g := gets (λ w, graph (self w)) in getitem (edges g !! ekey e.1 e.2).
Definition store_opinion (n : node) (o : Q) : M W unit :=
  let* _ := node_opinion n in with_graph (set_node n o).
Definition store_weight (e : node * node) (x : Q) : M W unit :=
  let* _ := edge_weight e in with_graph (set_weight e x).
(** [self.graph.remove_edge( *edge)] *)
Definition remove_edge (e : node * node) : M W unit :=
  let* g := gets (λ w, graph (self w)) in
  if has_edge g e.1 e.2 then with_graph (del_edge e) else raise NetworkXError.

(** The [while True] loop of the new-edge branch; [fuel] bounds the number
    of iterations explored. *)
Fixpoint sample_unconnected (fuel : nat) (nodes : list node) : M W (node * node) :=
  match fuel with
  | O => diverge
  | S fuel' =>
      let* new_edge := random_sample2 nodes in
      let* g := gets (λ w, graph (self w)) in
      if negb (has_edge g new_edge.1 new_edge.2) then ret new_edge
      else sample_unconnected fuel' nodes
  end.

(** The new-edge branch of [update]. *)
Definition create_edge (fuel : nat) : M W unit :=
  let* g := gets (λ w, graph (self w)) in
  let nodes := node_list g in
  let* new_edge := sample_unconnected fuel nodes in
  with_graph (add_edge new_edge.1 new_edge.2 0.5%Q).

(** The interaction of the two endpoints of [edge]. *)
Definition interact (edge : node * node) : M W unit :=
  let* p := gets (λ w, params (self w)) in
  let* weight := edge_weight edge in
  let* o0 := node_opinion edge.1 in
  let* o1 := node_opinion edge.2 in
  let* _ := store_opinion edge.1 (o0 + alpha p * weight * (o1 - o0))%Q in
  let* _ := store_opinion edge.2 (o1 + alpha p * weight * (o0 - o1))%Q in
  let* _ := store_weight edge
    (weight + beta p * weight * (1 - weight) * (1 - gamma p * Qabs (o0 - o1)))%Q in
  let* w' := edge_weight edge in
  if Qltb w' 0.05%Q then remove_edge edge else ret tt.

(** The interaction branch of [update]. *)
Definition interact_random : M W unit :=
  let* g := gets (λ w, graph (self w)) in
  let* edge := random_choice (edge_list g) in
  interact edge.

(** The same interaction with the arithmetic of Python floats: every [+],
    [-] and [*] rounds to binary64, in the order Python evaluates them
    ([a * b * c] is [(a * b) * c]); [abs] is exact, and the literal [0.05]
    is the binary64 number nearest to 0.05. *)
Definition interact_b64 (edge : node * node) : M W unit :=
  let* p := gets (λ w, params (self w)) in
  let* weight := edge_weight edge in
  let* o0 := node_opinion edge.1 in
  let* o1 := node_opinion edge.2 in
  let* _ := store_opinion edge.1
    (b64_add o0 (b64_mul (b64_mul (alpha p) weight) (b64_sub o1 o0))) in
  let* _ := store_opinion edge.2
    (b64_add o1 (b64_mul (b64_mul (alpha p) weight) (b64_sub o0 o1))) in
  let* _ := store_weight edge
    (b64_add weight
       (b64_mul (b64_mul (b64_mul (beta p) weight) (b64_sub 1 weight))
          (b64_sub 1 (b64_mul (gamma p) (Qabs (b64_sub o0 o1)))))) in
  let* w' := edge_weight edge in
  if Qltb w' (b64_round 0.05) then remove_edge edge else ret tt.

(** [update(self)] *)
Definition update (fuel : nat) : M W unit :=
  let* r := random_uniform 0 1 in
  let* _ := (if Qltb r 0.01%Q then create_edge fuel else interact_random) in
  incr_step.

(** The update rule as closed formulas over the values read before the
    interaction. *)
Definition delta_o (p : Params) (o_i o_j w : Q) : Q := (alpha p * w * (o_j - o_i))%Q.
Definition delta_w (p : Params) (o_i o_j w : Q) : Q :=
  (beta p * w * (1 - w) * (1 - gamma p * Qabs (o_i - o_j)))%Q.

(** The graph one interaction on [e] leaves, from the opinions [o0], [o1]
    and the weight [x] it read. *)
Definition interacted (p : Params) (e : node * node) (o0 o1 x : Q)
    (g : Graph Q) : Graph Q :=
  let x' := (x + delta_w p o0 o1 x)%Q in
  let g3 := set_weight e x'
    (set_node e.2 (o1 + alpha p * x * (o0 - o1))%Q
      (set_node e.1 (o0 + alpha p * x * (o1 - o0))%Q g)) in
  if Qltb x' 0.05%Q then del_edge e g3 else g3.

(** *** [initialize] and the driver loop *)

(** [for node in self.graph.nodes:
       self.graph.nodes[node]['opinion'] = random.randint(0, 1)] *)
Fixpoint draw_opinions (ns : list node) (acc : gmap node Q) : M W (gmap node Q) :=
  match ns with
  | [] => ret acc
  | n :: ns' =>
      let* o := random_randint 0 1 in
      draw_opinions ns' (<[n := inject_Z o]> acc)
  end.

(** [for edge in self.graph.edges: self.graph.edges[edge]['weight'] = 0.5] *)
Definition constant_weights (es : list (node * node)) : gmap (node * node) Q :=
  foldl (λ acc e, <[ekey e.1 e.2 := 0.5%Q]> acc) ∅ es.

(** [initialize(self)], from the generated [topology] on: every weight is
    set, then every opinion is drawn, then [self.step = 0].  Whatever
    [self.graph] and [self.step] held before is overwritten unread. *)
Definition initialize (topology : Topology) : M W unit :=
  let es := constant_weights (t_edges topology) in
  let* ns := draw_opinions (t_nodes topology) ∅ in
  modify (λ w, mkWorld (mkSim (params (self w)) (mkGraph ns es) 0)
                       (arrays w) (random_state w)).

(** The driver loop of the notebook: [for i in range(n): sim.update()]. *)
Fixpoint run (fuel n : nat) : M W unit :=
  match n with
  | O => ret tt
  | S n' => let* _ := update fuel in run fuel n'
  end.

(** *** Ranges *)

(** Coefficients in the ranges the model is documented for (and a little
    beyond): [alpha] and [beta] in [0,1], [gamma] not negative. *)
Definition valid (p : Params) : Prop :=
  in_unit (alpha p) ∧ in_unit (beta p) ∧ (0 <= gamma p)%Q.

(** Opinions in [0,1], and weights between the removal threshold and 1. *)
Definition bounded (g : Graph Q) : Prop :=
  (∀ n o, nodes g !! n = Some o → in_unit o) ∧
  (∀ e x, edges g !! e = Some x → (0.05 <= x <= 1)%Q).

End Scalar.

(** ** [NetworkSimulationExtension]: opinion vectors and flexibility *)

Module Vec.

Record Params : Type := mkParams {
  n_size : Z;
  m_nodes : Z;
  alpha : Q;
  beta : Q;
  gamma : Q;
  delta : option Q;
  n_topics : Z
}.

(** [__init__(self, n_size=50, m_nodes=2, alpha=0.03, beta=0.3, gamma=4,
    delta=None, n_topics=2)] *)
Definition __init__ (n_size m_nodes : Z) (alpha beta gamma : Q)
    (delta : option Q) (n_topics : Z) : outcome Params :=
  Returns (mkParams n_size m_nodes alpha beta gamma delta n_topics).

(** The node attribute ['opinions'] holds a reference into [arrays]. *)
Record Sim : Type := mkSim {
  params : Params;
  graph : Graph ref;
  step : nat
}.

Abbreviation W := (World Sim).

(** [self.graph] rewritten by [f]; [self.step += 1]; array [r] set to [a]. *)
Definition map_graph (f : Graph ref → Graph ref) (w : W) : W :=
  mkWorld (mkSim (params (self w)) (f (graph (self w))) (step (self w)))
          (arrays w) (random_state w).
Definition bump_step (w : W) : W :=
  mkWorld (mkSim (params (self w)) (graph (self w)) (S (step (self w))))
          (arrays w) (random_state w).
Definition set_array (r : ref) (a : list Q) (w : W) : W :=
  mkWorld (self w) (<[r := a]> (arrays w)) (random_state w).

Definition with_graph (f : Graph ref → Graph ref) : M W unit := modify (map_graph f).
Definition incr_step : M W unit := modify bump_step.

(** Reading an array object, overwriting it in place, and building a new one. *)
Definition np_read (r : ref) : M W (list Q) := gets (λ w, arrays w !!! r).
Definition np_write (r : ref) (a : list Q) : M W unit := modify (set_array r a).
Definition np_new (a : list Q) : M W ref := λ w,
  let r := fresh (dom (arrays w)) in (Returns r, set_array r a w).

(** [self.graph.nodes[n]['opinions']] and [self.graph.edges[e]['weight']] *)
Definition node_opinions (n : node) : M W ref :=
  let* g := gets (λ w, graph (self w)) in getitem (nodes g !! n).
Definition edge_weight (e : node * node) : M W Q :=
  let* g := gets (λ w, graph (self w)) in getitem (edges g !! ekey e.1 e.2).
Definition store_opinions (n : node) (r : ref) : M W unit :=
  let* _ := node_opinions n in with_graph (set_node n r).
Definition store_weight (e : node * node) (x : Q) : M W unit :=
  let* _ := edge_weight e in with_graph (set_weight e x).
Definition remove_edge (e : node * node) : M W unit :=
  let* g := gets (λ w, graph (self w)) in
  if has_edge g e.1 e.2 then with_graph (del_edge e) else raise NetworkXError.

(** [delta_o * (1 if not self.delta else (self.delta *
      np.maximum(0.05, np.minimum(o, np.absolute(o - 1)))))]
    for the current contents [o] of the node's array. *)
Definition scaled (p : Params) (delta_o o : list Q) : list Q :=
  match if_truthy (delta p) with
  | None => arr_mul_scal delta_o 1
  | Some d =>
      arr_mul delta_o
        (scal_mul d (np_maximum_scal 0.05%Q
           (np_minimum o (np_absolute (arr_sub_scal o 1)))))
  end.

(** [self.graph.nodes[n]['opinions'] = np.clip(self.graph.nodes[n]['opinions'], 0, 1)] *)
Definition clip_opinions (n : node) : M W unit :=
  let* r := node_opinions n in
  let* x := np_read r in
  let* r' := np_new (np_clip x 0 1) in
  store_opinions n r'.

(** The interaction branch for the chosen [edge]. *)
Definition interact (edge : node * node) : M W unit :=
  let* p := gets (λ w, params (self w)) in
  let* wght := edge_weight edge in
  let* o_a := node_opinions edge.1 in
  let* o_b := node_opinions edge.2 in
  let* a := np_read o_a in
  let* b := np_read o_b in
  let delta_o := scal_mul (alpha p * wght) (arr_sub b a) in
  (* self.graph.nodes[edge[0]]['opinions'] += ... *)
  let* r0 := node_opinions edge.1 in
  let* x0 := np_read r0 in
  let* _ := np_write r0 (arr_add x0 (scaled p delta_o x0)) in
  let* _ := store_opinions edge.1 r0 in
  (* self.graph.nodes[edge[1]]['opinions'] -= ... *)
  let* r1 := node_opinions edge.2 in
  let* x1 := np_read r1 in
  let* _ := np_write r1 (arr_sub x1 (scaled p delta_o x1)) in
  let* _ := store_opinions edge.2 r1 in
  (* delta_w = ... np.mean(np.absolute(o_a - o_b)) *)
  let* a' := np_read o_a in
  let* b' := np_read o_b in
  let delta_w :=
    (beta p * wght * (1 - wght) *
     (1 - gamma p * np_mean (np_absolute (arr_sub a' b'))))%Q in
  let* w0 := edge_weight edge in
  let* _ := store_weight edge (w0 + delta_w)%Q in
  let* _ :=
    match if_truthy (delta p) with
    | Some _ =>
        let* _ := clip_opinions edge.1 in
        let* _ := clip_opinions edge.2 in
        let* w1 := edge_weight edge in
        store_weight edge (Qclip w1 0 1)
    | None => ret tt
    end in
  let* w' := edge_weight edge in
  if Qltb w' 0.05%Q then remove_edge edge else ret tt.

Definition interact_random : M W unit :=
  let* g := gets (λ w, graph (self w)) in
  let* edge := random_choice (edge_list g) in
  interact edge.

(** The [for _ in range(50)] loop of the new-edge branch. *)
Fixpoint try_create (attempts : nat) : M W unit :=
  match attempts with
  | O => ret tt
  | S attempts' =>
      let* g := gets (λ w, graph (self w)) in
      let* edge := random_sample2 (node_list g) in
      if negb (has_edge g edge.1 edge.2) then
        let* x := np_normal 0.5 0.2 in
        with_graph (add_edge edge.1 edge.2 x)
      else try_create attempts'
  end.

Definition create_edge : M W unit := try_create 50.

(** [update(self)] *)
Definition update : M W unit :=
  let* r := random_random in
  let* _ := (if Qltb 0.01%Q r then interact_random else create_edge) in
  incr_step.

(** The driver loop of the notebook: [for i in range(n): sim.update()]. *)
Fixpoint run (n : nat) : M W unit :=
  match n with
  | O => ret tt
  | S n' => let* _ := update in run n'
  end.

(** The opinions the in-place updates leave in the two arrays (before any
    clipping), from the contents [a], [b] read at the start. *)
Definition delta_o (p : Params) (a b : list Q) (w : Q) : list Q :=
  scal_mul (alpha p * w) (arr_sub b a).
Definition moved_a (p : Params) (a b : list Q) (w : Q) : list Q :=
  arr_add a (scaled p (delta_o p a b w) a).
Definition moved_b (p : Params) (a b : list Q) (w : Q) : list Q :=
  arr_sub b (scaled p (delta_o p a b w) b).

(** The weight delta of the specification, over opinion vectors [x], [y]. *)
Definition delta_w (p : Params) (x y : list Q) (w : Q) : Q :=
  (beta p * w * (1 - w) * (1 - gamma p * np_mean (np_absolute (arr_sub x y))))%Q.

(** The weight [interact] writes back, from the values read at the start. *)
Definition written_weight (p : Params) (a b : list Q) (w : Q) : Q :=
  let w1 := (w + delta_w p (moved_a p a b w) (moved_b p a b w) w)%Q in
  match if_truthy (delta p) with Some _ => Qclip w1 0 1 | None => w1 end.

(** The opinions a node ends the interaction with. *)
Definition final (p : Params) (o : list Q) : list Q :=
  match if_truthy (delta p) with Some _ => np_clip o 0 1 | None => o end.

(** *** The world after an interaction, stage by stage *)

Definition weight_of (e : node * node) (w : W) : Q :=
  default 0%Q (edges (graph (self w)) !! ekey e.1 e.2).

(** After the two in-place updates and the weight write; [ra], [rb] are the
    arrays of the two endpoints. *)
Definition moved (e : node * node) (ra rb : ref) (w : W) : W :=
  let p := params (self w) in
  let a := arrays w !!! ra in
  let b := arrays w !!! rb in
  let x := weight_of e w in
  map_graph (set_weight e (x + delta_w p (moved_a p a b x) (moved_b p a b x) x)%Q)
    (set_array rb (moved_b p a b x) (set_array ra (moved_a p a b x) w)).

(** After [np.clip] rebinds the opinions of [n] to a new array. *)
Definition clip_node (n : node) (r : ref) (w : W) : W :=
  map_graph (set_node n (fresh (dom (arrays w))))
    (set_array (fresh (dom (arrays w))) (np_clip (arrays w !!! r) 0 1) w).

(** After the [if self.delta:] block. *)
Definition clipped (e : node * node) (ra rb : ref) (w : W) : W :=
  match if_truthy (delta (params (self w))) with
  | Some _ =>
      map_graph (set_weight e (Qclip (weight_of e w) 0 1))
        (clip_node e.2 rb (clip_node e.1 ra w))
  | None => w
  end.

(** After the removal of a very weak connection. *)
Definition pruned (e : node * node) (w : W) : W :=
  if Qltb (weight_of e w) 0.05%Q then map_graph (del_edge e) w else w.

(** *** Observations and invariants *)

(** The opinion vector of node [n]: the contents of the array it refers to. *)
Definition opinions (w : W) (n : node) : option (list Q) :=
  match nodes (graph (self w)) !! n with
  | Some r => arrays w !! r
  | None => None
  end.

(** Every node owns an array of its own (as [initialize] builds them). *)
Definition store_wf (w : W) : Prop :=
  graph_wf (graph (self w)) ∧
  (∀ n r, nodes (graph (self w)) !! n = Some r → is_Some (arrays w !! r)) ∧
  (∀ n m r, nodes (graph (self w)) !! n = Some r →
            nodes (graph (self w)) !! m = Some r → n = m).

Definition opinions_in_unit (w : W) : Prop :=
  ∀ n o, opinions w n = Some o → Forall in_unit o.
Definition weights_in_unit (w : W) : Prop :=
  ∀ e x, edges (graph (self w)) !! e = Some x → in_unit x.

(** There is at least one topic and every opinion array has [n_topics]
    entries, as [initialize] builds them.  (With no topic [np.mean] is taken
    of an empty array and the weight written is NaN; arrays of different
    lengths do not broadcast.) *)
Definition shaped (w : W) : Prop :=
  (0 < n_topics (params (self w)))%Z ∧
  ∀ n o, opinions w n = Some o →
    length o = Z.to_nat (n_topics (params (self w))).

(** *** [initialize] *)

(** [for edge in self.graph.edges:
       self.graph.edges[edge]['weight'] = scipy.random.normal(.5, .2)] *)
Fixpoint draw_weights (es : list (node * node)) (acc : gmap (node * node) Q)
    : M W (gmap (node * node) Q) :=
  match es with
  | [] => ret acc
  | e :: es' =>
      let* x := np_normal 0.5 0.2 in
      draw_weights es' (<[ekey e.1 e.2 := x]> acc)
  end.

(** [[rd.choice([0.0, 1.0]) for n in range(k)]] *)
Fixpoint draw_vector (k : nat) : M W (list Q) :=
  match k with
  | O => ret []
  | S k' =>
      let* c := random_choice [0%Q; 1%Q] in
      let* rest := draw_vector k' in
      ret (c :: rest)
  end.

(** [for node in self.graph.nodes:
       self.graph.nodes[node]['opinions'] = np.array([...], dtype=np.float64)] *)
Fixpoint draw_opinions (k : nat) (ns : list node) (acc : gmap node ref)
    : M W (gmap node ref) :=
  match ns with
  | [] => ret acc
  | n :: ns' =>
      let* v := draw_vector k in
      let* r := np_new v in
      draw_opinions k ns' (<[n := r]> acc)
  end.

(** [initialize(self)], from the generated [topology] on. *)
Definition initialize (topology : Topology) : M W unit :=
  let* p := gets (λ w, params (self w)) in
  let* es := draw_weights (t_edges topology) ∅ in
  let* ns := draw_opinions (Z.to_nat (n_topics p)) (t_nodes topology) ∅ in
  modify (λ w, mkWorld (mkSim (params (self w)) (mkGraph ns es) 0)
                       (arrays w) (random_state w)).

(** Every node of [acc] owns an array of [k] entries, each 0 or 1. *)
Definition owned (k : nat) (acc : gmap node ref) (w : W) : Prop :=
  (∀ n r, acc !! n = Some r →
     ∃ o, arrays w !! r = Some o ∧ length o = k ∧ Forall is_bit o) ∧
  (∀ n m r, acc !! n = Some r → acc !! m = Some r → n = m).

End Vec.

(** ** The local analysis of one pair

    The notebook traces the update rule on a single pair, outside the graph:
    [ow = [[opinion, 0.0, weight]]] grows by one row per iteration, and a
    weight that falls below 0.05 is recorded as 0. *)

Module Analysis.

(** One iteration of the loop body, from the last row [ow[-1]]. *)
Definition trace_step (alpha beta gamma : Q) (row : Q * Q * Q) : Q * Q * Q :=
  let '(o0, o1, w) := row in
  let delta_o := (alpha * w * (o1 - o0))%Q in
  let delta_w := (beta * w * (1 - w) * (1 - gamma * Qabs (o1 - o0)))%Q in
  let new_weight := (w + delta_w)%Q in
  let new_weight := if Qltb new_weight 0.05%Q then 0%Q else new_weight in
  ((o0 + delta_o)%Q, (o1 - delta_o)%Q, new_weight).

(** [ow] after [n] iterations, starting from [[row]]. *)
Fixpoint trace (alpha beta gamma : Q) (n : nat) (row : Q * Q * Q) : list (Q * Q * Q) :=
  row :: match n with
         | O => []
         | S n' => trace alpha beta gamma n' (trace_step alpha beta gamma row)
         end.

End Analysis.

(** ** Concrete worlds

    Small graphs on which the two [update] methods are run.  Nodes are
    [0..n-1]; in the vector worlds node [i] refers to array [i]. *)

Module Examples.

(** A generator whose first raw value selects the interaction branch
    ([random()] is [0.5]) and whose later values are [0]. *)
Definition rng_interact : Rng :=
  mkRng (λ i, match i with O => 2 ^ 52 | _ => 0 end)%Z 0 (λ _, 0%Q) 0.

(** A generator for the new-edge branch ([random()] is [0.0]) whose first
    sample is the pair at positions 1 and 0 of the pool, every later one
    the pair at positions 0 and 0, and whose normal variates are all [z]. *)
Definition rng_create (z : Q) : Rng :=
  mkRng (λ i, match i with 1%nat => 1 | _ => 0 end)%Z 0 (λ _, z) 0.

(** *** Scalar worlds, with the default coefficients *)

Definition scalar_params : Scalar.Params := Scalar.mkParams 50 0.03 0.3 4.

(** The pair of the local analysis: opinions 0.3 and 0.0, weight 0.25. *)
Definition scalar_pair : Graph Q :=
  mkGraph (<[0%nat := 0.3%Q]> (<[1%nat := 0%Q]> ∅)) (<[(0%nat, 1%nat) := 0.25%Q]> ∅).

(** Two nodes as [initialize] leaves them: opinions 1 and 0, weight 0.5. *)
Definition scalar_fresh_pair : Graph Q :=
  mkGraph (<[0%nat := 1%Q]> (<[1%nat := 0%Q]> ∅)) (<[(0%nat, 1%nat) := 0.5%Q]> ∅).

(** Two nodes whose only edge has been removed. *)
Definition scalar_disconnected : Graph Q :=
  mkGraph (<[0%nat := 1%Q]> (<[1%nat := 0%Q]> ∅)) ∅.

Definition scalar_world (g : Graph Q) (r : Rng) : Scalar.W :=
  mkWorld (Scalar.mkSim scalar_params g 0) ∅ r.

(** *** Vector worlds *)

Definition vec_params (delta : option Q) (n_topics : Z) : Vec.Params :=
  Vec.mkParams 50 2 0.03 0.3 4 delta n_topics.

Definition vec_world (p : Vec.Params) (ops : list (list Q))
    (es : gmap (node * node) Q) (r : Rng) : Vec.W :=
  mkWorld
    (Vec.mkSim p (mkGraph (list_to_map (imap (λ i _, (i, i)) ops)) es) 0)
    (list_to_map (imap (λ i o, (i, o)) ops)) r.

(** One topic, no flexibility: the vector counterpart of [scalar_fresh_pair]. *)
Definition vec_fresh_pair : Vec.W :=
  vec_world (vec_params None 1) [[1%Q]; [0%Q]]
    (<[(0%nat, 1%nat) := 0.5%Q]> ∅) rng_interact.

(** Two topics, default coefficients, as [initialize] may leave them. *)
Definition vec_two_topics : Vec.W :=
  vec_world (vec_params None 2) [[1%Q; 0%Q]; [0%Q; 0%Q]]
    (<[(0%nat, 1%nat) := 0.5%Q]> ∅) rng_interact.

(** Flexibility 3 on a path 1 - 0 - 2; the normal variate is 3. *)
Definition vec_flexible_path : Vec.W :=
  vec_world (vec_params (Some 3%Q) 2) [[1%Q; 0%Q]; [0%Q; 0%Q]; [1%Q; 1%Q]]
    (<[(0%nat, 1%nat) := 0.5%Q]> (<[(0%nat, 2%nat) := 0.5%Q]> ∅)) (rng_create 3).

(** The same path with the interaction branch selected. *)
Definition vec_flexible_interact : Vec.W :=
  vec_world (vec_params (Some 3%Q) 2) [[1%Q; 0%Q]; [0%Q; 0%Q]; [1%Q; 1%Q]]
    (<[(0%nat, 1%nat) := 0.5%Q]> (<[(0%nat, 2%nat) := 0.5%Q]> ∅)) rng_interact.

(** A large flexibility with [gamma = 1] and [alpha = 0.5]. *)
Definition vec_stiff_params : Vec.Params :=
  Vec.mkParams 50 2 0.5 0.3 1 (Some 40%Q) 1.
Definition vec_stiff_pair : Vec.W :=
  vec_world vec_stiff_params [[0.25%Q]; [0.75%Q]]
    (<[(0%nat, 1%nat) := 0.5%Q]> ∅) rng_interact.

(** Two nodes without edges, and a complete graph on two nodes. *)
Definition vec_disconnected : Vec.W :=
  vec_world (vec_params None 2) [[1%Q; 0%Q]; [0%Q; 0%Q]] ∅ rng_interact.

(** *** Further worlds and a topology *)

(** A path 0 - 1 - 2, as a generator could return it. *)
Definition path3 : Topology :=
  mkTopology [0%nat; 1%nat; 2%nat] [(0%nat, 1%nat); (1%nat, 2%nat)].

(** Two connected nodes that agree: opinions 1 and 1, weight 0.5. *)
Definition scalar_agreeing_pair : Graph Q :=
  mkGraph (<[0%nat := 1%Q]> (<[1%nat := 1%Q]> ∅)) (<[(0%nat, 1%nat) := 0.5%Q]> ∅).

(** A generator whose every raw value selects the interaction branch and
    the first edge of the list; [randint(0, 1)] is 0 under it. *)
Definition rng_steady : Rng := mkRng (λ _, 2 ^ 52)%Z 0 (λ _, 0%Q) 0.

(** No flexibility and [gamma = 1]: two nodes, two topics. *)
Definition vec_mild_pair : Vec.W :=
  vec_world (Vec.mkParams 50 2 0.03 0.3 1 None 2) [[1%Q; 0%Q]; [0%Q; 0%Q]]
    (<[(0%nat, 1%nat) := 0.5%Q]> ∅) rng_interact.

(** Floats: opinions 0.0 and 0.85, weight 0.95, the default coefficients
    as the floats Python reads from their literals. *)
Definition scalar_b64_pair : Scalar.W :=
  mkWorld
    (Scalar.mkSim
       (Scalar.mkParams 50 (b64_round 0.03) (b64_round 0.3) 4)
       (mkGraph (<[0%nat := 0%Q]> (<[1%nat := b64_round 0.85]> ∅))
                (<[(0%nat, 1%nat) := b64_round 0.95]> ∅)) 0)
    ∅ rng_interact.

(** A vector world before [initialize]: no graph yet, flexibility 3. *)
Definition vec_blank : Vec.W :=
  vec_world (vec_params (Some 3%Q) 2) [] ∅ rng_interact.

End Examples.

(** * Proofs *)

(** ** Running monadic code *)

Lemma bind_Returns {W A B} (c : M W A) (k : A → M W B) w a w1 :
  c w = (Returns a, w1) → bind c k w = k a w1.
Proof. unfold bind. by intros ->. Qed.

Lemma bind_Raises {W A B} (c : M W A) (k : A → M W B) w e w1 :
  c w = (Raises e, w1) → bind c k w = (Raises e, w1).
Proof. unfold bind. by intros ->. Qed.

Lemma bind_Diverges {W A B} (c : M W A) (k : A → M W B) w w1 :
  c w = (Diverges, w1) → bind c k w = (Diverges, w1).
Proof. unfold bind. by intros ->. Qed.

(** Run the next bound computation, from an equation for it. *)
Tactic Notation "mstep" uconstr(H) := rewrite (bind_Returns _ _ _ _ _ H).
Tactic Notation "mraise" uconstr(H) := rewrite (bind_Raises _ _ _ _ _ H).

Lemma bind_gets {W A B} (f : W → A) (k : A → M W B) w :
  bind (gets f) k w = k (f w) w.
Proof. done. Qed.

Lemma bind_modify {W B} (f : W → W) (k : unit → M W B) w :
  bind (modify f) k w = k tt (f w).
Proof. done. Qed.

Lemma bind_ret {W A B} (a : A) (k : A → M W B) w : bind (ret a) k w = k a w.
Proof. done. Qed.

Lemma Qltb_lt x y : Qltb x y = true ↔ (x < y)%Q.
Proof.
  unfold Qltb. rewrite negb_true_iff, <- not_true_iff_false, Qle_bool_iff.
  split; [apply Qnot_le_lt | apply Qlt_not_le].
Qed.

Lemma Qltb_ge x y : Qltb x y = false ↔ (y <= x)%Q.
Proof. unfold Qltb. rewrite negb_false_iff. apply Qle_bool_iff. Qed.

Lemma ekey_lt u v : (u < v)%nat → ekey u v = (u, v).
Proof. intros H. unfold ekey. destruct (Nat.leb_spec u v); [done | lia]. Qed.

Section ScalarRun.
Import Scalar.
Implicit Types (w : Scalar.W) (g : Graph Q).

Lemma scalar_edge_weight_run w e x :
  edges (graph (self w)) !! ekey e.1 e.2 = Some x →
  edge_weight e w = (Returns x, w).
Proof. intros H. unfold edge_weight. rewrite bind_gets, H. done. Qed.

Lemma scalar_node_opinion_run w n o :
  nodes (graph (self w)) !! n = Some o → node_opinion n w = (Returns o, w).
Proof. intros H. unfold node_opinion. rewrite bind_gets, H. done. Qed.

Lemma scalar_store_opinion_run w n o o' :
  nodes (graph (self w)) !! n = Some o →
  store_opinion n o' w = (Returns tt, map_graph (set_node n o') w).
Proof. intros H. unfold store_opinion. by mstep (scalar_node_opinion_run _ _ _ H). Qed.

Lemma scalar_store_weight_run w e x x' :
  edges (graph (self w)) !! ekey e.1 e.2 = Some x →
  store_weight e x' w = (Returns tt, map_graph (set_weight e x') w).
Proof. intros H. unfold store_weight. by mstep (scalar_edge_weight_run _ _ _ H). Qed.

Lemma scalar_remove_edge_run w e x :
  edges (graph (self w)) !! ekey e.1 e.2 = Some x →
  remove_edge e w = (Returns tt, map_graph (del_edge e) w).
Proof.
  intros H. unfold remove_edge. rewrite bind_gets. unfold has_edge.
  rewrite bool_decide_eq_true_2; [done | by rewrite H].
Qed.

Lemma scalar_interact_run w e x o0 o1 :
  edges (graph (self w)) !! ekey e.1 e.2 = Some x →
  nodes (graph (self w)) !! e.1 = Some o0 →
  nodes (graph (self w)) !! e.2 = Some o1 →
  interact e w = (Returns tt, map_graph (interacted (params (self w)) e o0 o1 x) w).
Proof.
  intros Hx H0 H1. unfold interact. rewrite bind_gets.
  mstep (scalar_edge_weight_run _ _ _ Hx).
  mstep (scalar_node_opinion_run _ _ _ H0).
  mstep (scalar_node_opinion_run _ _ _ H1).
  mstep (scalar_store_opinion_run _ _ _ _ H0).
  assert (is_Some (nodes (graph (self (map_graph (set_node e.1
    (o0 + alpha (params (self w)) * x * (o1 - o0))%Q) w))) !! e.2)) as [o1' H1'].
  { cbn. destruct (decide (e.1 = e.2)) as [->|]; [rewrite lookup_insert_eq | rewrite lookup_insert_ne]; eauto. }
  mstep (scalar_store_opinion_run _ _ _ _ H1').
  erewrite bind_Returns; [| eapply scalar_store_weight_run; cbn; exact Hx].
  erewrite bind_Returns; [| eapply scalar_edge_weight_run; cbn; apply lookup_insert_eq].
  unfold interacted, delta_w. cbn zeta.
  destruct (Qltb _ _) eqn:Hlt.
  - erewrite scalar_remove_edge_run; [done | cbn; apply lookup_insert_eq].
  - done.
Qed.
End ScalarRun.

Section GeneratorFacts.
Context {Sim : Type}.
Implicit Types (w : World Sim).

Lemma randbelow_run w n :
  randbelow n w = (Returns (Z.to_nat (py_peek w mod Z.of_nat n)), py_advance w).
Proof. done. Qed.

Lemma randbelow_lt w n : (0 < n)%nat → (Z.to_nat (py_peek w mod Z.of_nat n) < n)%nat.
Proof.
  intros Hn. pose proof (Z.mod_pos_bound (py_peek w) (Z.of_nat n)). lia.
Qed.

Lemma random_choice_empty {A} w : random_choice (@nil A) w = (Raises IndexError, w).
Proof. done. Qed.

Lemma random_choice_run {A} (seq : list A) w :
  seq ≠ [] → ∃ x, x ∈ seq ∧ random_choice seq w = (Returns x, py_advance w).
Proof.
  intros Hne. unfold random_choice. destruct seq as [|a seq']; [done|].
  set (l := a :: seq') in *.
  mstep (randbelow_run _ _).
  destruct (lookup_lt_is_Some_2 l (Z.to_nat (py_peek w mod Z.of_nat (length l)))) as [x Hx].
  { apply randbelow_lt. simpl. lia. }
  exists x. rewrite Hx. split; [by eapply list_elem_of_lookup_2 | done].
Qed.

Lemma random_sample2_short {A} (l : list A) w :
  (length l < 2)%nat → random_sample2 l w = (Raises ValueError, w).
Proof.
  intros H. unfold random_sample2.
  destruct (Nat.ltb_spec (length l) 2); [done | lia].
Qed.

Lemma random_sample2_run {A} (l : list A) w :
  (2 ≤ length l)%nat → NoDup l →
  ∃ x y, x ∈ l ∧ y ∈ l ∧ x ≠ y ∧
    random_sample2 l w = (Returns (x, y), py_advance (py_advance w)).
Proof.
  intros Hlen Hnd. unfold random_sample2.
  destruct (Nat.ltb_spec (length l) 2); [lia|].
  mstep (randbelow_run _ _).
  set (j0 := Z.to_nat (py_peek w mod Z.of_nat (length l))).
  assert (j0 < length l)%nat as Hj0 by (apply randbelow_lt; lia).
  destruct (lookup_lt_is_Some_2 l j0 Hj0) as [x0 Hx0].
  destruct (lookup_lt_is_Some_2 l (length l - 1)) as [last Hlast]; [lia|].
  rewrite Hx0, Hlast.
  mstep (randbelow_run _ _).
  set (j1 := Z.to_nat (py_peek (py_advance w) mod Z.of_nat (length l - 1))).
  assert (j1 < length l - 1)%nat as Hj1 by (apply randbelow_lt; lia).
  destruct (decide (j0 = j1)) as [Heq|Hne].
  - rewrite <- Heq, list_lookup_insert_eq by done.
    exists x0, last. repeat split; try by eapply list_elem_of_lookup_2.
    intros ->. pose proof (NoDup_lookup _ _ _ _ Hnd Hx0 Hlast). lia.
  - rewrite list_lookup_insert_ne by done.
    destruct (lookup_lt_is_Some_2 l j1) as [x1 Hx1]; [lia|].
    rewrite Hx1. exists x0, x1. repeat split; try by eapply list_elem_of_lookup_2.
    intros ->. pose proof (NoDup_lookup _ _ _ _ Hnd Hx0 Hx1). lia.
Qed.

Lemma np_normal_run w loc scale :
  np_normal loc scale w = (Returns (loc + scale * np_peek w)%Q, np_advance w).
Proof. done. Qed.

Lemma random_random_run w :
  random_random w =
    (Returns (inject_Z (py_peek w mod 2 ^ 53) / inject_Z (2 ^ 53))%Q, py_advance w).
Proof. done. Qed.

Lemma random_uniform_run w a b :
  random_uniform a b w =
    (Returns (a + (b - a) * (inject_Z (py_peek w mod 2 ^ 53) / inject_Z (2 ^ 53)))%Q,
     py_advance w).
Proof. done. Qed.
End GeneratorFacts.

Lemma node_list_NoDup {A} (g : Graph A) : NoDup (node_list g).
Proof. apply NoDup_fst_map_to_list. Qed.

Lemma elem_of_node_list {A} (g : Graph A) n : n ∈ node_list g ↔ is_Some (nodes g !! n).
Proof.
  unfold node_list. rewrite list_elem_of_fmap. split.
  - intros [[k a] [-> H]]. apply elem_of_map_to_list in H. eauto.
  - intros [a H]. exists (n, a). split; [done | by apply elem_of_map_to_list].
Qed.

Lemma elem_of_edge_list {A} (g : Graph A) e : e ∈ edge_list g ↔ is_Some (edges g !! e).
Proof.
  unfold edge_list. rewrite list_elem_of_fmap. split.
  - intros [[k a] [-> H]]. apply elem_of_map_to_list in H. eauto.
  - intros [a H]. exists (e, a). split; [done | by apply elem_of_map_to_list].
Qed.

Lemma edge_list_nil {A} (g : Graph A) : edge_list g = [] ↔ edges g = ∅.
Proof.
  unfold edge_list. split.
  - intros H. apply fmap_nil_inv in H. by apply map_to_list_empty_iff.
  - intros ->. by rewrite map_to_list_empty.
Qed.

Section VecRun.
Import Vec.
Implicit Types (w : Vec.W) (g : Graph ref).

Lemma vec_edge_weight_run w e x :
  edges (graph (self w)) !! ekey e.1 e.2 = Some x →
  edge_weight e w = (Returns x, w).
Proof. intros H. unfold edge_weight. rewrite bind_gets, H. done. Qed.

Lemma vec_node_opinions_run w n r :
  nodes (graph (self w)) !! n = Some r → node_opinions n w = (Returns r, w).
Proof. intros H. unfold node_opinions. rewrite bind_gets, H. done. Qed.

Lemma vec_store_opinions_run w n r r' :
  nodes (graph (self w)) !! n = Some r →
  store_opinions n r' w = (Returns tt, map_graph (set_node n r') w).
Proof. intros H. unfold store_opinions. by mstep (vec_node_opinions_run _ _ _ H). Qed.

Lemma vec_store_weight_run w e x x' :
  edges (graph (self w)) !! ekey e.1 e.2 = Some x →
  store_weight e x' w = (Returns tt, map_graph (set_weight e x') w).
Proof. intros H. unfold store_weight. by mstep (vec_edge_weight_run _ _ _ H). Qed.

Lemma vec_remove_edge_run w e x :
  edges (graph (self w)) !! ekey e.1 e.2 = Some x →
  remove_edge e w = (Returns tt, map_graph (del_edge e) w).
Proof.
  intros H. unfold remove_edge. rewrite bind_gets. unfold has_edge.
  rewrite bool_decide_eq_true_2; [done | by rewrite H].
Qed.

Lemma vec_np_read_run w r : np_read r w = (Returns (arrays w !!! r), w).
Proof. done. Qed.

Lemma vec_clip_opinions_run w n r :
  nodes (graph (self w)) !! n = Some r →
  clip_opinions n w =
    (Returns tt,
     map_graph (set_node n (fresh (dom (arrays w))))
       (set_array (fresh (dom (arrays w))) (np_clip (arrays w !!! r) 0 1) w)).
Proof.
  intros H. unfold clip_opinions.
  mstep (vec_node_opinions_run _ _ _ H).
  mstep (vec_np_read_run _ _).
  erewrite bind_Returns; [| reflexivity].
  by erewrite vec_store_opinions_run.
Qed.

Lemma vec_map_graph_set_node_id w n r :
  nodes (graph (self w)) !! n = Some r → map_graph (set_node n r) w = w.
Proof.
  destruct w as [[p [ns es] st] arr rs]. cbn. intros H.
  unfold map_graph, set_node. cbn. by rewrite insert_id.
Qed.

Lemma vec_fresh_ref_ne w r : is_Some (arrays w !! r) → r ≠ fresh (dom (arrays w)).
Proof.
  intros H%elem_of_dom ->. by apply (is_fresh (dom (arrays w))).
Qed.

Lemma vec_bind_np_read {B} r (k : list Q → M W B) w :
  bind (np_read r) k w = k (arrays w !!! r) w.
Proof. done. Qed.

Lemma vec_bind_np_write {B} r a (k : unit → M W B) w :
  bind (np_write r a) k w = k tt (set_array r a w).
Proof. done. Qed.

Lemma vec_interact_run w e x ra rb :
  edges (graph (self w)) !! ekey e.1 e.2 = Some x →
  nodes (graph (self w)) !! e.1 = Some ra →
  nodes (graph (self w)) !! e.2 = Some rb →
  e.1 ≠ e.2 → ra ≠ rb →
  interact e w = (Returns tt, pruned e (clipped e ra rb (moved e ra rb w))).
Proof.
  intros Hx Ha Hb Hne Hr. unfold interact. rewrite bind_gets.
  mstep (vec_edge_weight_run _ _ _ Hx).
  mstep (vec_node_opinions_run _ _ _ Ha).
  mstep (vec_node_opinions_run _ _ _ Hb).
  rewrite !vec_bind_np_read.
  mstep (vec_node_opinions_run _ _ _ Ha).
  rewrite vec_bind_np_read, vec_bind_np_write.
  erewrite bind_Returns; [| by eapply vec_store_opinions_run].
  rewrite vec_map_graph_set_node_id by done.
  erewrite bind_Returns; [| by eapply vec_node_opinions_run].
  rewrite vec_bind_np_read, vec_bind_np_write.
  erewrite bind_Returns; [| by eapply vec_store_opinions_run].
  rewrite vec_map_graph_set_node_id by done.
  rewrite !vec_bind_np_read.
  erewrite bind_Returns; [| by eapply vec_edge_weight_run].
  erewrite bind_Returns; [| by eapply vec_store_weight_run].
  cbn [arrays set_array].
  rewrite (lookup_total_insert_ne (arrays w) ra rb) by done.
  rewrite !lookup_total_insert_eq.
  rewrite (lookup_total_insert_ne _ rb ra) by done.
  rewrite !lookup_total_insert_eq.
  set (w2 := map_graph _ _).
  assert (w2 = moved e ra rb w) as Hw2.
  { unfold w2, moved, weight_of, moved_a, moved_b, delta_o, delta_w. by rewrite Hx. }
  clearbody w2. subst w2.
  assert (Hx2 : edges (graph (self (moved e ra rb w))) !! ekey e.1 e.2 =
                Some (weight_of e (moved e ra rb w))).
  { unfold weight_of. cbn. by rewrite lookup_insert_eq. }
  assert (Ha2 : nodes (graph (self (moved e ra rb w))) !! e.1 = Some ra) by done.
  assert (Hb2 : nodes (graph (self (moved e ra rb w))) !! e.2 = Some rb) by done.
  assert (Hp2 : params (self (moved e ra rb w)) = params (self w)) by done.
  set (w2 := moved e ra rb w) in *. clearbody w2.
  unfold clipped. rewrite Hp2.
  destruct (if_truthy (delta (params (self w)))) as [d|].
  - erewrite bind_Returns; cycle 1.
    { erewrite bind_Returns; [| by eapply vec_clip_opinions_run].
      erewrite bind_Returns; [| eapply vec_clip_opinions_run; cbn; by rewrite lookup_insert_ne].
      erewrite bind_Returns; [| by eapply vec_edge_weight_run].
      by eapply vec_store_weight_run. }
    fold (clip_node e.1 ra w2). fold (clip_node e.2 rb (clip_node e.1 ra w2)).
    set (w4 := clip_node _ _ (clip_node _ _ _)).
    assert (Hx4 : edges (graph (self w4)) !! ekey e.1 e.2 = Some (weight_of e w2)) by done.
    erewrite bind_Returns; [| eapply vec_edge_weight_run; cbn; apply lookup_insert_eq].
    unfold pruned, weight_of at 2 3. cbn [self graph map_graph set_weight edges].
    rewrite lookup_insert_eq. cbn [default].
    destruct (Qltb _ _); [|done].
    erewrite vec_remove_edge_run; [done | cbn; apply lookup_insert_eq].
  - rewrite bind_ret.
    erewrite bind_Returns; [| by eapply vec_edge_weight_run].
    unfold pruned.
    destruct (Qltb _ _); [|done].
    by erewrite vec_remove_edge_run.
Qed.
End VecRun.

(** ** Graph operations *)

Lemma ekey_ordered u v : u ≠ v → ((ekey u v).1 < (ekey u v).2)%nat.
Proof. intros H. unfold ekey. destruct (Nat.leb_spec u v); simpl; lia. Qed.

Lemma ekey_endpoints u v :
  ekey u v = (u, v) ∨ ekey u v = (v, u).
Proof. unfold ekey. destruct (u <=? v)%nat; auto. Qed.

Lemma has_edge_false {A} (g : Graph A) u v :
  has_edge g u v = false ↔ edges g !! ekey u v = None.
Proof.
  unfold has_edge. rewrite bool_decide_eq_false, <- eq_None_not_Some. done.
Qed.


Lemma add_edge_wf {A} (g : Graph A) u v y :
  graph_wf g → u ≠ v → is_Some (nodes g !! u) → is_Some (nodes g !! v) →
  graph_wf (add_edge u v y g).
Proof.
  intros Hwf Hne Hu Hv a b x. cbn.
  destruct (decide (ekey u v = (a, b))) as [Heq|Hneq].
  - intros _. pose proof (ekey_ordered u v Hne) as Hlt. rewrite Heq in Hlt.
    destruct (ekey_endpoints u v) as [E|E]; rewrite E in Heq; by simplify_eq.
  - rewrite lookup_insert_ne by done. apply Hwf.
Qed.

Section ScalarFacts.
Import Scalar.
Implicit Types (w : Scalar.W).

(** The [while True] loop only ever exits with two distinct, unconnected
    nodes, and touches nothing but the generator. *)
Lemma scalar_sample_unconnected_spec fuel l w o w' :
  NoDup l → sample_unconnected fuel l w = (o, w') →
  self w' = self w ∧ arrays w' = arrays w ∧
  ∀ e, o = Returns e →
    e.1 ≠ e.2 ∧ e.1 ∈ l ∧ e.2 ∈ l ∧ has_edge (graph (self w)) e.1 e.2 = false.
Proof.
  intros Hnd. revert w o w'. induction fuel as [|fuel IH]; intros w o w' Hrun.
  - cbn in Hrun. unfold diverge in Hrun. by simplify_eq.
  - cbn [sample_unconnected] in Hrun.
    destruct (decide (length l < 2)%nat) as [Hshort|Hlong].
    + rewrite (bind_Raises _ _ _ _ _ (random_sample2_short l w Hshort)) in Hrun.
      by simplify_eq.
    + destruct (random_sample2_run l w) as (x & y & Hx & Hy & Hxy & Hs); [lia | done |].
      rewrite (bind_Returns _ _ _ _ _ Hs), bind_gets in Hrun.
      cbn [fst snd] in Hrun.
      destruct (has_edge _ x y) eqn:Hc; cbn [negb] in Hrun.
      * apply IH in Hrun as (-> & -> & Hret). done.
      * unfold ret in Hrun. simplify_eq. split; [done|]. split; [done|].
        by intros ? [= <-].
Qed.

(** More fuel never changes what the loop returns. *)
Lemma scalar_sample_unconnected_mono fuel fuel' l w e w' :
  (fuel ≤ fuel')%nat →
  sample_unconnected fuel l w = (Returns e, w') →
  sample_unconnected fuel' l w = (Returns e, w').
Proof.
  revert fuel' w. induction fuel as [|fuel IH]; intros fuel' w Hle Hrun; [done|].
  destruct fuel' as [|fuel']; [lia|]. cbn [sample_unconnected] in Hrun |- *.
  destruct (random_sample2 l w) as [[[x y]| |] w1] eqn:Hs.
  - rewrite (bind_Returns _ _ _ _ _ Hs), bind_gets in Hrun.
    rewrite (bind_Returns _ _ _ _ _ Hs), bind_gets. cbn [fst snd] in *.
    destruct (has_edge _ x y); cbn [negb] in *; [|done].
    apply IH; [lia | done].
  - by rewrite (bind_Raises _ _ _ _ _ Hs) in Hrun.
  - by rewrite (bind_Diverges _ _ _ _ Hs) in Hrun.
Qed.

Lemma scalar_create_edge_spec fuel w w' :
  create_edge fuel w = (Returns tt, w') →
  ∃ u v, u ≠ v ∧ is_Some (nodes (graph (self w)) !! u) ∧
    is_Some (nodes (graph (self w)) !! v) ∧
    has_edge (graph (self w)) u v = false ∧
    graph (self w') = add_edge u v 0.5 (graph (self w)) ∧
    params (self w') = params (self w) ∧ step (self w') = step (self w) ∧
    arrays w' = arrays w.
Proof.
  unfold create_edge. rewrite bind_gets. intros Hrun.
  destruct (sample_unconnected fuel (node_list (graph (self w))) w) as [o w1] eqn:Hs.
  pose proof (scalar_sample_unconnected_spec _ _ _ _ _ (node_list_NoDup _) Hs)
    as (Hself & Harr & Hret).
  destruct o as [[u v]| |].
  - rewrite (bind_Returns _ _ _ _ _ Hs) in Hrun.
    unfold with_graph, modify in Hrun. simplify_eq.
    destruct (Hret _ eq_refl) as (Hne & Hu & Hv & Hno). cbn in *.
    exists u, v. rewrite Hself, Harr.
    repeat split; try done; by apply elem_of_node_list.
  - rewrite (bind_Raises _ _ _ _ _ Hs) in Hrun. done.
  - rewrite (bind_Diverges _ _ _ _ Hs) in Hrun. done.
Qed.

(** With an empty edge set the interaction branch raises before anything
    is written. *)
Lemma scalar_update_empty fuel w r w1 :
  random_uniform 0 1 w = (Returns r, w1) → Qltb r 0.01 = false →
  edges (graph (self w)) = ∅ →
  update fuel w = (Raises IndexError, w1) ∧ self w1 = self w ∧ arrays w1 = arrays w.
Proof.
  intros Hr Hlt Hempty. rewrite random_uniform_run in Hr. simplify_eq.
  unfold update. rewrite (bind_Returns _ _ _ _ _ (random_uniform_run _ _ _)), Hlt.
  split; [|done]. apply bind_Raises.
  unfold interact_random. rewrite bind_gets. apply bind_Raises.
  cbn [py_advance self]. apply edge_list_nil in Hempty. by rewrite Hempty.
Qed.

(** The opinions and weight [interact] leaves on the chosen edge. *)
Lemma scalar_interacted_lookup p e o0 o1 x g :
  e.1 ≠ e.2 →
  let g' := interacted p e o0 o1 x g in
  let x' := (x + delta_w p o0 o1 x)%Q in
  nodes g' !! e.1 = Some (o0 + alpha p * x * (o1 - o0))%Q ∧
  nodes g' !! e.2 = Some (o1 + alpha p * x * (o0 - o1))%Q ∧
  edges g' !! ekey e.1 e.2 = (if Qltb x' 0.05 then None else Some x').
Proof.
  intros Hne g' x'. unfold g', interacted. fold x'.
  destruct (Qltb x' 0.05); cbn.
  - rewrite lookup_insert_ne, !lookup_insert_eq, lookup_delete_eq by done. done.
  - rewrite lookup_insert_ne, !lookup_insert_eq by done. done.
Qed.
End ScalarFacts.

Section VecStages.
Import Vec.
Implicit Types (w : Vec.W).

(** *** Writing weights and removing edges *)

Lemma vec_store_wf_set_weight w e y :
  store_wf w → is_Some (edges (graph (self w)) !! ekey e.1 e.2) →
  store_wf (map_graph (set_weight e y) w).
Proof.
  intros (Hg & Hv & Hi) [x Hx]. split; [|done].
  intros a b z. cbn.
  destruct (decide (ekey e.1 e.2 = (a, b))) as [Heq|Hneq].
  - intros _. rewrite Heq in Hx. eauto.
  - rewrite lookup_insert_ne by done. apply Hg.
Qed.

Lemma vec_store_wf_del_edge w e :
  store_wf w → store_wf (map_graph (del_edge e) w).
Proof.
  intros (Hg & Hv & Hi). split; [|done].
  intros a b z. cbn. intros H%lookup_delete_Some. apply (Hg a b z), H.
Qed.

(** *** Arrays: in-place writes and fresh arrays *)

Lemma vec_store_wf_set_array w r a :
  store_wf w → store_wf (set_array r a w).
Proof.
  intros (Hg & Hv & Hi). split; [done|]. split; [|done].
  intros n r' Hn. cbn. destruct (decide (r = r')) as [->|];
    [rewrite lookup_insert_eq | rewrite lookup_insert_ne]; eauto.
Qed.

Lemma vec_store_wf_clip_node w n r :
  store_wf w → nodes (graph (self w)) !! n = Some r →
  store_wf (clip_node n r w).
Proof.
  intros (Hg & Hv & Hi) Hn. unfold clip_node.
  set (r1 := fresh (dom (arrays w))).
  assert (∀ m r', nodes (graph (self w)) !! m = Some r' → r' ≠ r1) as Hfresh.
  { intros m r' Hm. by eapply vec_fresh_ref_ne, Hv. }
  split; [|split].
  - intros a b z Hz. destruct (Hg a b z Hz) as (? & Ha & Hb). cbn.
    split; [done|]. split; apply lookup_insert_is_Some'; auto.
  - intros m r'. cbn. intros [[-> ->]|[? Hm]]%lookup_insert_Some.
    + rewrite lookup_insert_eq. eauto.
    + rewrite lookup_insert_ne; [by eapply Hv | by apply not_eq_sym, (Hfresh m)].
  - intros m1 m2 r'. cbn.
    intros [[-> ->]|[? H1]]%lookup_insert_Some [[-> Hr]|[? H2]]%lookup_insert_Some;
      try done.
    + by destruct (Hfresh _ _ H2).
    + by destruct (Hfresh _ _ H1).
    + by eapply Hi.
Qed.

Lemma vec_opinions_clip_node_eq w n r :
  opinions (clip_node n r w) n = Some (np_clip (arrays w !!! r) 0 1).
Proof. unfold opinions. cbn. by rewrite !lookup_insert_eq. Qed.

Lemma vec_opinions_clip_node_ne w n r m :
  store_wf w → m ≠ n → opinions (clip_node n r w) m = opinions w m.
Proof.
  intros (Hg & Hv & Hi) Hne. unfold opinions. cbn.
  rewrite lookup_insert_ne by done.
  destruct (nodes (graph (self w)) !! m) as [r'|] eqn:Hm; [|done].
  rewrite lookup_insert_ne; [done|]. by apply not_eq_sym, vec_fresh_ref_ne, (Hv m).
Qed.

Lemma vec_clip_node_nodes w n r m :
  m ≠ n → nodes (graph (self (clip_node n r w))) !! m = nodes (graph (self w)) !! m.
Proof. intros H. cbn. by rewrite lookup_insert_ne. Qed.

Lemma vec_clip_node_array w n r r' :
  is_Some (arrays w !! r') → arrays (clip_node n r w) !!! r' = arrays w !!! r'.
Proof.
  intros H. cbn. rewrite lookup_total_insert_ne; [done|].
  by apply not_eq_sym, vec_fresh_ref_ne.
Qed.
End VecStages.

Section VecInteract.
Import Vec.
Implicit Types (w : Vec.W).

(** What one interaction does to a well-formed world, observed through
    opinions and weights. *)
Lemma vec_interact_spec w e x ra rb a b :
  store_wf w →
  edges (graph (self w)) !! e = Some x →
  nodes (graph (self w)) !! e.1 = Some ra →
  nodes (graph (self w)) !! e.2 = Some rb →
  arrays w !! ra = Some a →
  arrays w !! rb = Some b →
  let p := params (self w) in
  ∃ w', interact e w = (Returns tt, w') ∧
    params (self w') = p ∧ step (self w') = step (self w) ∧
    random_state w' = random_state w ∧
    store_wf w' ∧
    opinions w' e.1 = Some (final p (moved_a p a b x)) ∧
    opinions w' e.2 = Some (final p (moved_b p a b x)) ∧
    (∀ n, n ≠ e.1 → n ≠ e.2 → opinions w' n = opinions w n) ∧
    edges (graph (self w')) !! e =
      (if Qltb (written_weight p a b x) 0.05 then None
       else Some (written_weight p a b x)) ∧
    (∀ e', e' ≠ e → edges (graph (self w')) !! e' = edges (graph (self w)) !! e').
Proof.
  intros Hwf Hx Ha Hb Haa Hbb p.
  pose proof Hwf as (Hg & Hvalid & Hinj).
  destruct (Hg e.1 e.2 x) as (Huv & _ & _); [by destruct e|].
  assert (e.1 ≠ e.2) as Hne by lia.
  assert (ra ≠ rb) as Hr by (intros ->; by specialize (Hinj _ _ _ Ha Hb)).
  assert (ekey e.1 e.2 = e) as Hk by (destruct e; by apply ekey_lt).
  exists (pruned e (clipped e ra rb (moved e ra rb w))). split.
  { apply (vec_interact_run w e x); try done. by rewrite Hk. }
  (* the in-place updates *)
  set (ma := moved_a p a b x). set (mb := moved_b p a b x).
  set (x1 := (x + delta_w p ma mb x)%Q).
  assert (moved e ra rb w =
          map_graph (set_weight e x1) (set_array rb mb (set_array ra ma w))) as Hmoved.
  { unfold moved, weight_of. rewrite Hk, Hx. cbn [default].
    by rewrite (lookup_total_correct _ _ _ Haa), (lookup_total_correct _ _ _ Hbb). }
  set (w2 := moved e ra rb w) in *.
  assert (store_wf w2) as Hwf2.
  { rewrite Hmoved. apply vec_store_wf_set_weight; [|cbn; rewrite Hk; eauto].
    by do 2 apply vec_store_wf_set_array. }
  assert (opinions w2 e.1 = Some ma) as Ho1.
  { rewrite Hmoved. unfold opinions. cbn. rewrite Ha.
    by rewrite lookup_insert_ne, lookup_insert_eq. }
  assert (opinions w2 e.2 = Some mb) as Ho2.
  { rewrite Hmoved. unfold opinions. cbn. rewrite Hb. by rewrite lookup_insert_eq. }
  assert (∀ n, n ≠ e.1 → n ≠ e.2 → opinions w2 n = opinions w n) as Hoth.
  { intros n H1 H2. rewrite Hmoved. unfold opinions. cbn.
    destruct (nodes (graph (self w)) !! n) as [r|] eqn:Hn; [|done].
    rewrite !lookup_insert_ne; [done | |]; intros <-; eauto. }
  assert (nodes (graph (self w2)) = nodes (graph (self w))) as Hn2 by (by rewrite Hmoved).
  assert (edges (graph (self w2)) = <[e := x1]> (edges (graph (self w)))) as He2.
  { rewrite Hmoved. cbn. by rewrite Hk. }
  assert (params (self w2) = p ∧ step (self w2) = step (self w) ∧
          random_state w2 = random_state w) as (Hp2 & Hs2 & Hrs2) by (by rewrite Hmoved).
  assert (weight_of e w2 = x1) as Hw2.
  { unfold weight_of. by rewrite Hk, He2, lookup_insert_eq. }
  clearbody w2. clear Hmoved.
  (* the clipping block *)
  unfold written_weight, final. fold ma mb x1. unfold clipped. rewrite Hp2.
  destruct (if_truthy (delta p)) as [d|].
  - set (w3 := clip_node e.1 ra w2).
    assert (arrays w2 !!! ra = ma ∧ arrays w2 !!! rb = mb ∧ is_Some (arrays w2 !! rb))
      as (Hma & Hmb & Hrb).
    { unfold opinions in Ho1, Ho2. rewrite Hn2, Ha in Ho1. rewrite Hn2, Hb in Ho2.
      rewrite (lookup_total_correct _ _ _ Ho1), (lookup_total_correct _ _ _ Ho2). eauto. }
    assert (store_wf w3) as Hwf3 by (apply vec_store_wf_clip_node; [done | by rewrite Hn2]).
    assert (nodes (graph (self w3)) !! e.2 = Some rb) as Hb3.
    { unfold w3. rewrite vec_clip_node_nodes by done. by rewrite Hn2. }
    assert (arrays w3 !!! rb = mb) as Hmb3.
    { unfold w3. by rewrite vec_clip_node_array. }
    set (w4 := clip_node e.2 rb w3).
    assert (store_wf w4) as Hwf4 by (by apply vec_store_wf_clip_node).
    assert (opinions w4 e.1 = Some (np_clip ma 0 1)) as Ho41.
    { unfold w4. rewrite vec_opinions_clip_node_ne by done.
      unfold w3. by rewrite vec_opinions_clip_node_eq, Hma. }
    assert (opinions w4 e.2 = Some (np_clip mb 0 1)) as Ho42.
    { unfold w4. by rewrite vec_opinions_clip_node_eq, Hmb3. }
    assert (∀ n, n ≠ e.1 → n ≠ e.2 → opinions w4 n = opinions w n) as Hoth4.
    { intros n H1 H2. unfold w4, w3.
      rewrite !vec_opinions_clip_node_ne by done. by apply Hoth. }
    assert (edges (graph (self w4)) = <[e := x1]> (edges (graph (self w)))) as He4 by done.
    assert (params (self w4) = p ∧ step (self w4) = step (self w) ∧
            random_state w4 = random_state w) as (Hp4 & Hs4 & Hrs4) by done.
    clearbody w4.
    set (w5 := map_graph (set_weight e (Qclip x1 0 1)) w4).
    assert (store_wf w5) as Hwf5.
    { apply vec_store_wf_set_weight; [done|]. rewrite Hk, He4, lookup_insert_eq. eauto. }
    assert (edges (graph (self w5)) = <[e := Qclip x1 0 1]> (<[e := x1]> (edges (graph (self w)))))
      as He5 by (cbn; by rewrite Hk, He4).
    assert (weight_of e w5 = Qclip x1 0 1) as Hw5.
    { unfold weight_of. by rewrite Hk, He5, lookup_insert_eq. }
    rewrite Hw2. fold w5.
    unfold pruned. rewrite Hw5.
    destruct (Qltb (Qclip x1 0 1) 0.05).
    + split; [done|]. split; [done|]. split; [done|].
      split; [by apply vec_store_wf_del_edge|].
      split; [done|]. split; [done|]. split; [done|].
      cbn [map_graph self graph del_edge edges]. rewrite Hk.
      split; [apply lookup_delete_eq|].
      intros e' He'. fold (edges (graph (self w5))).
      rewrite lookup_delete_ne by done. rewrite He5.
      by rewrite !lookup_insert_ne.
    + split; [done|]. split; [done|]. split; [done|].
      split; [done|].
      split; [done|]. split; [done|]. split; [done|].
      rewrite He5.
      split; [apply lookup_insert_eq|].
      intros e' He'. by rewrite !lookup_insert_ne.
  - unfold pruned. rewrite Hw2.
    destruct (Qltb x1 0.05).
    + split; [done|]. split; [done|]. split; [done|].
      split; [by apply vec_store_wf_del_edge|].
      split; [done|]. split; [done|]. split; [done|].
      cbn [map_graph self graph del_edge edges]. rewrite Hk.
      split; [apply lookup_delete_eq|].
      intros e' He'. rewrite lookup_delete_ne by done. rewrite He2.
      by rewrite !lookup_insert_ne.
    + split; [done|]. split; [done|]. split; [done|].
      split; [done|].
      split; [done|]. split; [done|]. split; [done|].
      rewrite He2.
      split; [apply lookup_insert_eq|].
      intros e' He'. by rewrite !lookup_insert_ne.
Qed.
End VecInteract.

(** ** Clipping *)

Lemma Qclip_in_unit x : in_unit (Qclip x 0 1).
Proof.
  unfold in_unit, Qclip. split.
  - apply Q.min_glb; [apply Q.le_max_r | done].
  - apply Q.le_min_r.
Qed.

Lemma np_clip_in_unit o : Forall in_unit (np_clip o 0 1).
Proof. unfold np_clip. apply Forall_fmap, Forall_true. intros x. apply Qclip_in_unit. Qed.

Section VecUpdate.
Import Vec.
Implicit Types (w : Vec.W).

(** The bounded retry loop: it never diverges, draws at most [n] pairs,
    and adds at most one edge, between two distinct unconnected nodes. *)
Lemma vec_try_create_spec n w :
  ∃ o w', try_create n w = (o, w') ∧
    (o = Returns tt ∨ o = Raises ValueError) ∧
    params (self w') = params (self w) ∧ step (self w') = step (self w) ∧
    arrays w' = arrays w ∧
    (py_pos (random_state w') ≤ py_pos (random_state w) + 2 * n)%nat ∧
    (graph (self w') = graph (self w) ∨
     ∃ u v, u ≠ v ∧ is_Some (nodes (graph (self w)) !! u) ∧
       is_Some (nodes (graph (self w)) !! v) ∧
       has_edge (graph (self w)) u v = false ∧
       graph (self w') = add_edge u v (0.5 + 0.2 * np_peek w)%Q (graph (self w))).
Proof.
  revert w. induction n as [|n IH]; intros w.
  - exists (Returns tt), w. cbn. repeat split; auto with lia.
  - cbn [try_create]. rewrite bind_gets.
    destruct (decide (length (node_list (graph (self w))) < 2)%nat) as [Hshort|Hlong].
    + mraise (random_sample2_short _ w Hshort).
      exists (Raises ValueError), w. repeat split; auto with lia.
    + destruct (random_sample2_run (node_list (graph (self w))) w)
        as (x & y & Hx & Hy & Hxy & Hs); [lia | apply node_list_NoDup |].
      mstep Hs. cbn [fst snd].
      destruct (has_edge (graph (self w)) x y) eqn:Hc; cbn [negb].
      * destruct (IH (py_advance (py_advance w)))
          as (o & w' & Hrun & Ho & Hp & Hst & Harr & Hpos & Hgr).
        exists o, w'. split; [done|]. split; [done|]. split; [done|].
        split; [done|]. split; [done|]. split; [cbn in Hpos |- *; lia | done].
      * mstep (np_normal_run _ _ _).
        eexists _, _. split; [reflexivity|]. cbn.
        split; [by left|]. split; [done|]. split; [done|]. split; [done|].
        split; [lia|]. right. exists x, y.
        split; [done|]. by rewrite <- !elem_of_node_list.
Qed.


(** The interaction branch either finds no edge, or interacts on an edge
    of the graph. *)
Lemma vec_interact_random_run w :
  (edges (graph (self w)) = ∅ ∧ interact_random w = (Raises IndexError, w)) ∨
  (∃ e, is_Some (edges (graph (self w)) !! e) ∧
        interact_random w = interact e (py_advance w)).
Proof.
  unfold interact_random. rewrite bind_gets.
  destruct (decide (edge_list (graph (self w)) = [])) as [Hnil|Hcons].
  - left. split; [by apply edge_list_nil|]. rewrite Hnil.
    by mraise (random_choice_empty _).
  - right. destruct (random_choice_run _ w Hcons) as (e & He%elem_of_edge_list & Hch).
    exists e. split; [done|]. by mstep Hch.
Qed.

(** One [update] from a well-formed world with flexibility configured. *)
Lemma vec_update_step w w' :
  is_Some (if_truthy (delta (params (self w)))) →
  store_wf w →
  update w = (Returns tt, w') →
  store_wf w' ∧ params (self w') = params (self w) ∧
  (opinions_in_unit w → opinions_in_unit w') ∧
  (weights_in_unit w → ∀ e x, edges (graph (self w')) !! e = Some x →
     in_unit x ∨
     (edges (graph (self w)) !! e = None ∧ x = (0.5 + 0.2 * np_peek w)%Q)).
Proof.
  intros [d Hd] Hwf. unfold update.
  mstep (random_random_run _).
  set (w0 := py_advance w).
  assert (store_wf w0) as Hwf0 by done.
  destruct (Qltb 0.01 _).
  - (* interaction *)
    destruct (vec_interact_random_run w0) as [[_ Hraise] | (e & [x Hx] & Hrun0)].
    { by mraise Hraise. }
    set (w1 := py_advance w0) in *. assert (store_wf w1) as Hwf1 by done.
    pose proof Hwf1 as (Hg & Hvalid & Hinj).
    destruct (Hg e.1 e.2 x) as (Huv & [ra Ha] & [rb Hb]); [by destruct e|].
    destruct (Hvalid _ _ Ha) as [a Haa]. destruct (Hvalid _ _ Hb) as [b Hbb].
    destruct (vec_interact_spec w1 e x ra rb a b Hwf1 Hx Ha Hb Haa Hbb)
      as (w2 & Hrun & Hp & Hst & Hrs & Hwf2 & Ho1 & Ho2 & Hoth & Hedge & Hedges).
    rewrite Hrun in Hrun0.
    mstep Hrun0. intros [= <-].
    split; [done|]. split; [done|]. split.
    + intros Hin n o. change (opinions (bump_step w2) n) with (opinions w2 n).
      destruct (decide (n = e.1)) as [->|Hn1]; [|destruct (decide (n = e.2)) as [->|Hn2]].
      * rewrite Ho1. unfold final. cbn [w1 w0 py_advance self]. rewrite Hd.
        intros [= <-]. apply np_clip_in_unit.
      * rewrite Ho2. unfold final. cbn [w1 w0 py_advance self]. rewrite Hd.
        intros [= <-]. apply np_clip_in_unit.
      * rewrite Hoth by done. apply Hin.
    + intros Hin e' x'. change (graph (self (bump_step w2))) with (graph (self w2)).
      destruct (decide (e' = e)) as [->|He'].
      * rewrite Hedge. unfold written_weight. cbn [w1 w0 py_advance self]. rewrite Hd.
        intros H. case_match; simplify_eq. left. apply Qclip_in_unit.
      * rewrite Hedges by done. intros H. left. by eapply Hin.
  - (* a new edge *)
    unfold create_edge.
    destruct (vec_try_create_spec 50 w0)
      as (o & w1 & Hrun & Ho & Hp & Hst & Harr & Hpos & Hgr).
    destruct Ho as [-> | ->].
    2: { by mraise Hrun. }
    mstep Hrun. intros [= <-].
    destruct Hwf0 as (Hg & Hvalid & Hinj).
    destruct Hgr as [Hgr | (u & v & Hne & Hu & Hv & Hno & Hgr)].
    + split; [|split; [done|split]].
      * unfold store_wf. cbn. by rewrite Hgr, Harr.
      * intros Hin n o. unfold opinions. cbn. rewrite Hgr, Harr. apply Hin.
      * intros Hin e x. cbn. rewrite Hgr. intros H. left. by eapply Hin.
    + split; [|split; [done|split]].
      * unfold store_wf. cbn. rewrite Hgr, Harr.
        split; [by apply add_edge_wf | done].
      * intros Hin n o. unfold opinions. cbn. rewrite Hgr, Harr. apply Hin.
      * intros Hin e x. cbn. rewrite Hgr. cbn.
        intros [[<- <-]|[? H]]%lookup_insert_Some.
        -- right. split; [by apply has_edge_false | done].
        -- left. by eapply Hin.
Qed.
End VecUpdate.

(** ** The weight delta of the documented formula *)

Lemma Qabs_diff_in_unit x y : in_unit x → in_unit y → in_unit (Qabs (x - y)).
Proof.
  unfold in_unit. intros [? ?] [? ?]. split; [apply Qabs_nonneg|].
  apply Qabs_Qle_condition. split; lra.
Qed.

Lemma arr_absdiff_in_unit a b :
  Forall in_unit a → Forall in_unit b → Forall in_unit (np_absolute (arr_sub a b)).
Proof.
  intros Ha. revert b. induction Ha as [|x a Hx Ha IH]; intros b Hb; [constructor|].
  destruct Hb as [|y b Hy Hb]; [constructor|].
  cbn. constructor; [by apply Qabs_diff_in_unit | by apply IH].
Qed.

Lemma arr_sum_bounds l :
  Forall in_unit l → (0 <= arr_sum l <= inject_Z (Z.of_nat (length l)))%Q.
Proof.
  induction 1 as [|x l [? ?] Hl [? ?]]; cbn [arr_sum foldr length].
  - split; apply Qle_refl.
  - fold (arr_sum l). rewrite Nat2Z.inj_succ, <- Z.add_1_l, inject_Z_plus.
    change (inject_Z 1) with 1%Q. split; lra.
Qed.

Lemma np_mean_in_unit l : l ≠ [] → Forall in_unit l → in_unit (np_mean l).
Proof.
  intros Hne Hl. destruct (arr_sum_bounds l Hl) as [Hlo Hhi].
  assert (0 < inject_Z (Z.of_nat (length l)))%Q as Hpos.
  { change 0%Q with (inject_Z 0). rewrite <- Zlt_Qlt. destruct l; [done | cbn; lia]. }
  unfold in_unit, np_mean. split.
  - apply Qle_shift_div_l; [done | lra].
  - apply Qle_shift_div_r; [done | lra].
Qed.

(** With [gamma <= 1] the documented weight delta, taken on opinions in
    [0,1], is never negative: scalar rule ... *)
Lemma scalar_delta_w_nonneg p o_i o_j x :
  (Scalar.gamma p <= 1)%Q → (0 <= Scalar.beta p)%Q →
  in_unit o_i → in_unit o_j → in_unit x →
  (0 <= Scalar.delta_w p o_i o_j x)%Q.
Proof.
  intros Hg Hb Hi Hj [? ?]. unfold Scalar.delta_w.
  destruct (Qabs_diff_in_unit _ _ Hi Hj) as [? ?].
  generalize dependent (Qabs (o_i - o_j)). intros t ? ?.
  apply Qmult_le_0_compat; [apply Qmult_le_0_compat; [apply Qmult_le_0_compat|]|];
    [done | done | lra | nra].
Qed.

(** ... and vector rule, on the opinion vectors it is given. *)
Lemma vec_delta_w_nonneg p a b x :
  (Vec.gamma p <= 1)%Q → (0 <= Vec.beta p)%Q →
  Forall in_unit a → Forall in_unit b → length a = length b → a ≠ [] →
  in_unit x →
  (0 <= Vec.delta_w p a b x)%Q.
Proof.
  intros Hg Hb Ha Hb' Hlen Hne [? ?]. unfold Vec.delta_w.
  destruct (np_mean_in_unit (np_absolute (arr_sub a b))) as [? ?].
  { destruct a, b; done. }
  { by apply arr_absdiff_in_unit. }
  generalize dependent (np_mean (np_absolute (arr_sub a b))). intros t ? ?.
  apply Qmult_le_0_compat; [apply Qmult_le_0_compat; [apply Qmult_le_0_compat|]|];
    [done | done | lra | nra].
Qed.

(** The scalar engine's weight never decreases when [gamma <= 1]. *)
Lemma scalar_weight_nondecreasing (w : Scalar.W) e x o0 o1 :
  let p := Scalar.params (self w) in
  (Scalar.gamma p <= 1)%Q → (0 <= Scalar.beta p)%Q →
  edges (Scalar.graph (self w)) !! ekey e.1 e.2 = Some x →
  nodes (Scalar.graph (self w)) !! e.1 = Some o0 →
  nodes (Scalar.graph (self w)) !! e.2 = Some o1 →
  in_unit o0 → in_unit o1 → in_unit x →
  ∃ w', Scalar.interact e w = (Returns tt, w') ∧
    ∀ x', edges (Scalar.graph (self w')) !! ekey e.1 e.2 = Some x' → (x <= x')%Q.
Proof.
  intros p Hg Hb Hx H0 H1 Hi Hj Hu. eexists. split; [by apply scalar_interact_run|].
  cbn [self Scalar.map_graph Scalar.graph]. unfold Scalar.interacted.
  fold p. pose proof (scalar_delta_w_nonneg p o0 o1 x Hg Hb Hi Hj Hu).
  intros x'. case_match; cbn.
  - by rewrite lookup_delete_eq.
  - rewrite lookup_insert_eq. intros [= <-]. lra.
Qed.

(** ** Facts about the concrete worlds *)

(** Case analysis on a lookup in a concrete finite map. *)
Ltac finite_lookup H :=
  apply elem_of_map_to_list in H; vm_compute in H;
  repeat (apply elem_of_cons in H as [H|H]; [simplify_eq|]);
  try (by apply elem_of_nil in H).

Ltac concrete_store_wf :=
  split; [|split];
  [ intros u v x H; finite_lookup H; (split; [cbv; lia | split; by eexists])
  | intros n r H; finite_lookup H; by eexists
  | intros n m r Hn Hm; finite_lookup Hn; finite_lookup Hm; reflexivity ].

Ltac concrete_opinions :=
  let H := fresh in let H' := fresh in
  intros n o; unfold Vec.opinions;
  destruct (nodes _ !! n) as [r|] eqn:H; [|done];
  finite_lookup H; intros H'; vm_compute in H'; simplify_eq;
  repeat constructor; by cbv.

Ltac concrete_weights :=
  let H := fresh in
  intros e x H; finite_lookup H; split; by cbv.

Lemma vec_two_topics_wf : Vec.store_wf Examples.vec_two_topics.
Proof. concrete_store_wf. Qed.

Lemma vec_flexible_interact_wf : Vec.store_wf Examples.vec_flexible_interact.
Proof. concrete_store_wf. Qed.

Lemma vec_flexible_path_wf : Vec.store_wf Examples.vec_flexible_path.
Proof. concrete_store_wf. Qed.

Lemma vec_flexible_interact_opinions : Vec.opinions_in_unit Examples.vec_flexible_interact.
Proof. concrete_opinions. Qed.

Lemma vec_flexible_path_opinions : Vec.opinions_in_unit Examples.vec_flexible_path.
Proof. concrete_opinions. Qed.

Lemma vec_flexible_interact_weights : Vec.weights_in_unit Examples.vec_flexible_interact.
Proof. concrete_weights. Qed.

Lemma vec_flexible_path_weights : Vec.weights_in_unit Examples.vec_flexible_path.
Proof. concrete_weights. Qed.

(** ** binary64 rounding *)

Lemma round_half_even_spec n d :
  (0 <= n)%Z → (0 < d)%Z →
  (0 <= round_half_even n d ∧ 2 * Z.abs (round_half_even n d * d - n) <= d)%Z.
Proof.
  intros Hn Hd. unfold round_half_even.
  pose proof (Z.div_mod n d ltac:(lia)) as Hdm.
  pose proof (Z.mod_pos_bound n d Hd) as Hr.
  pose proof (Z.div_pos n d Hn Hd) as Hq.
  destruct (Z.compare_spec (2 * (n mod d)) d) as [He|Hl|Hg].
  - destruct (Z.even (n / d)); split; nia.
  - split; nia.
  - split; nia.
Qed.

Lemma round_half_even_exact k d :
  (0 < d)%Z → round_half_even (k * d) d = k.
Proof.
  intros Hd. unfold round_half_even.
  rewrite Z.div_mul, Z.mod_mul by lia.
  destruct (Z.compare_spec (2 * 0) d); lia.
Qed.

Lemma div_ratio n d n' d' :
  (0 < d)%Z → (0 < d')%Z → (n * d' = n' * d)%Z → (n / d = n' / d')%Z.
Proof.
  intros Hd Hd' H.
  rewrite <- (Z.div_mul_cancel_r n d d') by lia.
  rewrite H, (Z.mul_comm d d'). apply Z.div_mul_cancel_r; lia.
Qed.

Lemma round_half_even_ratio n d n' d' :
  (0 < d)%Z → (0 < d')%Z → (n * d' = n' * d)%Z →
  round_half_even n d = round_half_even n' d'.
Proof.
  intros Hd Hd' H. unfold round_half_even.
  rewrite <- (div_ratio n d n' d' Hd Hd' H).
  pose proof (Z.div_mod n d ltac:(lia)) as Hdm.
  pose proof (Z.div_mod n' d' ltac:(lia)) as Hdm'.
  rewrite <- (div_ratio n d n' d' Hd Hd' H) in Hdm'.
  assert ((n mod d) * d' = (n' mod d') * d)%Z as Hr by nia.
  destruct (Z.compare_spec (2 * (n mod d)) d), (Z.compare_spec (2 * (n' mod d')) d');
    try reflexivity; exfalso; nia.
Qed.

Lemma b64_ulp_pos q : (0 < b64_ulp q)%Z.
Proof. unfold b64_ulp. apply Z.pow_pos_nonneg; lia. Qed.

(** From the first normal binade on, the unit in the last place is at most
    [2^-52] times the magnitude. *)
Lemma b64_ulp_le q : (2 ^ 52 <= q)%Z → (b64_ulp q * 2 ^ 52 <= q)%Z.
Proof.
  intros Hq. unfold b64_ulp.
  assert (0 < q)%Z as Hpos by (pose proof (Z.pow_pos_nonneg 2 52); lia).
  assert (52 <= Z.log2 q)%Z as Hl by (apply Z.log2_le_pow2; lia).
  rewrite Z.max_r by lia. rewrite <- Z.pow_add_r by lia.
  replace (Z.log2 q - 52 + 52)%Z with (Z.log2 q) by lia.
  apply Z.log2_spec. lia.
Qed.

Lemma b64_ulp_small q : (q < 2 ^ 53)%Z → b64_ulp q = 1%Z.
Proof.
  intros Hq. unfold b64_ulp.
  destruct (Z.le_gt_cases q 0) as [H0|H0].
  - rewrite Z.log2_nonpos by done. done.
  - assert (Z.log2 q < 53)%Z by (apply Z.log2_lt_pow2; lia).
    rewrite Z.max_l by lia. done.
Qed.

Lemma round_half_even_signed n d T u :
  (0 < d)%Z → (0 < T)%Z → (0 < u)%Z →
  (2 * Z.abs (Z.sgn n * round_half_even (Z.abs n * T) (d * u) * u * d - n * T)
     <= d * u)%Z.
Proof.
  intros Hd HT Hu.
  destruct (round_half_even_spec (Z.abs n * T) (d * u)) as [Hm Hs]; [nia | nia |].
  set (m := round_half_even _ _) in *.
  destruct (Z.lt_trichotomy n 0) as [Hn | [-> | Hn]].
  - rewrite Z.sgn_neg by done. rewrite (Z.abs_neq n) in Hs by lia.
    replace (-1 * m * u * d - n * T)%Z with (- (m * (d * u) - - n * T))%Z by ring.
    by rewrite Z.abs_opp.
  - change (Z.sgn 0) with 0%Z.
    replace (0 * m * u * d - 0 * T)%Z with 0%Z by ring.
    change (Z.abs 0) with 0%Z. nia.
  - rewrite Z.sgn_pos by done. rewrite (Z.abs_eq n) in Hs by lia.
    replace (1 * m * u * d - n * T)%Z with (m * (d * u) - n * T)%Z by ring.
    exact Hs.
Qed.

Lemma b64_round_compat x y : (x == y)%Q → b64_round x = b64_round y.
Proof.
  unfold Qeq, b64_round. intros H.
  set (T := Z.pos b64_scale).
  assert (Z.sgn (Qnum x) = Z.sgn (Qnum y)) as Hs.
  { destruct (Z.lt_trichotomy (Qnum x) 0) as [Hx | [Hx | Hx]],
      (Z.lt_trichotomy (Qnum y) 0) as [Hy | [Hy | Hy]];
      rewrite ?(Z.sgn_neg _ Hx), ?(Z.sgn_neg _ Hy), ?(Z.sgn_pos (Qnum x)),
        ?(Z.sgn_pos (Qnum y)), ?Hx, ?Hy by lia; try reflexivity; exfalso; nia. }
  assert (Z.abs (Qnum x) * T * Z.pos (Qden y) =
          Z.abs (Qnum y) * T * Z.pos (Qden x))%Z as Ha.
  { destruct (Z.abs_spec (Qnum x)) as [[? ->] | [? ->]],
      (Z.abs_spec (Qnum y)) as [[? ->] | [? ->]]; nia. }
  rewrite (div_ratio _ (Z.pos (Qden x)) _ (Z.pos (Qden y)) ltac:(done) ltac:(done) Ha).
  set (u := b64_ulp _). pose proof (b64_ulp_pos (Z.abs (Qnum y) * T / Z.pos (Qden y))) as Hu.
  fold u in Hu.
  rewrite (round_half_even_ratio (Z.abs (Qnum x) * T) (Z.pos (Qden x) * u)
             (Z.abs (Qnum y) * T) (Z.pos (Qden y) * u)) by nia.
  by rewrite Hs.
Qed.

#[global] Instance b64_round_proper : Proper (Qeq ==> Qeq) b64_round.
Proof. intros x y H. by rewrite (b64_round_compat x y H). Qed.

Lemma b64_round_opp x : (b64_round (- x) == - b64_round x)%Q.
Proof.
  unfold b64_round, Qopp, Qeq. cbn [Qnum Qden].
  rewrite Z.abs_opp, Z.sgn_opp. ring.
Qed.

(** The rounding error is at most half a unit in the last place: relatively
    [2^-53] from the smallest normal number on, absolutely [2^-1075] below. *)
Lemma b64_round_err_normal x :
  (2 ^ 52 <= Z.abs (Qnum x) * Z.pos b64_scale / Z.pos (Qden x))%Z →
  (Qabs (b64_round x - x) <= b64_eps * Qabs x)%Q.
Proof.
  destruct x as [n dx]. unfold b64_round. cbn [Qnum Qden]. intros Hq.
  set (T := Z.pos b64_scale) in *. set (d := Z.pos dx) in *.
  set (q := (Z.abs n * T / d)%Z) in *.
  pose proof (b64_ulp_pos q) as Hu. pose proof (b64_ulp_le q Hq) as Hle.
  set (u := b64_ulp q) in *.
  pose proof (round_half_even_signed n d T u ltac:(done) ltac:(done) Hu) as Hs.
  set (m := round_half_even _ _) in *.
  assert (q * d <= Z.abs n * T)%Z as Hqd.
  { unfold q. rewrite Z.mul_comm. apply Z.mul_div_le. done. }
  unfold Qle, Qabs, Qminus, Qplus, Qopp, Qmult, b64_eps. cbn [Qnum Qden].
  rewrite !Pos2Z.inj_mul. fold T d.
  change (Z.pos (2 ^ 53)) with (2 * 2 ^ 52)%Z.
  set (P := (2 ^ 52)%Z) in *.
  assert (0 < P)%Z by (unfold P; lia).
  assert (0 < d)%Z by done. assert (0 < T)%Z by done.
  replace (Z.sgn n * m * u * d + - n * T)%Z
    with (Z.sgn n * m * u * d - n * T)%Z by ring.
  set (err := Z.abs (_ - _)) in *. set (A := Z.abs n) in *.
  assert (0 <= err)%Z by (unfold err; lia).
  assert (2 * err * P <= d * u * P)%Z by nia.
  assert (d * (u * P) <= d * q)%Z by nia.
  assert (2 * err * P <= A * T)%Z by lia.
  nia.
Qed.

Lemma b64_round_err_subnormal x :
  (Z.abs (Qnum x) * Z.pos b64_scale / Z.pos (Qden x) < 2 ^ 53)%Z →
  (Qabs (b64_round x - x) <= 1 # (2 * b64_scale))%Q.
Proof.
  destruct x as [n dx]. unfold b64_round. cbn [Qnum Qden]. intros Hq.
  set (T := Z.pos b64_scale) in *. set (d := Z.pos dx) in *.
  rewrite (b64_ulp_small _ Hq).
  pose proof (round_half_even_signed n d T 1 ltac:(done) ltac:(done) ltac:(lia)) as Hs.
  set (m := round_half_even _ _) in *.
  unfold Qle, Qabs, Qminus, Qplus, Qopp. cbn [Qnum Qden].
  rewrite !Pos2Z.inj_mul. fold T d.
  change (Z.pos 2) with 2%Z.
  assert (0 < d)%Z by done. assert (0 < T)%Z by done.
  replace (Z.sgn n * m * 1 * d + - n * T)%Z
    with (Z.sgn n * m * 1 * d - n * T)%Z by ring.
  set (err := Z.abs (_ - _)) in *.
  assert (0 <= err)%Z by (unfold err; lia).
  nia.
Qed.

Lemma b64_eps_8 : (8 * b64_eps == 1 # 2 ^ 50)%Q.
Proof. reflexivity. Qed.

Lemma b64_eps_range : (0 < b64_eps ∧ b64_eps <= 1 # 1000)%Q.
Proof. split; reflexivity || (by vm_compute). Qed.

Lemma b64_tiny_range : (0 < b64_tiny ∧ b64_tiny <= 1 # 1000)%Q.
Proof. split; reflexivity || (by vm_compute). Qed.

Lemma b64_round_err x :
  (Qabs (b64_round x - x) <= b64_eps * Qabs x + b64_tiny)%Q.
Proof.
  pose proof (Qabs_nonneg x) as Hx.
  destruct b64_eps_range as [He _]. destruct b64_tiny_range as [Ht _].
  destruct (Z.le_gt_cases (2 ^ 52)
    (Z.abs (Qnum x) * Z.pos b64_scale / Z.pos (Qden x))) as [H|H].
  - pose proof (b64_round_err_normal x H). lra.
  - pose proof (b64_round_err_subnormal x ltac:(lia)) as H'.
    fold b64_tiny in H'. nra.
Qed.

Lemma b64_round_bound x :
  (Qabs (b64_round x) <= Qabs x + b64_eps * Qabs x + b64_tiny)%Q.
Proof.
  pose proof (b64_round_err x) as He.
  pose proof (Qabs_triangle (b64_round x - x) x) as Ht.
  assert (b64_round x - x + x == b64_round x)%Q as Heq by ring.
  rewrite Heq in Ht. lra.
Qed.

(** Numbers on the grid of multiples of [2^-1074] that need at most 53 bits
    are rounded to themselves. *)
Lemma b64_round_grid_exact K :
  (Z.abs K < 2 ^ 53)%Z → b64_round (K # b64_scale) = K # b64_scale.
Proof.
  intros HK. unfold b64_round. cbn [Qnum Qden].
  rewrite Z.div_mul by done. rewrite (b64_ulp_small _ HK).
  rewrite !Z.mul_1_r, round_half_even_exact by done.
  f_equal. rewrite Z.mul_comm. apply Z.abs_sgn.
Qed.

Lemma b64_round_grid_err K :
  (Qabs (b64_round (K # b64_scale) - (K # b64_scale))
     <= b64_eps * Qabs (K # b64_scale))%Q.
Proof.
  destruct (Z.le_gt_cases (2 ^ 52) (Z.abs K)) as [H|H].
  - apply b64_round_err_normal. cbn [Qnum Qden]. by rewrite Z.div_mul.
  - rewrite b64_round_grid_exact by lia.
    assert ((K # b64_scale) - (K # b64_scale) == 0)%Q as -> by ring.
    change (Qabs 0) with 0%Q. destruct b64_eps_range.
    apply Qmult_le_0_compat; [lra | apply Qabs_nonneg].
Qed.

Lemma is_b64_grid x : is_b64 x → b64_grid x.
Proof. intros H. exists (Qnum (b64_round x)). symmetry. exact H. Qed.

Lemma b64_round_grid x : b64_grid (b64_round x).
Proof. by eexists. Qed.

(** A sum of two binary64 numbers is rounded with a relative error of at
    most [2^-53], also where the sum is subnormal (it is then exact). *)
Lemma b64_add_err a b :
  b64_grid a → b64_grid b →
  (Qabs (b64_add a b - (a + b)) <= b64_eps * Qabs (a + b))%Q.
Proof.
  intros [Ka Ha] [Kb Hb]. unfold b64_add.
  assert (a + b == (Ka + Kb) # b64_scale)%Q as ->.
  { rewrite Ha, Hb. unfold Qeq, Qplus. cbn [Qnum Qden]. rewrite !Pos2Z.inj_mul. ring. }
  apply b64_round_grid_err.
Qed.

Lemma b64_round_near x B :
  (Qabs x <= B)%Q → (B <= 2)%Q → (Qabs (b64_round x) <= B + (3 # 1000))%Q.
Proof.
  intros Hx HB. pose proof (b64_round_bound x) as Hb.
  pose proof (Qabs_nonneg x).
  destruct b64_eps_range as [? ?]. destruct b64_tiny_range as [? ?].
  assert (b64_eps * Qabs x <= (1 # 1000) * 2)%Q by nra.
  lra.
Qed.

(** The two opinion steps of an interaction are computed as exact opposites:
    rounding to nearest is symmetric. *)
Lemma b64_steps_opposite t o0 o1 :
  (b64_mul t (b64_sub o0 o1) == - b64_mul t (b64_sub o1 o0))%Q.
Proof.
  unfold b64_mul, b64_sub.
  assert (o0 - o1 == - (o1 - o0))%Q as -> by ring.
  rewrite b64_round_opp.
  assert (t * - b64_round (o1 - o0) == - (t * b64_round (o1 - o0)))%Q as -> by ring.
  apply b64_round_opp.
Qed.

Lemma b64_exchange_sum a x o0 o1 :
  in_unit a → in_unit x → in_unit o0 → in_unit o1 →
  b64_grid o0 → b64_grid o1 →
  (Qabs (b64_add o0 (b64_mul (b64_mul a x) (b64_sub o1 o0)) +
         b64_add o1 (b64_mul (b64_mul a x) (b64_sub o0 o1)) - (o0 + o1))
     <= 1 # 2 ^ 50)%Q.
Proof.
  intros [? ?] [? ?] [? ?] [? ?] G0 G1.
  set (t := b64_mul a x).
  pose proof (b64_steps_opposite t o0 o1) as Hopp.
  set (d := b64_mul t (b64_sub o1 o0)) in *.
  set (d' := b64_mul t (b64_sub o0 o1)) in *.
  assert (b64_grid d) as Gd by apply b64_round_grid.
  assert (b64_grid d') as Gd' by apply b64_round_grid.
  pose proof (b64_add_err o0 d G0 Gd) as E0.
  pose proof (b64_add_err o1 d' G1 Gd') as E1.
  assert (Qabs t <= 1 + (3 # 1000))%Q as Ht.
  { apply b64_round_near; [|lra]. apply Qabs_Qle_condition. split; nra. }
  assert (Qabs (b64_sub o1 o0) <= 1 + (3 # 1000))%Q as Hv.
  { apply b64_round_near; [|lra]. apply Qabs_Qle_condition. split; lra. }
  assert (Qabs d <= (5 # 4))%Q as Hd.
  { assert (Qabs (t * b64_sub o1 o0) <= (101 # 100))%Q as Hp.
    { rewrite Qabs_Qmult. pose proof (Qabs_nonneg t). pose proof (Qabs_nonneg (b64_sub o1 o0)).
      nra. }
    pose proof (b64_round_near _ _ Hp ltac:(lra)). unfold d, b64_mul. lra. }
  apply Qabs_Qle_condition in Hd.
  assert (Qabs (o0 + d) <= 9 # 4)%Q as B0 by (apply Qabs_Qle_condition; split; lra).
  assert (Qabs (o1 + d') <= 9 # 4)%Q as B1 by (apply Qabs_Qle_condition; split; lra).
  destruct b64_eps_range as [? _]. pose proof b64_eps_8 as H8.
  assert (b64_eps * Qabs (o0 + d) <= b64_eps * (9 # 4))%Q by (apply Qmult_le_l; done).
  assert (b64_eps * Qabs (o1 + d') <= b64_eps * (9 # 4))%Q by (apply Qmult_le_l; done).
  apply Qabs_Qle_condition in E0, E1.
  apply Qabs_Qle_condition. split; lra.
Qed.

Section ScalarB64.
Import Scalar.
Implicit Types (w : Scalar.W).

(** The opinions [interact_b64] leaves on the two endpoints. *)
Lemma scalar_interact_b64_run w (e : node * node) x o0 o1 :
  edges (graph (self w)) !! ekey e.1 e.2 = Some x →
  nodes (graph (self w)) !! e.1 = Some o0 →
  nodes (graph (self w)) !! e.2 = Some o1 →
  e.1 ≠ e.2 →
  ∃ w', interact_b64 e w = (Returns tt, w') ∧
    nodes (graph (self w')) !! e.1 =
      Some (b64_add o0 (b64_mul (b64_mul (alpha (params (self w))) x) (b64_sub o1 o0))) ∧
    nodes (graph (self w')) !! e.2 =
      Some (b64_add o1 (b64_mul (b64_mul (alpha (params (self w))) x) (b64_sub o0 o1))).
Proof.
  intros Hx H0 H1 Hne. unfold interact_b64. rewrite bind_gets.
  mstep (scalar_edge_weight_run _ _ _ Hx).
  mstep (scalar_node_opinion_run _ _ _ H0).
  mstep (scalar_node_opinion_run _ _ _ H1).
  mstep (scalar_store_opinion_run _ _ _ _ H0).
  erewrite bind_Returns;
    [| eapply scalar_store_opinion_run; cbn; rewrite lookup_insert_ne by done; exact H1].
  erewrite bind_Returns; [| eapply scalar_store_weight_run; cbn; exact Hx].
  erewrite bind_Returns; [| eapply scalar_edge_weight_run; cbn; apply lookup_insert_eq].
  destruct (Qltb _ _).
  - erewrite scalar_remove_edge_run; [| cbn; apply lookup_insert_eq].
    eexists. split; [done|]. cbn.
    by rewrite lookup_insert_ne, !lookup_insert_eq by done.
  - eexists. split; [done|]. cbn.
    by rewrite lookup_insert_ne, !lookup_insert_eq by done.
Qed.
End ScalarB64.

(** * The claims *)

(** C4 (as amended).  In binary64, on opinions, a weight and an [alpha] in
    [0,1], one scalar interaction moves the two opinions by steps computed as
    exact opposites, [d] and [-d], so the sum of the two opinions it writes
    differs from the sum it read only by the rounding of the two final
    additions: by at most [2^-50]. *)
Theorem scalar_interaction_conserves_opinion_sum
    (w : Scalar.W) (e : node * node) (x o_i o_j : Q) :
  edges (Scalar.graph (self w)) !! ekey e.1 e.2 = Some x →
  nodes (Scalar.graph (self w)) !! e.1 = Some o_i →
  nodes (Scalar.graph (self w)) !! e.2 = Some o_j →
  e.1 ≠ e.2 →
  is_b64 o_i → is_b64 o_j →
  in_unit o_i → in_unit o_j → in_unit x →
  in_unit (Scalar.alpha (Scalar.params (self w))) →
  ∃ w' o_i' o_j' d, Scalar.interact_b64 e w = (Returns tt, w') ∧
    nodes (Scalar.graph (self w')) !! e.1 = Some o_i' ∧
    nodes (Scalar.graph (self w')) !! e.2 = Some o_j' ∧
    (o_i' == b64_add o_i d)%Q ∧ (o_j' == b64_add o_j (- d))%Q ∧
    (Qabs (o_i' + o_j' - (o_i + o_j)) <= 1 # 2 ^ 50)%Q.
Proof.
  intros Hx Hi Hj Hne Bi Bj Ui Uj Ux Ua.
  destruct (scalar_interact_b64_run w e x o_i o_j Hx Hi Hj Hne) as (w' & Hrun & H1 & H2).
  eexists w', _, _, _. split; [exact Hrun|]. split; [exact H1|]. split; [exact H2|].
  split; [reflexivity|]. split.
  - unfold b64_add. by rewrite (b64_steps_opposite _ o_i o_j).
  - apply b64_exchange_sum; try done; by apply is_b64_grid.
Qed.

Lemma scalar_interaction_conserves_opinion_sum_witness :
  ∃ w' o_i' o_j' d,
    Scalar.interact_b64 (0%nat, 1%nat) Examples.scalar_b64_pair = (Returns tt, w') ∧
    nodes (Scalar.graph (self w')) !! 0%nat = Some o_i' ∧
    nodes (Scalar.graph (self w')) !! 1%nat = Some o_j' ∧
    (o_i' == b64_add 0 d)%Q ∧ (o_j' == b64_add (b64_round 0.85) (- d))%Q ∧
    (Qabs (o_i' + o_j' - (0 + b64_round 0.85)) <= 1 # 2 ^ 50)%Q.
Proof.
  apply (scalar_interaction_conserves_opinion_sum Examples.scalar_b64_pair
           (0%nat, 1%nat) (b64_round 0.95) 0%Q (b64_round 0.85));
    [reflexivity | reflexivity | reflexivity | cbn; lia
    | by vm_compute | by vm_compute
    | split; by vm_compute | split; by vm_compute | split; by vm_compute
    | split; by vm_compute].
Defined.

(** C4, as stated, fails: from the floats 0.0 and 0.85 with weight 0.95 and
    [alpha = 0.03], the interaction writes 0.024224999999999997 and
    0.8257749999999999, whose sum is not 0.85, neither exactly nor as Python
    adds them (0.8499999999999999, one unit in the last place below). *)
Lemma scalar_opinion_sum_is_not_conserved_exactly :
  let w := Examples.scalar_b64_pair in
  in_unit (b64_round 0.95) ∧
  ∃ w' o_i' o_j',
    nodes (Scalar.graph (self w)) !! 0%nat = Some 0%Q ∧
    nodes (Scalar.graph (self w)) !! 1%nat = Some (b64_round 0.85) ∧
    edges (Scalar.graph (self w)) !! (0%nat, 1%nat) = Some (b64_round 0.95) ∧
    Scalar.interact_b64 (0%nat, 1%nat) w = (Returns tt, w') ∧
    nodes (Scalar.graph (self w')) !! 0%nat = Some o_i' ∧
    nodes (Scalar.graph (self w')) !! 1%nat = Some o_j' ∧
    ¬ (o_i' + o_j' == 0 + b64_round 0.85)%Q ∧
    ¬ (b64_add o_i' o_j' == b64_add 0 (b64_round 0.85))%Q ∧
    (b64_add o_i' o_j' == 7656119366529842 # 2 ^ 53)%Q.
Proof.
  cbv zeta. split; [split; by vm_compute|].
  destruct (scalar_interact_b64_run Examples.scalar_b64_pair (0%nat, 1%nat)
    (b64_round 0.95) 0%Q (b64_round 0.85)) as (w' & Hrun & H1 & H2);
    [reflexivity | reflexivity | reflexivity | cbn; lia |].
  eexists w', _, _. do 3 (split; [reflexivity|]).
  split; [exact Hrun|]. split; [exact H1|]. split; [exact H2|].
  split; [by vm_compute|]. split; by vm_compute.
Qed.

(** C3 (as amended).  On the pair with opinions 0.3 and 0.0, weight 0.25 and
    the default coefficients, the update rule gives [Δo = -0.00225] and
    [Δw = -0.01125], and the opinions and weight written by the engine
    differ from the old ones by these deltas (within 1e-9). *)
Theorem scenario_interaction_deltas :
  let p := Examples.scalar_params in
  let w := Examples.scalar_world Examples.scalar_pair Examples.rng_interact in
  (Scalar.delta_o p 0.3 0 0.25 == -0.00225)%Q ∧
  (Scalar.delta_w p 0.3 0 0.25 == -0.01125)%Q ∧
  ∃ w' o_i' o_j' x', Scalar.update 0 w = (Returns tt, w') ∧
    nodes (Scalar.graph (self w')) !! 0%nat = Some o_i' ∧
    nodes (Scalar.graph (self w')) !! 1%nat = Some o_j' ∧
    edges (Scalar.graph (self w')) !! (0%nat, 1%nat) = Some x' ∧
    (Qabs ((o_i' - 0.3) - -0.00225) <= 1 # 1000000000)%Q ∧
    (Qabs ((0 - o_j') - -0.00225) <= 1 # 1000000000)%Q ∧
    (Qabs ((x' - 0.25) - -0.01125) <= 1 # 1000000000)%Q.
Proof.
  cbv zeta. split; [by vm_compute|]. split; [by vm_compute|].
  eexists _, _, _, _.
  split; [vm_compute; reflexivity|].
  split; [vm_compute; reflexivity|].
  split; [vm_compute; reflexivity|].
  split; [vm_compute; reflexivity|].
  repeat split; by vm_compute.
Qed.

(** C3, as stated, fails: the weight the engine writes is not within 1e-9 of
    [0.25 + (-0.03375)]. *)
Lemma scenario_weight_delta_is_not_minus_003375 :
  ∃ w' x',
    Scalar.update 0 (Examples.scalar_world Examples.scalar_pair Examples.rng_interact) =
      (Returns tt, w') ∧
    edges (Scalar.graph (self w')) !! (0%nat, 1%nat) = Some x' ∧
    ¬ (Qabs ((x' - 0.25) - -0.03375) <= 1 # 1000000000)%Q.
Proof.
  eexists _, _.
  split; [vm_compute; reflexivity|].
  split; [vm_compute; reflexivity|].
  by vm_compute.
Qed.

Lemma if_Qltb_None {A} (x y : Q) (a : A) :
  (if Qltb x y then None else Some a) = None ↔ (x < y)%Q.
Proof. rewrite <- Qltb_lt. by destruct (Qltb x y). Qed.

Lemma if_Qltb_Some {A} (x y : Q) (a : A) :
  (y <= x)%Q → (if Qltb x y then None else Some a) = Some a.
Proof. intros H%Qltb_ge. by rewrite H. Qed.

(** [vec_interact_spec] with the endpoints' arrays named by their contents. *)
Lemma vec_interact_opinions (w : Vec.W) e x a b :
  Vec.store_wf w →
  edges (Vec.graph (self w)) !! e = Some x →
  Vec.opinions w e.1 = Some a →
  Vec.opinions w e.2 = Some b →
  let p := Vec.params (self w) in
  ∃ w', Vec.interact e w = (Returns tt, w') ∧
    Vec.store_wf w' ∧
    Vec.opinions w' e.1 = Some (Vec.final p (Vec.moved_a p a b x)) ∧
    Vec.opinions w' e.2 = Some (Vec.final p (Vec.moved_b p a b x)) ∧
    edges (Vec.graph (self w')) !! e =
      (if Qltb (Vec.written_weight p a b x) 0.05 then None
       else Some (Vec.written_weight p a b x)).
Proof.
  intros Hwf Hx Ha Hb p. unfold Vec.opinions in Ha, Hb.
  destruct (nodes _ !! e.1) as [ra|] eqn:Hra; [|done].
  destruct (nodes _ !! e.2) as [rb|] eqn:Hrb; [|done].
  destruct (vec_interact_spec w e x ra rb a b Hwf Hx Hra Hrb Ha Hb)
    as (w' & Hrun & _ & _ & _ & Hwf' & Ho1 & Ho2 & _ & Hedge & _).
  by exists w'.
Qed.

(** C5.  After an interaction the sampled edge is absent exactly when the
    weight the update computed for it is below 0.05; a computed weight of
    0.05 or more (0.05 itself included) is stored on the edge, which stays.
    Both variants. *)
Theorem sampled_edge_removed_iff_below_threshold :
  (∀ (w : Scalar.W) (e : node * node) (x o0 o1 : Q),
     edges (Scalar.graph (self w)) !! ekey e.1 e.2 = Some x →
     nodes (Scalar.graph (self w)) !! e.1 = Some o0 →
     nodes (Scalar.graph (self w)) !! e.2 = Some o1 →
     let x' := (x + Scalar.delta_w (Scalar.params (self w)) o0 o1 x)%Q in
     ∃ w', Scalar.interact e w = (Returns tt, w') ∧
       (has_edge (Scalar.graph (self w')) e.1 e.2 = false ↔ (x' < 0.05)%Q) ∧
       ((0.05 <= x')%Q →
        edges (Scalar.graph (self w')) !! ekey e.1 e.2 = Some x')) ∧
  (∀ (w : Vec.W) (e : node * node) (x : Q) (a b : list Q),
     Vec.store_wf w →
     edges (Vec.graph (self w)) !! e = Some x →
     Vec.opinions w e.1 = Some a →
     Vec.opinions w e.2 = Some b →
     let x' := Vec.written_weight (Vec.params (self w)) a b x in
     ∃ w', Vec.interact e w = (Returns tt, w') ∧
       (has_edge (Vec.graph (self w')) e.1 e.2 = false ↔ (x' < 0.05)%Q) ∧
       ((0.05 <= x')%Q → edges (Vec.graph (self w')) !! e = Some x')).
Proof.
  split.
  - intros w e x o0 o1 Hx H0 H1 x'.
    eexists. split; [by apply scalar_interact_run|].
    rewrite has_edge_false. cbn [self Scalar.map_graph Scalar.graph].
    unfold Scalar.interacted. fold x'.
    destruct (Qltb x' 0.05) eqn:Hlt; cbn.
    + rewrite lookup_delete_eq. apply Qltb_lt in Hlt. split; [done|].
      intros Hge. lra.
    + rewrite lookup_insert_eq. apply Qltb_ge in Hlt. split; [|done].
      split; [done | intros ?; lra].
  - intros w e x a b Hwf Hx Ha Hb x'.
    destruct (vec_interact_opinions w e x a b Hwf Hx Ha Hb)
      as (w' & Hrun & _ & _ & _ & Hedge).
    exists w'. split; [done|]. fold x' in Hedge.
    destruct Hwf as (Hg & _). destruct (Hg e.1 e.2 x) as (Hlt & _); [by destruct e|].
    rewrite has_edge_false, ekey_lt by done. rewrite <- surjective_pairing, Hedge.
    split; [apply if_Qltb_None | apply if_Qltb_Some].
Qed.

Lemma sampled_edge_removed_iff_below_threshold_witness :
  (∃ w', Scalar.interact (0%nat, 1%nat)
           (Examples.scalar_world Examples.scalar_pair Examples.rng_interact) =
           (Returns tt, w') ∧
     (has_edge (Scalar.graph (self w')) 0%nat 1%nat = false ↔
      (0.25 + Scalar.delta_w Examples.scalar_params 0.3 0 0.25 < 0.05)%Q) ∧
     ((0.05 <= 0.25 + Scalar.delta_w Examples.scalar_params 0.3 0 0.25)%Q →
      edges (Scalar.graph (self w')) !! (0%nat, 1%nat) =
        Some (0.25 + Scalar.delta_w Examples.scalar_params 0.3 0 0.25)%Q)) ∧
  (∃ w', Vec.interact (0%nat, 1%nat) Examples.vec_two_topics = (Returns tt, w') ∧
     (has_edge (Vec.graph (self w')) 0%nat 1%nat = false ↔
      (Vec.written_weight (Examples.vec_params None 2) [1%Q; 0%Q] [0%Q; 0%Q] 0.5 < 0.05)%Q) ∧
     ((0.05 <= Vec.written_weight (Examples.vec_params None 2) [1%Q; 0%Q] [0%Q; 0%Q] 0.5)%Q →
      edges (Vec.graph (self w')) !! (0%nat, 1%nat) =
        Some (Vec.written_weight (Examples.vec_params None 2) [1%Q; 0%Q] [0%Q; 0%Q] 0.5))).
Proof.
  split.
  - apply (proj1 sampled_edge_removed_iff_below_threshold
             (Examples.scalar_world Examples.scalar_pair Examples.rng_interact)
             (0%nat, 1%nat) 0.25%Q 0.3%Q 0%Q); reflexivity.
  - apply (proj2 sampled_edge_removed_iff_below_threshold
             Examples.vec_two_topics (0%nat, 1%nat) 0.5%Q [1%Q; 0%Q] [0%Q; 0%Q]);
      [apply vec_two_topics_wf | reflexivity | reflexivity | reflexivity].
Defined.

(** C7.  When the interaction branch is selected on a graph without edges,
    [update] raises (the [IndexError] of [random.choice] on an empty list)
    instead of returning, and [self] (the graph, with its opinions and
    weights, and the step counter) is as it was.  Both variants. *)
Theorem update_on_empty_graph_raises :
  (∀ (fuel : nat) (w w1 : Scalar.W) (r : Q),
     edges (Scalar.graph (self w)) = ∅ →
     random_uniform 0 1 w = (Returns r, w1) →
     Qltb r 0.01 = false →
     ∃ w', Scalar.update fuel w = (Raises IndexError, w') ∧
       Scalar.graph (self w') = Scalar.graph (self w) ∧
       Scalar.step (self w') = Scalar.step (self w)) ∧
  (∀ (w w1 : Vec.W) (r : Q),
     edges (Vec.graph (self w)) = ∅ →
     random_random w = (Returns r, w1) →
     Qltb 0.01 r = true →
     ∃ w', Vec.update w = (Raises IndexError, w') ∧
       Vec.graph (self w') = Vec.graph (self w) ∧
       Vec.step (self w') = Vec.step (self w) ∧
       arrays w' = arrays w).
Proof.
  split.
  - intros fuel w w1 r Hempty Hr Hlt.
    destruct (scalar_update_empty fuel w r w1 Hr Hlt Hempty) as (Hrun & Hself & _).
    exists w1. by rewrite Hself.
  - intros w w1 r Hempty Hr Hlt. rewrite random_random_run in Hr. simplify_eq.
    exists (py_advance w). split; [|done]. unfold Vec.update.
    rewrite (bind_Returns _ _ _ _ _ (random_random_run _)), Hlt.
    apply bind_Raises.
    destruct (vec_interact_random_run (py_advance w)) as [[_ H]|(e & [x Hx] & _)]; [done|].
    cbn in Hx. rewrite Hempty in Hx. done.
Qed.

Lemma update_on_empty_graph_raises_witness :
  (∃ w', Scalar.update 0
           (Examples.scalar_world Examples.scalar_disconnected Examples.rng_interact) =
           (Raises IndexError, w') ∧
     Scalar.graph (self w') = Examples.scalar_disconnected ∧
     Scalar.step (self w') = 0%nat) ∧
  (∃ w', Vec.update Examples.vec_disconnected = (Raises IndexError, w') ∧
     Vec.graph (self w') = Vec.graph (self Examples.vec_disconnected) ∧
     Vec.step (self w') = 0%nat ∧
     arrays w' = arrays Examples.vec_disconnected).
Proof.
  split.
  - eapply (proj1 update_on_empty_graph_raises 0%nat
              (Examples.scalar_world Examples.scalar_disconnected Examples.rng_interact));
      [reflexivity | reflexivity | by vm_compute].
  - eapply (proj2 update_on_empty_graph_raises Examples.vec_disconnected);
      [reflexivity | reflexivity | by vm_compute].
Defined.

Lemma bind_Returns_inv {W A B} (c : M W A) (k : A → M W B) w b w' :
  bind c k w = (Returns b, w') →
  ∃ a w1, c w = (Returns a, w1) ∧ k a w1 = (Returns b, w').
Proof. unfold bind. destruct (c w) as [[a| |] w1]; [eauto | done | done]. Qed.




(** C9, as stated, fails: both constructors return normally on negative
    rates and on [n_topics = 0]. *)
Lemma constructors_accept_out_of_range_coefficients :
  ¬ raises (Scalar.__init__ 50 (-1) (-1) (-1)) ∧
  ¬ raises (Vec.__init__ 50 2 (-1) (-1) (-1) None 0).
Proof. split; by intros [e He]. Qed.

(** C9 (as amended).  Constructing an engine never fails: both constructors
    store the coefficients they are given, whatever their values. *)
Theorem constructors_store_coefficients_unchecked :
  (∀ network_size alpha beta gamma,
     Scalar.__init__ network_size alpha beta gamma =
       Returns (Scalar.mkParams network_size alpha beta gamma)) ∧
  (∀ n_size m_nodes alpha beta gamma delta n_topics,
     Vec.__init__ n_size m_nodes alpha beta gamma delta n_topics =
       Returns (Vec.mkParams n_size m_nodes alpha beta gamma delta n_topics)).
Proof. done. Qed.

(** With flexibility configured, [update] keeps the store well formed and
    the opinions in [0,1], however many times it is called. *)
Lemma vec_run_invariant n : ∀ (w w' : Vec.W),
  is_Some (if_truthy (Vec.delta (Vec.params (self w)))) →
  Vec.store_wf w → Vec.opinions_in_unit w →
  Vec.run n w = (Returns tt, w') →
  Vec.store_wf w' ∧ Vec.opinions_in_unit w'.
Proof.
  induction n as [|n IH]; intros w w' Hd Hwf Hin Hrun.
  - cbn in Hrun. unfold ret in Hrun. by simplify_eq.
  - cbn [Vec.run] in Hrun.
    apply bind_Returns_inv in Hrun as ([] & w1 & Hstep & Hrun).
    destruct (vec_update_step w w1 Hd Hwf Hstep) as (Hwf1 & Hp & Hin1 & _).
    apply (IH w1 w'); [by rewrite Hp | done | by apply Hin1 | done].
Qed.

(** C2, as stated, fails: with [delta = 3], from a well-formed world whose
    opinions and weights all lie in [0,1], the new-edge branch of [update]
    creates the edge (1, 2) with weight 1.1. *)
Lemma new_edge_weight_is_not_clamped :
  let w := Examples.vec_flexible_path in
  is_Some (if_truthy (Vec.delta (Vec.params (self w)))) ∧
  Vec.store_wf w ∧ Vec.opinions_in_unit w ∧ Vec.weights_in_unit w ∧
  ∃ w', Vec.update w = (Returns tt, w') ∧ ¬ Vec.weights_in_unit w'.
Proof.
  cbv zeta. split; [by eexists|].
  split; [apply vec_flexible_path_wf|].
  split; [apply vec_flexible_path_opinions|].
  split; [apply vec_flexible_path_weights|].
  eexists. split; [vm_compute; reflexivity|].
  intros H. specialize (H (1%nat, 2%nat) _ eq_refl). destruct H as [_ H]. by vm_compute in H.
Qed.

(** C1 (the code departs from it).  Two nodes with opinions [1, 0] and
    [0, 0], weight 0.5, default coefficients, no flexibility.  The weight
    [update] writes is 0.4295: the old weight plus the delta taken on the
    opinions as the in-place updates left them.  The delta on the opinions
    read before the interaction would give 0.425. *)
Theorem vec_weight_delta_reads_updated_opinions :
  let w := Examples.vec_two_topics in
  let p := Vec.params (self w) in
  let a := [1%Q; 0%Q] in
  let b := [0%Q; 0%Q] in
  Vec.opinions w 0%nat = Some a ∧ Vec.opinions w 1%nat = Some b ∧
  edges (Vec.graph (self w)) !! (0%nat, 1%nat) = Some 0.5%Q ∧
  ∃ w' x', Vec.update w = (Returns tt, w') ∧
    edges (Vec.graph (self w')) !! (0%nat, 1%nat) = Some x' ∧
    (x' == 0.5 + Vec.delta_w p (Vec.moved_a p a b 0.5) (Vec.moved_b p a b 0.5) 0.5)%Q ∧
    (x' == 0.4295)%Q ∧
    (0.5 + Vec.delta_w p a b 0.5 == 0.425)%Q.
Proof.
  cbv zeta. split; [reflexivity|]. split; [reflexivity|]. split; [reflexivity|].
  eexists _, _. split; [vm_compute; reflexivity|].
  split; [vm_compute; reflexivity|].
  repeat split; by vm_compute.
Qed.

(** C6 (the code departs from it).  With [gamma = 1], [alpha = 0.5],
    [beta = 0.3], [delta = 40], opinions 0.25 and 0.75 and weight 0.5, the
    vector [update] lowers the weight to 0.425: the in-place updates move the
    opinions to 1.5 and -0.5 before the weight delta reads them. *)
Theorem vec_weight_decreases_with_gamma_1 :
  let w := Examples.vec_stiff_pair in
  (Vec.gamma (Vec.params (self w)) <= 1)%Q ∧
  Vec.opinions w 0%nat = Some [0.25%Q] ∧ Vec.opinions w 1%nat = Some [0.75%Q] ∧
  edges (Vec.graph (self w)) !! (0%nat, 1%nat) = Some 0.5%Q ∧
  ∃ w' x', Vec.update w = (Returns tt, w') ∧
    edges (Vec.graph (self w')) !! (0%nat, 1%nat) = Some x' ∧
    (x' == 0.425)%Q ∧ (x' < 0.5)%Q.
Proof.
  cbv zeta. split; [by vm_compute|].
  split; [reflexivity|]. split; [reflexivity|]. split; [reflexivity|].
  eexists _, _. split; [vm_compute; reflexivity|].
  split; [vm_compute; reflexivity|].
  split; by vm_compute.
Qed.

(** C10 (the code departs from it).  One topic, no flexibility, the same
    pair (opinions 1 and 0, weight 0.5), coefficients and random draws: the
    two variants write the same opinions, but the scalar variant writes the
    weight 0.275 and the vector variant 0.284. *)
Theorem one_topic_vector_weight_differs_from_scalar :
  ∃ ws' wv' o0 o1 v0 v1 xs xv,
    Scalar.update 0
      (Examples.scalar_world Examples.scalar_fresh_pair Examples.rng_interact) =
      (Returns tt, ws') ∧
    Vec.update Examples.vec_fresh_pair = (Returns tt, wv') ∧
    nodes (Scalar.graph (self ws')) !! 0%nat = Some o0 ∧
    nodes (Scalar.graph (self ws')) !! 1%nat = Some o1 ∧
    Vec.opinions wv' 0%nat = Some [v0] ∧
    Vec.opinions wv' 1%nat = Some [v1] ∧
    (o0 == v0)%Q ∧ (o1 == v1)%Q ∧
    edges (Scalar.graph (self ws')) !! (0%nat, 1%nat) = Some xs ∧
    edges (Vec.graph (self wv')) !! (0%nat, 1%nat) = Some xv ∧
    (xs == 0.275)%Q ∧ (xv == 0.284)%Q.
Proof.
  eexists _, _, _, _, _, _, _, _.
  split; [vm_compute; reflexivity|].
  split; [vm_compute; reflexivity|].
  split; [vm_compute; reflexivity|].
  split; [vm_compute; reflexivity|].
  split; [vm_compute; reflexivity|].
  split; [vm_compute; reflexivity|].
  split; [by vm_compute|]. split; [by vm_compute|].
  split; [vm_compute; reflexivity|].
  split; [vm_compute; reflexivity|].
  split; by vm_compute.
Qed.

(** * Further properties of the engines

    Outcomes of [update], what a returning [update] touches, [initialize],
    the driver loop, and the traces of the local analysis. *)

(** * Further properties of the two engines *)

(** ** How [update] can end *)

Section ScalarOutcomes.
Import Scalar.
Implicit Types (w : Scalar.W).

Lemma scalar_interact_random_run w :
  (edges (graph (self w)) = ∅ ∧ interact_random w = (Raises IndexError, w)) ∨
  (∃ e, is_Some (edges (graph (self w)) !! e) ∧
        interact_random w = interact e (py_advance w)).
Proof.
  unfold interact_random. rewrite bind_gets.
  destruct (decide (edge_list (graph (self w)) = [])) as [Hnil|Hcons].
  - left. split; [by apply edge_list_nil|]. rewrite Hnil.
    by mraise (random_choice_empty _).
  - right. destruct (random_choice_run _ w Hcons) as (e & He%elem_of_edge_list & Hch).
    exists e. split; [done|]. by mstep Hch.
Qed.

(** An interaction on an edge of a well-formed graph returns. *)
Lemma scalar_interact_returns w e :
  graph_wf (graph (self w)) → is_Some (edges (graph (self w)) !! e) →
  ∃ x o0 o1,
    edges (graph (self w)) !! e = Some x ∧
    nodes (graph (self w)) !! e.1 = Some o0 ∧
    nodes (graph (self w)) !! e.2 = Some o1 ∧
    (e.1 < e.2)%nat ∧
    interact e w =
      (Returns tt, map_graph (interacted (params (self w)) e o0 o1 x) w).
Proof.
  intros Hwf [x Hx]. destruct (Hwf e.1 e.2 x) as (Hlt & [o0 H0] & [o1 H1]); [by destruct e|].
  exists x, o0, o1. repeat split; try done.
  apply scalar_interact_run; [|done|done].
  rewrite ekey_lt by done. by destruct e.
Qed.

(** The [while True] loop ends in one of three ways. *)
Lemma scalar_sample_unconnected_outcome fuel l w o w' :
  NoDup l →
  sample_unconnected fuel l w = (o, w') →
  (∃ e, o = Returns e) ∨ (o = Raises ValueError ∧ (length l < 2)%nat) ∨ o = Diverges.
Proof.
  intros Hnd. revert w. induction fuel as [|fuel IH]; intros w Hrun.
  - cbn in Hrun. unfold diverge in Hrun. simplify_eq. auto.
  - cbn [sample_unconnected] in Hrun.
    destruct (decide (length l < 2)%nat) as [Hshort|Hlong].
    + rewrite (bind_Raises _ _ _ _ _ (random_sample2_short l w Hshort)) in Hrun.
      simplify_eq. auto.
    + destruct (random_sample2_run l w) as (x & y & _ & _ & _ & Hs); [lia|done|].
      rewrite (bind_Returns _ _ _ _ _ Hs), bind_gets in Hrun.
      destruct (negb _).
      * unfold ret in Hrun. simplify_eq. eauto.
      * by eapply IH.
Qed.

Lemma scalar_create_edge_outcomes fuel w o w' :
  create_edge fuel w = (o, w') →
  o = Returns tt ∨
  (self w' = self w ∧ arrays w' = arrays w ∧
   ((o = Raises ValueError ∧ (size (nodes (graph (self w))) < 2)%nat) ∨ o = Diverges)).
Proof.
  unfold create_edge. rewrite bind_gets.
  destruct (sample_unconnected fuel (node_list (graph (self w))) w) as [o1 w1] eqn:Hs.
  pose proof (scalar_sample_unconnected_spec _ _ _ _ _ (node_list_NoDup _) Hs)
    as (Hself & Harr & _).
  destruct (scalar_sample_unconnected_outcome _ _ _ _ _ (node_list_NoDup _) Hs)
    as [[e ->] | [[-> Hlen] | ->]].
  - mstep Hs. intros [= <- <-]. by left.
  - mraise Hs. intros [= <- <-]. right.
    split; [done|]. split; [done|]. left. split; [done|].
    unfold node_list in Hlen. by rewrite length_fmap, length_map_to_list in Hlen.
  - rewrite (bind_Diverges _ _ _ _ Hs). intros [= <- <-]. right. auto.
Qed.

(** X1.  A scalar [update] on a well-formed graph either returns or ends
    before writing anything: with [IndexError] on a graph without edges, with
    [ValueError] on a graph with fewer than two nodes, or still inside the
    [while True] loop of the new-edge branch. *)
Theorem scalar_update_outcomes fuel w o w' :
  graph_wf (graph (self w)) →
  update fuel w = (o, w') →
  o = Returns tt ∨
  (self w' = self w ∧ arrays w' = arrays w ∧
   ((o = Raises IndexError ∧ edges (graph (self w)) = ∅) ∨
    (o = Raises ValueError ∧ (size (nodes (graph (self w))) < 2)%nat) ∨
    o = Diverges)).
Proof.
  intros Hwf. unfold update. mstep (random_uniform_run w 0 1).
  set (w0 := py_advance w). destruct (Qltb _ _).
  - (* a new edge *)
    destruct (create_edge fuel w0) as [o1 w1] eqn:Hc.
    destruct (scalar_create_edge_outcomes _ _ _ _ Hc)
      as [-> | (Hself & Harr & [[-> Hlen] | ->])].
    + mstep Hc. intros [= <- <-]. by left.
    + mraise Hc. intros [= <- <-]. right. split; [done|]. split; [done|]. auto.
    + rewrite (bind_Diverges _ _ _ _ Hc). intros [= <- <-]. right.
      split; [done|]. split; [done|]. auto.
  - (* interaction *)
    destruct (scalar_interact_random_run w0) as [[Hempty Hraise] | (e & He & Hrun0)].
    + mraise Hraise. intros [= <- <-]. right. split; [done|]. split; [done|]. auto.
    + destruct (scalar_interact_returns (py_advance w0) e Hwf He)
        as (x & o0 & o1 & _ & _ & _ & _ & Hrun).
      rewrite Hrun in Hrun0. mstep Hrun0. intros [= <- <-]. by left.
Qed.
End ScalarOutcomes.

(** ** Numeric facts about one interaction *)

Lemma Qmult_in_unit a b : in_unit a → in_unit b → in_unit (a * b).
Proof. unfold in_unit. intros [? ?] [? ?]. split; nra. Qed.

(** A step of rate [t] in [0,1] towards [o'] stays between the two opinions. *)
Lemma convex_step_in_unit t o o' :
  in_unit t → in_unit o → in_unit o' → in_unit (o + t * (o' - o)).
Proof. unfold in_unit. intros [? ?] [? ?] [? ?]. split; nra. Qed.

(** The weight written never exceeds 1: [w + beta w (1 - w) c] with [c <= 1]. *)
Lemma weight_step_le_1 b x c :
  in_unit b → in_unit x → (c <= 1)%Q → (x + b * x * (1 - x) * c <= 1)%Q.
Proof.
  unfold in_unit. intros [Hb0 Hb1] [Hx0 Hx1] Hc.
  destruct (Qmult_in_unit b x) as [Ht0 Ht1]; [done..|].
  generalize dependent (b * x)%Q. intros t Ht0 Ht1.
  assert (0 <= t * (1 - x))%Q as Hu0 by nra.
  assert (t * (1 - x) <= 1 - x)%Q as Hu1 by nra.
  generalize dependent (t * (1 - x))%Q. intros u ? ?. nra.
Qed.

Section ScalarInvariants.
Import Scalar.
Implicit Types (w : Scalar.W) (g : Graph Q).

(** A scalar [update] that returns did exactly one of two things. *)
Lemma scalar_update_returns fuel w w' :
  graph_wf (graph (self w)) →
  update fuel w = (Returns tt, w') →
  params (self w') = params (self w) ∧
  step (self w') = S (step (self w)) ∧
  arrays w' = arrays w ∧
  ((∃ u v, u ≠ v ∧ is_Some (nodes (graph (self w)) !! u) ∧
      is_Some (nodes (graph (self w)) !! v) ∧
      has_edge (graph (self w)) u v = false ∧
      graph (self w') = add_edge u v 0.5 (graph (self w))) ∨
   (∃ e x o0 o1,
      edges (graph (self w)) !! e = Some x ∧
      nodes (graph (self w)) !! e.1 = Some o0 ∧
      nodes (graph (self w)) !! e.2 = Some o1 ∧
      (e.1 < e.2)%nat ∧
      graph (self w') = interacted (params (self w)) e o0 o1 x (graph (self w)))).
Proof.
  intros Hwf. unfold update. mstep (random_uniform_run w 0 1).
  set (w0 := py_advance w). destruct (Qltb _ _).
  - intros ([] & w1 & Hc & Hstep)%bind_Returns_inv.
    destruct (scalar_create_edge_spec fuel w0 w1 Hc)
      as (u & v & Hne & Hu & Hv & Hno & Hg & Hp & Hst & Harr).
    unfold incr_step, modify in Hstep. simplify_eq. cbn.
    rewrite Hp, Hst, Harr, Hg. repeat split; try done. left. by exists u, v.
  - destruct (scalar_interact_random_run w0) as [[_ Hraise] | (e & He & Hrun0)].
    { by mraise Hraise. }
    destruct (scalar_interact_returns (py_advance w0) e Hwf He)
      as (x & o0 & o1 & Hx & H0 & H1 & Hlt & Hrun).
    rewrite Hrun in Hrun0. mstep Hrun0. intros [= <-]. cbn.
    repeat split; try done. right. by exists e, x, o0, o1.
Qed.

Lemma scalar_interacted_wf p (e : node * node) x o0 o1 g :
  graph_wf g → is_Some (edges g !! e) → (e.1 < e.2)%nat →
  graph_wf (interacted p e o0 o1 x g).
Proof.
  intros Hwf [y Hy] Hlt. unfold interacted.
  assert (ekey e.1 e.2 = e) as Hk by (rewrite ekey_lt by done; by destruct e).
  set (x' := (x + delta_w p o0 o1 x)%Q).
  assert (∀ u v z, <[e := x']> (edges g) !! (u, v) = Some z →
    (u < v)%nat ∧
    is_Some (<[e.2 := (o1 + alpha p * x * (o0 - o1))%Q]>
             (<[e.1 := (o0 + alpha p * x * (o1 - o0))%Q]> (nodes g)) !! u) ∧
    is_Some (<[e.2 := (o1 + alpha p * x * (o0 - o1))%Q]>
             (<[e.1 := (o0 + alpha p * x * (o1 - o0))%Q]> (nodes g)) !! v)) as Hins.
  { intros u v z Hz.
    assert (is_Some (edges g !! (u, v))) as [z' Hz'].
    { destruct (decide (e = (u, v))) as [<-|]; [eauto|].
      rewrite lookup_insert_ne in Hz by done. eauto. }
    destruct (Hwf u v z' Hz') as (? & Hu & Hv).
    split; [done|]. split; by do 2 (apply lookup_insert_is_Some'; right). }
  destruct (Qltb x' 0.05); intros u v z;
    unfold del_edge, set_weight, set_node; cbn [edges nodes]; rewrite Hk.
  - intros [_ Hz]%lookup_delete_Some. by eapply Hins.
  - by apply Hins.
Qed.

(** Well-formedness of the graph is an invariant of [update]. *)
Lemma scalar_update_wf fuel w w' :
  graph_wf (graph (self w)) → update fuel w = (Returns tt, w') →
  graph_wf (graph (self w')).
Proof.
  intros Hwf Hrun.
  destruct (scalar_update_returns fuel w w' Hwf Hrun)
    as (_ & _ & _ & [(u & v & Hne & Hu & Hv & _ & ->) |
                     (e & x & o0 & o1 & Hx & _ & _ & Hlt & ->)]).
  - by apply add_edge_wf.
  - apply scalar_interacted_wf; eauto.
Qed.

(** One interaction keeps opinions in [0,1] and weights in [0.05, 1]. *)
Lemma scalar_interacted_bounded p (e : node * node) x o0 o1 g :
  valid p → bounded g →
  edges g !! ekey e.1 e.2 = Some x →
  nodes g !! e.1 = Some o0 → nodes g !! e.2 = Some o1 →
  bounded (interacted p e o0 o1 x g).
Proof.
  intros (Ha & Hb & Hc) [Hn He] Hx H0 H1.
  pose proof (Hn _ _ H0) as Ho0. pose proof (Hn _ _ H1) as Ho1.
  destruct (He _ _ Hx) as [Hx1 Hx2].
  assert (in_unit x) as Hxu by (split; lra).
  assert (in_unit (alpha p * x)) as Hax by (by apply Qmult_in_unit).
  unfold interacted. set (x' := (x + delta_w p o0 o1 x)%Q).
  assert (x' <= 1)%Q as Hle.
  { unfold x', delta_w. apply weight_step_le_1; [done | done |].
    destruct (Qabs_diff_in_unit o0 o1 Ho0 Ho1) as [? _].
    generalize dependent (Qabs (o0 - o1)). intros d ?. nra. }
  split.
  - assert (∀ n o, nodes (set_weight e x'
        (set_node e.2 (o1 + alpha p * x * (o0 - o1))%Q
          (set_node e.1 (o0 + alpha p * x * (o1 - o0))%Q g))) !! n = Some o → in_unit o).
    { intros n o. cbn.
      intros [[<- <-]|[_ [[<- <-]|[_ H]]%lookup_insert_Some]]%lookup_insert_Some.
      - by apply convex_step_in_unit.
      - by apply convex_step_in_unit.
      - by eapply Hn. }
    by destruct (Qltb x' 0.05).
  - destruct (Qltb x' 0.05) eqn:Hlt; intros e' y; cbn.
    + intros [Hne H]%lookup_delete_Some. rewrite lookup_insert_ne in H by done.
      by eapply He.
    + intros [[<- <-]|[_ H]]%lookup_insert_Some; [|by eapply He].
      apply Qltb_ge in Hlt. split; lra.
Qed.

(** [update] keeps the scalar ranges, with no clamping in the code. *)
Lemma scalar_update_bounded fuel w w' :
  valid (params (self w)) → graph_wf (graph (self w)) → bounded (graph (self w)) →
  update fuel w = (Returns tt, w') →
  bounded (graph (self w')).
Proof.
  intros Hv Hwf Hb Hrun.
  destruct (scalar_update_returns fuel w w' Hwf Hrun)
    as (_ & _ & _ & [(u & v & Hne & Hu & Hv' & Hno & ->) |
                     (e & x & o0 & o1 & Hx & H0 & H1 & Hlt & ->)]).
  - destruct Hb as [Hn He]. split; [done|]. intros e y. cbn.
    intros [[<- <-]|[_ H]]%lookup_insert_Some; [split; by cbv | by eapply He].
  - apply scalar_interacted_bounded; try done.
    rewrite ekey_lt by done. by destruct e.
Qed.
End ScalarInvariants.

Section ScalarLifecycle.
Import Scalar.
Implicit Types (w : Scalar.W) (g : Graph Q).

(** The driver loop keeps the invariants and counts its iterations. *)
Lemma scalar_run_invariant fuel n : ∀ w w',
  valid (params (self w)) → graph_wf (graph (self w)) → bounded (graph (self w)) →
  run fuel n w = (Returns tt, w') →
  params (self w') = params (self w) ∧
  step (self w') = (step (self w) + n)%nat ∧
  graph_wf (graph (self w')) ∧ bounded (graph (self w')).
Proof.
  induction n as [|n IH]; intros w w' Hv Hwf Hb Hrun.
  - cbn in Hrun. unfold ret in Hrun. simplify_eq.
    split; [done|]. split; [lia|]. by split.
  - cbn [run] in Hrun. apply bind_Returns_inv in Hrun as ([] & w1 & Hstep & Hrun).
    destruct (scalar_update_returns fuel w w1 Hwf Hstep) as (Hp & Hst & _ & _).
    destruct (IH w1 w') as (Hp' & Hst' & Hwf' & Hb'); try done.
    + by rewrite Hp.
    + by eapply scalar_update_wf.
    + by eapply scalar_update_bounded.
    + rewrite Hp', Hp, Hst', Hst. split; [done|]. split; [lia|]. by split.
Qed.

Lemma random_randint_bit w :
  ∃ k, (k = 0 ∨ k = 1)%Z ∧ random_randint 0 1 w = (Returns k, py_advance w).
Proof.
  change (random_randint 0 1 w)
    with (bind (randbelow 2) (λ k, ret (0 + Z.of_nat k)%Z) w).
  mstep (randbelow_run w 2). pose proof (randbelow_lt w 2 ltac:(lia)).
  eexists. split; [|reflexivity]. lia.
Qed.

Lemma scalar_draw_opinions_spec l : ∀ acc w,
  ∃ ns w', draw_opinions l acc w = (Returns ns, w') ∧
    self w' = self w ∧ arrays w' = arrays w ∧
    (∀ n, n ∉ l → ns !! n = acc !! n) ∧
    (∀ n, n ∈ l → ns !! n = Some 0%Q ∨ ns !! n = Some 1%Q).
Proof.
  induction l as [|m l IH]; intros acc w.
  - exists acc, w. repeat split; try done. intros n Hn. by apply elem_of_nil in Hn.
  - cbn [draw_opinions]. destruct (random_randint_bit w) as (k & Hk & Hr). mstep Hr.
    destruct (IH (<[m := inject_Z k]> acc) (py_advance w))
      as (ns & w' & Hrun & Hself & Harr & Hout & Hin).
    exists ns, w'. split; [done|]. split; [done|]. split; [done|]. split.
    + intros n Hn. apply not_elem_of_cons in Hn as [Hne Hn].
      rewrite Hout by done. by rewrite lookup_insert_ne.
    + intros n [->|Hn]%elem_of_cons; [|by apply Hin].
      destruct (decide (m ∈ l)) as [Hm|Hm]; [by apply Hin|].
      rewrite Hout, lookup_insert_eq by done. destruct Hk as [-> | ->]; auto.
Qed.

Lemma constant_weights_spec es : ∀ k,
  constant_weights es !! k =
    if decide (k ∈ (λ e : node * node, ekey e.1 e.2) <$> es) then Some 0.5%Q else None.
Proof.
  unfold constant_weights.
  assert (∀ (acc : gmap (node * node) Q) k,
    foldl (λ acc (e : node * node), <[ekey e.1 e.2 := 0.5%Q]> acc) acc es !! k =
    if decide (k ∈ (λ e : node * node, ekey e.1 e.2) <$> es) then Some 0.5%Q else acc !! k) as H.
  { induction es as [|e es IH]; intros acc k; cbn [foldl fmap list_fmap].
    - rewrite decide_False; [done | apply not_elem_of_nil].
    - rewrite IH. destruct (decide (k ∈ _ <$> es)) as [Hk|Hk].
      + rewrite decide_True; [done | by right].
      + destruct (decide (k = ekey e.1 e.2)) as [->|Hne].
        * rewrite lookup_insert_eq, decide_True; [done | by left].
        * rewrite lookup_insert_ne by done. rewrite decide_False; [done|].
          by intros [?|?]%elem_of_cons. }
  intros k. by rewrite H.
Qed.

(** What [initialize] builds from a well-formed topology. *)
Lemma scalar_initialize_spec t w :
  topology_wf t →
  ∃ w', initialize t w = (Returns tt, w') ∧
    params (self w') = params (self w) ∧ arrays w' = arrays w ∧
    step (self w') = 0%nat ∧
    (∀ n, is_Some (nodes (graph (self w')) !! n) ↔ n ∈ t_nodes t) ∧
    (∀ e, is_Some (edges (graph (self w')) !! e) ↔ e ∈ t_edges t) ∧
    (∀ n o, nodes (graph (self w')) !! n = Some o → o = 0%Q ∨ o = 1%Q) ∧
    (∀ e x, edges (graph (self w')) !! e = Some x → x = 0.5%Q).
Proof.
  intros [Hnd Hedges]. unfold initialize.
  destruct (scalar_draw_opinions_spec (t_nodes t) ∅ w)
    as (ns & w1 & Hrun & Hself & Harr & Hout & Hin).
  mstep Hrun. eexists. split; [reflexivity|]. cbn.
  rewrite Hself, Harr. split; [done|]. split; [done|]. split; [done|].
  assert ((λ e : node * node, ekey e.1 e.2) <$> t_edges t = t_edges t) as Hkeys.
  { rewrite <- (list_fmap_id (t_edges t)) at 2. apply list_fmap_ext.
    intros i e He%list_elem_of_lookup_2. destruct (Hedges e He) as (Hlt & _).
    rewrite ekey_lt by done. by destruct e. }
  split; [|split; [|split]].
  - intros n. destruct (decide (n ∈ t_nodes t)) as [Hn|Hn].
    + split; [done|]. intros _. destruct (Hin n Hn) as [-> | ->]; eauto.
    + rewrite Hout, lookup_empty by done. split; [by intros [] | done].
  - intros e. rewrite constant_weights_spec, Hkeys.
    case_decide; (split; [|intros ?]); [done | by eexists | by intros [? ?] | done].
  - intros n o Ho. destruct (decide (n ∈ t_nodes t)) as [Hn|Hn].
    + destruct (Hin n Hn) as [H | H]; rewrite H in Ho; simplify_eq; auto.
    + by rewrite Hout, lookup_empty in Ho.
  - intros e x. rewrite constant_weights_spec. case_decide; by intros [= <-].
Qed.

(** The graph [initialize] builds satisfies the invariants of [update]. *)
Lemma scalar_initialize_invariants t w w' :
  topology_wf t → initialize t w = (Returns tt, w') →
  graph_wf (graph (self w')) ∧ bounded (graph (self w')).
Proof.
  intros Ht Hrun. pose proof Ht as [Hnd Hedges].
  destruct (scalar_initialize_spec t w Ht)
    as (w'' & Hrun' & _ & _ & _ & Hnodes & Hed & Hops & Hws).
  rewrite Hrun in Hrun'. injection Hrun' as <-. split; [|split].
  - intros u v x Hx. destruct (Hedges (u, v)) as (Hlt & Hu & Hv).
    { apply Hed. eauto. }
    split; [done|]. split; by apply Hnodes.
  - intros n o Ho. destruct (Hops n o Ho) as [-> | ->]; split; by cbv.
  - intros e x Hx. rewrite (Hws e x Hx). split; by cbv.
Qed.
End ScalarLifecycle.

Section VecOutcomes.
Import Vec.
Implicit Types (w : Vec.W).

(** The retry loop can only fail on a population of fewer than two nodes,
    and then it has changed nothing. *)
Lemma vec_try_create_raises n : ∀ w e w',
  try_create n w = (Raises e, w') →
  e = ValueError ∧ (size (nodes (graph (self w))) < 2)%nat ∧
  self w' = self w ∧ arrays w' = arrays w.
Proof.
  induction n as [|n IH]; intros w e w'; [done|].
  cbn [try_create]. rewrite bind_gets.
  destruct (decide (length (node_list (graph (self w))) < 2)%nat) as [Hshort|Hlong].
  - mraise (random_sample2_short _ w Hshort). intros [= <- <-].
    unfold node_list in Hshort. by rewrite length_fmap, length_map_to_list in Hshort.
  - destruct (random_sample2_run (node_list (graph (self w))) w)
      as (x & y & _ & _ & _ & Hs); [lia | apply node_list_NoDup |].
    mstep Hs. cbn [fst snd]. destruct (negb _).
    + mstep (np_normal_run _ _ _). done.
    + intros H. by destruct (IH _ _ _ H) as (-> & ? & -> & ->).
Qed.

(** A graph with an edge has at least two nodes. *)
Lemma graph_wf_two_nodes {A} (g : Graph A) e :
  graph_wf g → is_Some (edges g !! e) → (2 ≤ size (nodes g))%nat.
Proof.
  intros Hwf [x Hx]. destruct (Hwf e.1 e.2 x) as (Hlt & [a Ha] & [b Hb]); [by destruct e|].
  assert ({[e.1; e.2]} ⊆ dom (nodes g)) as Hsub.
  { intros n [->%elem_of_singleton | ->%elem_of_singleton]%elem_of_union;
      apply elem_of_dom; eauto. }
  apply subseteq_size in Hsub. rewrite size_dom in Hsub.
  rewrite size_union, !size_singleton in Hsub; [lia|]. set_solver by lia.
Qed.

(** How a vector [update] on a well-formed world can end: it returns, or it
    fails before writing anything. *)
Lemma vec_update_outcomes w o w' :
  store_wf w →
  update w = (o, w') →
  o = Returns tt ∨
  (self w' = self w ∧ arrays w' = arrays w ∧
   ((o = Raises IndexError ∧ edges (graph (self w)) = ∅) ∨
    (o = Raises ValueError ∧ (size (nodes (graph (self w))) < 2)%nat))).
Proof.
  intros Hwf. unfold update. mstep (random_random_run w).
  set (w0 := py_advance w). assert (store_wf w0) as Hwf0 by done.
  destruct (Qltb _ _).
  - destruct (vec_interact_random_run w0) as [[Hempty Hraise] | (e & [x Hx] & Hrun0)].
    + mraise Hraise. intros [= <- <-]. right. split; [done|]. split; [done|]. by left.
    + set (w1 := py_advance w0) in *. assert (store_wf w1) as Hwf1 by done.
      pose proof Hwf1 as (Hg & Hvalid & _).
      destruct (Hg e.1 e.2 x) as (_ & [ra Ha] & [rb Hb]); [by destruct e|].
      destruct (Hvalid _ _ Ha) as [a Haa]. destruct (Hvalid _ _ Hb) as [b Hbb].
      destruct (vec_interact_spec w1 e x ra rb a b Hwf1 Hx Ha Hb Haa Hbb)
        as (w2 & Hrun & _).
      rewrite Hrun in Hrun0. mstep Hrun0. intros [= <- <-]. by left.
  - unfold create_edge. destruct (try_create 50 w0) as [o1 w1] eqn:Hc.
    destruct o1 as [[]|e|].
    + mstep Hc. intros [= <- <-]. by left.
    + mraise Hc. intros [= <- <-].
      destruct (vec_try_create_raises _ _ _ _ Hc) as (-> & Hsz & Hself & Harr).
      right. split; [done|]. split; [done|]. by right.
    + destruct (vec_try_create_spec 50 w0) as (o2 & w2 & Hc' & [-> | ->] & _);
        rewrite Hc in Hc'; done.
Qed.

(** A vector [update] that returns did exactly one of two things: it tried
    to create an edge, or it let the two endpoints of an edge interact. *)
Lemma vec_update_inv w w' :
  store_wf w →
  update w = (Returns tt, w') →
  store_wf w' ∧
  params (self w') = params (self w) ∧
  step (self w') = S (step (self w)) ∧
  (((∀ n, opinions w' n = opinions w n) ∧
    (graph (self w') = graph (self w) ∨
     ∃ u v, u ≠ v ∧ has_edge (graph (self w)) u v = false ∧
       graph (self w') =
         add_edge u v (0.5 + 0.2 * np_peek w)%Q (graph (self w)))) ∨
   (∃ (e : node * node) x a b,
      let p := params (self w) in
      edges (graph (self w)) !! e = Some x ∧
      opinions w e.1 = Some a ∧ opinions w e.2 = Some b ∧
      opinions w' e.1 = Some (final p (moved_a p a b x)) ∧
      opinions w' e.2 = Some (final p (moved_b p a b x)) ∧
      (∀ n, n ≠ e.1 → n ≠ e.2 → opinions w' n = opinions w n) ∧
      edges (graph (self w')) !! e =
        (if Qltb (written_weight p a b x) 0.05 then None
         else Some (written_weight p a b x)) ∧
      (∀ e', e' ≠ e →
         edges (graph (self w')) !! e' = edges (graph (self w)) !! e'))).
Proof.
  intros Hwf. unfold update. mstep (random_random_run w).
  set (w0 := py_advance w). assert (store_wf w0) as Hwf0 by done.
  destruct (Qltb _ _).
  - destruct (vec_interact_random_run w0) as [[_ Hraise] | (e & [x Hx] & Hrun0)].
    { by mraise Hraise. }
    set (w1 := py_advance w0) in *. assert (store_wf w1) as Hwf1 by done.
    pose proof Hwf1 as (Hg & Hvalid & _).
    destruct (Hg e.1 e.2 x) as (_ & [ra Ha] & [rb Hb]); [by destruct e|].
    destruct (Hvalid _ _ Ha) as [a Haa]. destruct (Hvalid _ _ Hb) as [b Hbb].
    destruct (vec_interact_spec w1 e x ra rb a b Hwf1 Hx Ha Hb Haa Hbb)
      as (w2 & Hrun & Hp & Hst & _ & Hwf2 & Ho1 & Ho2 & Hoth & Hedge & Hedges).
    rewrite Hrun in Hrun0. mstep Hrun0. intros [= <-].
    split; [done|]. split; [done|]. split; [cbn; by rewrite Hst|].
    right. exists e, x, a, b. cbv zeta.
    split; [done|].
    split; [change (opinions w1 e.1 = Some a); unfold opinions, node in *; by rewrite Ha|].
    split; [change (opinions w1 e.2 = Some b); unfold opinions, node in *; by rewrite Hb|].
    done.
  - unfold create_edge.
    destruct (vec_try_create_spec 50 w0)
      as (o & w1 & Hrun & Ho & Hp & Hst & Harr & _ & Hgr).
    destruct Ho as [-> | ->]; [|by mraise Hrun].
    mstep Hrun. intros [= <-].
    destruct Hwf0 as (Hg & Hvalid & Hinj).
    destruct Hgr as [Hgr | (u & v & Hne & Hu & Hv & Hno & Hgr)].
    + split; [|split; [done|split; [cbn; by rewrite Hst|]]].
      * unfold store_wf. cbn. by rewrite Hgr, Harr.
      * left. split; [|by left]. intros n. unfold opinions. cbn. by rewrite Hgr, Harr.
    + split; [|split; [done|split; [cbn; by rewrite Hst|]]].
      * unfold store_wf. cbn. rewrite Hgr, Harr. split; [by apply add_edge_wf | done].
      * left. split; [intros n; unfold opinions; cbn; by rewrite Hgr, Harr|].
        right. by exists u, v.
Qed.
End VecOutcomes.

(** ** The linear vector update (no flexibility) *)

Section VecLinear.
Import Vec.
Implicit Types (w : Vec.W).

Lemma vec_moved_in_unit p a b x :
  if_truthy (delta p) = None → in_unit (alpha p * x) →
  Forall in_unit a → Forall in_unit b →
  Forall in_unit (moved_a p a b x) ∧ Forall in_unit (moved_b p a b x).
Proof.
  intros Hd Ht Ha Hb. unfold moved_a, moved_b, scaled, delta_o. rewrite Hd.
  generalize dependent (alpha p * x)%Q. intros t Ht. clear Hd.
  revert b Hb. induction Ha as [|u a Hu Ha IH]; intros b Hb.
  - split; [constructor|]. destruct b; constructor.
  - destruct Hb as [|v b Hv Hb]; [split; constructor|].
    destruct (IH b Hb) as [IHa IHb]. cbn. split; constructor; try done.
    + destruct Ht, Hu, Hv. split; nra.
    + destruct Ht, Hu, Hv. split; nra.
Qed.

Lemma vec_moved_length p a b x :
  length a = length b →
  length (moved_a p a b x) = length a ∧ length (moved_b p a b x) = length a.
Proof.
  intros Hlen. unfold moved_a, moved_b, scaled, delta_o, arr_add, arr_sub, arr_mul,
    arr_mul_scal, scal_mul, np_maximum_scal, np_minimum, np_absolute, arr_sub_scal.
  destruct (if_truthy (delta p));
    rewrite ?length_zip_with, ?length_fmap, ?length_zip_with, ?length_fmap; lia.
Qed.

(** X10.  Without flexibility ([delta] is [None] or 0) nothing is clipped,
    yet with [alpha] in [0,1] an [update] from opinions and weights in [0,1]
    leaves every opinion in [0,1]. *)
Theorem vec_linear_update_opinions w w' :
  store_wf w →
  if_truthy (delta (params (self w))) = None →
  in_unit (alpha (params (self w))) →
  opinions_in_unit w → weights_in_unit w →
  update w = (Returns tt, w') →
  opinions_in_unit w'.
Proof.
  intros Hwf Hd Ha Ho Hw Hrun.
  destruct (vec_update_inv w w' Hwf Hrun)
    as (_ & _ & _ & [[Hsame _] |
         (e & x & a & b & Hx & Hoa & Hob & Hoa' & Hob' & Hoth & _)]).
  - intros n o. rewrite Hsame. apply Ho.
  - cbv zeta in *. unfold final in *. rewrite Hd in *.
    destruct (vec_moved_in_unit (params (self w)) a b x) as [Hma Hmb]; eauto.
    { apply Qmult_in_unit; [done | by eapply Hw]. }
    intros n o.
    destruct (decide (n = e.1)) as [->|Hn1]; [|destruct (decide (n = e.2)) as [->|Hn2]].
    + rewrite Hoa'. by intros [= <-].
    + rewrite Hob'. by intros [= <-].
    + rewrite Hoth by done. apply Ho.
Qed.

(** X11.  Without flexibility, with [alpha] in [0,1], [beta >= 0] and
    [gamma <= 1], an interaction on opinions and a weight in [0,1] returns
    and never lowers the weight of the edge it leaves in the graph. *)
Theorem vec_linear_weight_nondecreasing w (e : node * node) x a b :
  let p := params (self w) in
  store_wf w →
  if_truthy (delta p) = None →
  in_unit (alpha p) → (0 <= beta p)%Q → (gamma p <= 1)%Q →
  edges (graph (self w)) !! e = Some x → in_unit x →
  opinions w e.1 = Some a → opinions w e.2 = Some b →
  Forall in_unit a → Forall in_unit b → length a = length b → a ≠ [] →
  ∃ w', interact e w = (Returns tt, w') ∧
    ∀ x', edges (graph (self w')) !! e = Some x' → (x <= x')%Q.
Proof.
  intros p Hwf Hd Ha Hb Hg Hx Hxu Hoa Hob Hau Hbu Hlen Hne.
  destruct (vec_interact_opinions w e x a b Hwf Hx Hoa Hob)
    as (w' & Hrun & _ & _ & _ & Hedge).
  exists w'. split; [done|]. intros x'. rewrite Hedge. fold p.
  unfold written_weight. rewrite Hd.
  destruct (vec_moved_in_unit p a b x) as [Hma Hmb]; try done.
  { by apply Qmult_in_unit. }
  destruct (vec_moved_length p a b x Hlen) as [La Lb].
  pose proof (vec_delta_w_nonneg p (moved_a p a b x) (moved_b p a b x) x Hg Hb Hma Hmb) as Hnn.
  intros Hx'. case_match; simplify_eq.
  assert (0 <= delta_w p (moved_a p a b x) (moved_b p a b x) x)%Q; [|lra].
  apply Hnn; [congruence | | done].
  intros Hnil. apply (f_equal length) in Hnil. rewrite La in Hnil. by destruct a.
Qed.
End VecLinear.

Section VecShaped.
Import Vec.
Implicit Types (w : Vec.W).

Lemma vec_final_length p o : length (final p o) = length o.
Proof. unfold final, np_clip. destruct (if_truthy _); [apply length_fmap | done]. Qed.

(** [update] keeps the shape of the opinion arrays. *)
Lemma vec_update_shaped w w' :
  store_wf w → shaped w → update w = (Returns tt, w') → shaped w'.
Proof.
  intros Hwf [Hk Hlen] Hrun.
  destruct (vec_update_inv w w' Hwf Hrun) as (_ & Hp & _ & Hcase).
  split; [by rewrite Hp|]. rewrite Hp. intros n o.
  destruct Hcase as [[Hop _] | (e & x & a & b & _ & Ha & Hb & Ha' & Hb' & Hoth & _)].
  - rewrite Hop. apply Hlen.
  - pose proof (Hlen _ _ Ha) as La. pose proof (Hlen _ _ Hb) as Lb.
    destruct (vec_moved_length (params (self w)) a b x) as [Lma Lmb]; [congruence|].
    destruct (decide (n = e.1)) as [->|Hn1]; [|destruct (decide (n = e.2)) as [->|Hn2]].
    + rewrite Ha'. intros [= <-]. by rewrite vec_final_length, Lma.
    + rewrite Hb'. intros [= <-]. by rewrite vec_final_length, Lmb.
    + rewrite Hoth by done. apply Hlen.
Qed.

(** What one [update] does to the weights when flexibility is configured. *)
Lemma vec_flexible_update_weights w w' :
  is_Some (if_truthy (delta (params (self w)))) →
  store_wf w →
  update w = (Returns tt, w') →
  (∃ (e : node * node) x y,
     edges (graph (self w)) !! e = Some x ∧ in_unit y ∧
     edges (graph (self w')) !! e = (if Qltb y 0.05 then None else Some y) ∧
     ∀ e', e' ≠ e → edges (graph (self w')) !! e' = edges (graph (self w)) !! e') ∨
  ((∀ e x, edges (graph (self w)) !! e = Some x →
      edges (graph (self w')) !! e = Some x) ∧
   ∀ e y, edges (graph (self w')) !! e = Some y →
     edges (graph (self w)) !! e = None → y = (0.5 + 0.2 * np_peek w)%Q).
Proof.
  intros [d Hd] Hwf Hrun.
  destruct (vec_update_inv w w' Hwf Hrun) as (_ & _ & _ & Hcase).
  destruct Hcase as [[_ Hg] | (e & x & a & b & Hx & _ & _ & _ & _ & _ & He & Hoe)].
  - right. destruct Hg as [-> | (u & v & Hne & Hno & ->)].
    + split; [done|]. intros e y H1 H2. congruence.
    + apply has_edge_false in Hno. split.
      * intros e y H. cbn. rewrite lookup_insert_ne; [done|]. intros <-. congruence.
      * intros e y. cbn. intros [[<- <-]|[? H]]%lookup_insert_Some; [done | congruence].
  - left. exists e, x, (written_weight (params (self w)) a b x).
    split; [done|]. split; [|done].
    unfold written_weight. rewrite Hd. apply Qclip_in_unit.
Qed.
End VecShaped.

(** C2 (as amended).  With a non-zero [delta], node opinions that lie in
    [0,1] stay in [0,1] through any number of [update] calls, in both
    branches.  With at least one topic, an interaction writes a weight
    clamped into [0,1] on the interacting edge (and removes the edge if that
    is below 0.05) and leaves every other weight as it was; the new-edge
    branch leaves every existing weight as it was and gives an edge it
    creates the unclamped draw [0.5 + 0.2 * z].  So an [update] from weights
    in [0,1] leaves every weight in [0,1] except possibly that of an edge it
    has just created. *)
Theorem flexible_update_keeps_unit_interval (w : Vec.W) :
  is_Some (if_truthy (Vec.delta (Vec.params (self w)))) →
  Vec.store_wf w →
  Vec.opinions_in_unit w →
  (∀ n w', Vec.run n w = (Returns tt, w') → Vec.opinions_in_unit w') ∧
  (Vec.shaped w →
   ∀ w', Vec.update w = (Returns tt, w') →
     Vec.shaped w' ∧
     ((∃ (e : node * node) x y,
         edges (Vec.graph (self w)) !! e = Some x ∧ in_unit y ∧
         edges (Vec.graph (self w')) !! e = (if Qltb y 0.05 then None else Some y) ∧
         ∀ e', e' ≠ e →
           edges (Vec.graph (self w')) !! e' = edges (Vec.graph (self w)) !! e') ∨
      ((∀ e x, edges (Vec.graph (self w)) !! e = Some x →
          edges (Vec.graph (self w')) !! e = Some x) ∧
       ∀ e y, edges (Vec.graph (self w')) !! e = Some y →
         edges (Vec.graph (self w)) !! e = None →
         y = (0.5 + 0.2 * np_peek w)%Q)) ∧
     (Vec.weights_in_unit w →
      ∀ e x, edges (Vec.graph (self w')) !! e = Some x →
        in_unit x ∨
        (edges (Vec.graph (self w)) !! e = None ∧
         x = (0.5 + 0.2 * np_peek w)%Q))).
Proof.
  intros Hd Hwf Hin. split.
  - intros n w' Hrun. by destruct (vec_run_invariant n w w' Hd Hwf Hin Hrun).
  - intros Hsh w' Hstep.
    split; [by apply (vec_update_shaped w w')|].
    pose proof (vec_flexible_update_weights w w' Hd Hwf Hstep) as Hcase.
    split; [exact Hcase|].
    intros Hw e x Hx.
    destruct Hcase as [(e0 & x0 & y & Hx0 & Hy & He0 & Hoth) | [Hold Hnew]].
    + left. destruct (decide (e = e0)) as [->|Hne].
      * rewrite He0 in Hx. destruct (Qltb y 0.05); by simplify_eq.
      * rewrite Hoth in Hx by done. by eapply Hw.
    + destruct (edges (Vec.graph (self w)) !! e) as [x1|] eqn:He.
      * left. rewrite (Hold _ _ He) in Hx. simplify_eq. by eapply Hw.
      * right. split; [done|]. by eapply Hnew.
Qed.

Lemma vec_flexible_interact_shaped : Vec.shaped Examples.vec_flexible_interact.
Proof.
  split; [done|]. intros n o. unfold Vec.opinions.
  destruct (nodes _ !! n) as [r|] eqn:H; [|done].
  finite_lookup H; intros H'; vm_compute in H'; by simplify_eq.
Qed.

Lemma flexible_update_keeps_unit_interval_witness :
  (∀ n w', Vec.run n Examples.vec_flexible_interact = (Returns tt, w') →
     Vec.opinions_in_unit w') ∧
  (Vec.shaped Examples.vec_flexible_interact →
   ∀ w', Vec.update Examples.vec_flexible_interact = (Returns tt, w') →
     Vec.shaped w' ∧
     ((∃ (e : node * node) x y,
         edges (Vec.graph (self Examples.vec_flexible_interact)) !! e = Some x ∧
         in_unit y ∧
         edges (Vec.graph (self w')) !! e = (if Qltb y 0.05 then None else Some y) ∧
         ∀ e', e' ≠ e →
           edges (Vec.graph (self w')) !! e' =
           edges (Vec.graph (self Examples.vec_flexible_interact)) !! e') ∨
      ((∀ e x, edges (Vec.graph (self Examples.vec_flexible_interact)) !! e = Some x →
          edges (Vec.graph (self w')) !! e = Some x) ∧
       ∀ e y, edges (Vec.graph (self w')) !! e = Some y →
         edges (Vec.graph (self Examples.vec_flexible_interact)) !! e = None →
         y = (0.5 + 0.2 * np_peek Examples.vec_flexible_interact)%Q)) ∧
     (Vec.weights_in_unit Examples.vec_flexible_interact →
      ∀ e x, edges (Vec.graph (self w')) !! e = Some x →
        in_unit x ∨
        (edges (Vec.graph (self Examples.vec_flexible_interact)) !! e = None ∧
         x = (0.5 + 0.2 * np_peek Examples.vec_flexible_interact)%Q))).
Proof.
  apply (flexible_update_keeps_unit_interval Examples.vec_flexible_interact);
    [by eexists | apply vec_flexible_interact_wf | apply vec_flexible_interact_opinions].
Defined.

(** ** The flexibility factor *)



Section VecInitialize.
Import Vec.
Implicit Types (w : Vec.W).

Lemma vec_draw_weights_spec es : ∀ (acc : gmap (node * node) Q) w,
  ∃ es' w', draw_weights es acc w = (Returns es', w') ∧
    self w' = self w ∧ arrays w' = arrays w ∧
    (∀ k, is_Some (es' !! k) ↔
          is_Some (acc !! k) ∨ k ∈ (λ e : node * node, ekey e.1 e.2) <$> es).
Proof.
  induction es as [|e es IH]; intros acc w.
  - exists acc, w. repeat split; try done; [by left|]. intros [?|H]; [done|].
    by apply elem_of_nil in H.
  - cbn [draw_weights]. mstep (np_normal_run w 0.5 0.2).
    destruct (IH (<[ekey e.1 e.2 := (0.5 + 0.2 * np_peek w)%Q]> acc) (np_advance w))
      as (es' & w' & Hrun & Hself & Harr & Hdom).
    exists es', w'. split; [done|]. split; [done|]. split; [done|].
    intros k. rewrite Hdom, lookup_insert_is_Some', fmap_cons, elem_of_cons.
    intuition (subst; auto).
Qed.

Lemma vec_draw_vector_spec k : ∀ w,
  ∃ v w', draw_vector k w = (Returns v, w') ∧
    self w' = self w ∧ arrays w' = arrays w ∧
    length v = k ∧ Forall is_bit v.
Proof.
  induction k as [|k IH]; intros w.
  - by exists [], w.
  - cbn [draw_vector].
    destruct (random_choice_run [0%Q; 1%Q] w) as (c & Hc & Hr); [done|]. mstep Hr.
    destruct (IH (py_advance w)) as (v & w' & Hrun & Hself & Harr & Hlen & Hbits).
    mstep Hrun. exists (c :: v), w'. split; [done|]. split; [done|]. split; [done|].
    split; [cbn; by rewrite Hlen|]. constructor; [|done].
    apply elem_of_cons in Hc as [->|Hc]; [by left|].
    apply elem_of_cons in Hc as [->|Hc]; [by right|]. by apply elem_of_nil in Hc.
Qed.

Lemma vec_draw_opinions_spec k ns : ∀ acc w,
  owned k acc w →
  ∃ ns' w', draw_opinions k ns acc w = (Returns ns', w') ∧
    self w' = self w ∧ owned k ns' w' ∧
    (∀ n, is_Some (ns' !! n) ↔ is_Some (acc !! n) ∨ n ∈ ns).
Proof.
  induction ns as [|m ns IH]; intros acc w Hown.
  - exists acc, w. repeat split; try apply Hown; [by left|]. intros [?|H]; [done|].
    by apply elem_of_nil in H.
  - cbn [draw_opinions].
    destruct (vec_draw_vector_spec k w) as (v & w1 & Hv & Hself1 & Harr1 & Hlen & Hbits).
    mstep Hv. erewrite bind_Returns; [|reflexivity].
    set (r := fresh (dom (arrays w1))).
    assert (∀ n r', acc !! n = Some r' → r' ≠ r) as Hfresh.
    { intros n r' Hn. destruct Hown as [Hval _]. destruct (Hval n r' Hn) as (o & Ho & _).
      apply vec_fresh_ref_ne. rewrite Harr1. eauto. }
    destruct (IH (<[m := r]> acc) (set_array r v w1))
      as (ns' & w' & Hrun & Hself & Hown' & Hdom).
    { destruct Hown as [Hval Hinj]. split.
      - intros n r'. cbn. intros [[-> <-]|[Hne Hn]]%lookup_insert_Some.
        + rewrite lookup_insert_eq. eauto.
        + rewrite lookup_insert_ne by (apply not_eq_sym; by eapply Hfresh).
          rewrite Harr1. by eapply Hval.
      - intros n1 n2 r'.
        intros [[-> <-]|[? H1]]%lookup_insert_Some [[-> Hr]|[? H2]]%lookup_insert_Some;
          try done.
        + by destruct (Hfresh _ _ H2).
        + by destruct (Hfresh _ _ H1).
        + by eapply Hinj. }
    exists ns', w'. split; [done|]. split; [by rewrite Hself|]. split; [done|].
    intros n. rewrite Hdom, lookup_insert_is_Some', elem_of_cons.
    intuition (subst; auto).
Qed.

(** What [initialize] builds from a well-formed topology: a well-formed
    world on the nodes and edges of the topology, every node with an array
    of its own holding [n_topics] opinions, each 0 or 1, and [step = 0]. *)
Lemma vec_initialize_spec t w :
  topology_wf t →
  ∃ w', initialize t w = (Returns tt, w') ∧
    params (self w') = params (self w) ∧
    step (self w') = 0%nat ∧
    store_wf w' ∧
    (∀ n, is_Some (opinions w' n) ↔ n ∈ t_nodes t) ∧
    (∀ e, is_Some (edges (graph (self w')) !! e) ↔ e ∈ t_edges t) ∧
    (∀ n o, opinions w' n = Some o →
       length o = Z.to_nat (n_topics (params (self w))) ∧ Forall is_bit o).
Proof.
  intros [Hnd Hedges]. unfold initialize. rewrite bind_gets.
  destruct (vec_draw_weights_spec (t_edges t) ∅ w) as (es & w1 & Hes & Hself1 & Harr1 & Hdom1).
  mstep Hes.
  destruct (vec_draw_opinions_spec (Z.to_nat (n_topics (params (self w)))) (t_nodes t) ∅ w1)
    as (ns & w2 & Hns & Hself2 & [Hval Hinj] & Hdom2).
  { split; intros ? ?; by rewrite ?lookup_empty. }
  mstep Hns. eexists. split; [reflexivity|]. cbn.
  rewrite Hself2, Hself1. split; [done|]. split; [done|].
  assert ((λ e : node * node, ekey e.1 e.2) <$> t_edges t = t_edges t) as Hkeys.
  { rewrite <- (list_fmap_id (t_edges t)) at 2. apply list_fmap_ext.
    intros i e He%list_elem_of_lookup_2. destruct (Hedges e He) as (Hlt & _).
    rewrite ekey_lt by done. by destruct e. }
  assert (∀ e, is_Some (es !! e) ↔ e ∈ t_edges t) as Hed.
  { intros e. rewrite Hdom1, Hkeys, lookup_empty. split; [|by right].
    by intros [[]|]. }
  assert (∀ n, is_Some (ns !! n) ↔ n ∈ t_nodes t) as Hnodes.
  { intros n. rewrite Hdom2, lookup_empty. split; [|by right]. by intros [[]|]. }
  split; [|split; [|split]].
  - split; [|split]; cbn.
    + intros u v x Hx. destruct (Hedges (u, v)) as (Hlt & Hu & Hv); [apply Hed; eauto|].
      split; [done|]. split; by apply Hnodes.
    + intros n r Hn. destruct (Hval n r Hn) as (o & Ho & _). eauto.
    + done.
  - intros n. unfold opinions. cbn. rewrite <- Hnodes.
    destruct (ns !! n) as [r|] eqn:Hn; [|split; by intros []].
    destruct (Hval n r Hn) as (o & -> & _). split; eauto.
  - done.
  - intros n o. unfold opinions. cbn.
    destruct (ns !! n) as [r|] eqn:Hn; [|done].
    destruct (Hval n r Hn) as (o' & -> & Hlen & Hbits). by intros [= <-].
Qed.
End VecInitialize.

Lemma is_bit_in_unit x : is_bit x → in_unit x.
Proof. intros [-> | ->]; split; by cbv. Qed.

Section ScalarComplete.
Import Scalar.
Implicit Types (w : Scalar.W).

(** On a complete graph every sampled pair is connected, so the [while True]
    loop goes round until the fuel is spent. *)
Lemma scalar_sample_unconnected_complete fuel : ∀ w,
  complete (graph (self w)) →
  (2 ≤ length (node_list (graph (self w))))%nat →
  ∃ w', sample_unconnected fuel (node_list (graph (self w))) w = (Diverges, w') ∧
    self w' = self w ∧ arrays w' = arrays w.
Proof.
  induction fuel as [|fuel IH]; intros w Hc Hlen.
  - by exists w.
  - cbn [sample_unconnected].
    destruct (random_sample2_run (node_list (graph (self w))) w)
      as (x & y & Hx & Hy & Hxy & Hs); [done | apply node_list_NoDup |].
    mstep Hs. rewrite bind_gets. cbn [fst snd].
    change (graph (self (py_advance (py_advance w)))) with (graph (self w)).
    rewrite Hc by (by rewrite <- ?elem_of_node_list). cbn [negb].
    destruct (IH (py_advance (py_advance w)) Hc Hlen) as (w' & Hrun & Hself & Harr).
    by exists w'.
Qed.
End ScalarComplete.

(** ** The trace of the local analysis *)

(** X18.  In a trace of the local analysis a weight recorded as 0 stays 0,
    and from then on the opinions do not move. *)
Theorem trace_dead_edge alpha beta gamma n : ∀ o0 o1 r,
  r ∈ Analysis.trace alpha beta gamma n (o0, o1, 0%Q) →
  (r.1.1 == o0 ∧ r.1.2 == o1)%Q ∧ r.2 = 0%Q.
Proof.
  induction n as [|n IH]; intros o0 o1 r.
  - intros ->%list_elem_of_singleton. cbn. by repeat split.
  - cbn [Analysis.trace]. intros [->|Hr]%elem_of_cons; [cbn; by repeat split|].
    unfold Analysis.trace_step in Hr.
    assert (Qltb (0 + beta * 0 * (1 - 0) * (1 - gamma * Qabs (o1 - o0))) 0.05 = true) as Hlt.
    { apply Qltb_lt. ring_simplify. by cbv. }
    rewrite Hlt in Hr. destruct (IH _ _ _ Hr) as [[H0 H1] H2].
    split; [|done]. rewrite H0, H1. split; ring.
Qed.

Lemma Qltb_proper x y c : (x == y)%Q → Qltb x c = Qltb y c.
Proof.
  intros Hxy. destruct (Qltb y c) eqn:Hy.
  - apply Qltb_lt. apply Qltb_lt in Hy. lra.
  - apply Qltb_ge. apply Qltb_ge in Hy. lra.
Qed.

Lemma node_list_length {A} (g : Graph A) : length (node_list g) = size (nodes g).
Proof. unfold node_list. by rewrite length_fmap, length_map_to_list. Qed.

Section ScalarLocal.
Import Scalar.
Implicit Types (w : Scalar.W).

Lemma scalar_interacted_nodes p (e : node * node) x o0 o1 (g : Graph Q) :
  (∀ n, n ≠ e.1 → n ≠ e.2 →
     nodes (interacted p e o0 o1 x g) !! n = nodes g !! n) ∧
  (is_Some (nodes g !! e.1) → is_Some (nodes g !! e.2) →
   ∀ n, is_Some (nodes (interacted p e o0 o1 x g) !! n) ↔ is_Some (nodes g !! n)).
Proof.
  assert (nodes (interacted p e o0 o1 x g) =
    <[e.2 := (o1 + alpha p * x * (o0 - o1))%Q]>
      (<[e.1 := (o0 + alpha p * x * (o1 - o0))%Q]> (nodes g))) as ->.
  { unfold interacted. cbn zeta. by destruct (Qltb _ _). }
  split.
  - intros n H1 H2. by rewrite !lookup_insert_ne.
  - intros H1 H2 n. rewrite !lookup_insert_is_Some'. intuition (subst; auto).
Qed.

Lemma scalar_interacted_edges p (e : node * node) x o0 o1 (g : Graph Q) e' :
  e' ≠ ekey e.1 e.2 →
  edges (interacted p e o0 o1 x g) !! e' = edges g !! e'.
Proof.
  intros Hne. unfold interacted. cbn zeta. destruct (Qltb _ _); cbn.
  - by rewrite lookup_delete_ne, lookup_insert_ne.
  - by rewrite lookup_insert_ne.
Qed.

(** X3.  A scalar [update] that returns has counted exactly one step, kept
    the coefficients and the node set, and touched at most one edge and the
    opinions of its two endpoints; the graph stays well formed. *)
Theorem scalar_update_is_local fuel w w' :
  graph_wf (graph (self w)) →
  update fuel w = (Returns tt, w') →
  params (self w') = params (self w) ∧
  step (self w') = S (step (self w)) ∧
  arrays w' = arrays w ∧
  graph_wf (graph (self w')) ∧
  (∀ n, is_Some (nodes (graph (self w')) !! n) ↔
        is_Some (nodes (graph (self w)) !! n)) ∧
  ∃ e : node * node,
    (∀ n, n ≠ e.1 → n ≠ e.2 →
       nodes (graph (self w')) !! n = nodes (graph (self w)) !! n) ∧
    (∀ e', e' ≠ e →
       edges (graph (self w')) !! e' = edges (graph (self w)) !! e').
Proof.
  intros Hwf Hrun.
  pose proof (scalar_update_wf _ _ _ Hwf Hrun) as Hwf'.
  destruct (scalar_update_returns _ _ _ Hwf Hrun) as (Hp & Hs & Ha & Hg).
  do 4 (split; [done|]).
  destruct Hg as [(u & v & Hne & Hu & Hv & Hno & ->) | (e & x & o0 & o1 & Hx & H0 & H1 & Hlt & ->)].
  - split; [done|]. exists (ekey u v). split; [done|].
    intros e' He'. cbn. by rewrite lookup_insert_ne.
  - destruct (scalar_interacted_nodes (params (self w)) e x o0 o1 (graph (self w)))
      as [Hn Hs'].
    split; [by apply Hs'; eexists|]. exists e. split; [done|].
    intros e' He'. apply scalar_interacted_edges.
    rewrite ekey_lt by done. by destruct e.
Qed.

(** X13.  Two connected nodes that already agree keep their opinions through
    an interaction, and the weight written is the logistic step
    [w + beta w (1 - w)], whatever [gamma] is. *)
Theorem scalar_agreeing_pair_is_fixed w (e : node * node) x o0 o1 :
  edges (graph (self w)) !! ekey e.1 e.2 = Some x →
  nodes (graph (self w)) !! e.1 = Some o0 →
  nodes (graph (self w)) !! e.2 = Some o1 →
  e.1 ≠ e.2 → (o0 == o1)%Q →
  ∃ w' o0' o1' y,
    interact e w = (Returns tt, w') ∧
    nodes (graph (self w')) !! e.1 = Some o0' ∧
    nodes (graph (self w')) !! e.2 = Some o1' ∧
    (o0' == o0)%Q ∧ (o1' == o1)%Q ∧
    (y == x + beta (params (self w)) * x * (1 - x))%Q ∧
    edges (graph (self w')) !! ekey e.1 e.2 =
      (if Qltb y 0.05 then None else Some y).
Proof.
  intros Hx H0 H1 Hne Heq.
  destruct (scalar_interacted_lookup (params (self w)) e o0 o1 x (graph (self w)) Hne)
    as (Hn0 & Hn1 & He).
  eexists _, _, _, _. split; [by apply scalar_interact_run|].
  split; [exact Hn0|]. split; [exact Hn1|]. split; [|split; [|split; [|exact He]]].
  - rewrite Heq. ring.
  - rewrite Heq. ring.
  - unfold delta_w.
    assert (Qabs (o0 - o1) == 0)%Q as ->; [|ring].
    assert (o0 - o1 == 0)%Q as -> by (rewrite Heq; ring). done.
Qed.

(** X15.  On a complete graph with at least two nodes the [while True]
    loop of the new-edge branch never finds an unconnected pair: whatever
    the number of iterations explored, [update] is still inside the loop,
    and has written nothing. *)
Theorem scalar_new_edge_diverges_on_complete_graph fuel w :
  complete (graph (self w)) →
  (2 ≤ size (nodes (graph (self w))))%nat →
  (∃ w', create_edge fuel w = (Diverges, w') ∧
         self w' = self w ∧ arrays w' = arrays w) ∧
  (∀ r w1, random_uniform 0 1 w = (Returns r, w1) → Qltb r 0.01 = true →
     ∃ w', update fuel w = (Diverges, w') ∧
           self w' = self w ∧ arrays w' = arrays w).
Proof.
  intros Hc Hsz.
  assert (∀ w0, self w0 = self w → ∃ w', create_edge fuel w0 = (Diverges, w') ∧
            self w' = self w0 ∧ arrays w' = arrays w0) as Hcreate.
  { intros w0 Hw0. unfold create_edge. rewrite bind_gets.
    destruct (scalar_sample_unconnected_complete fuel w0) as (w' & Hrun & Hs & Ha).
    - by rewrite Hw0.
    - by rewrite node_list_length, Hw0.
    - exists w'. split; [|done]. by apply bind_Diverges. }
  split; [by apply Hcreate|].
  intros r w1 Hr Hlt. rewrite random_uniform_run in Hr. simplify_eq.
  destruct (Hcreate (py_advance w) eq_refl) as (w' & Hrun & Hs & Ha).
  exists w'. split; [|done].
  unfold update. rewrite (bind_Returns _ _ _ _ _ (random_uniform_run _ _ _)), Hlt.
  by apply bind_Diverges.
Qed.

(** X16.  One row of the notebook's local trace is one interaction of the
    engine: from opinions [o0], [o1] and weight [x] the stepped row holds the
    opinions [interact] writes, and the weight it writes, or 0 where
    [interact] removes the edge. *)
Theorem trace_step_matches_interaction w (e : node * node) x o0 o1 :
  edges (graph (self w)) !! ekey e.1 e.2 = Some x →
  nodes (graph (self w)) !! e.1 = Some o0 →
  nodes (graph (self w)) !! e.2 = Some o1 →
  e.1 ≠ e.2 →
  let p := params (self w) in
  let row := Analysis.trace_step (alpha p) (beta p) (gamma p) (o0, o1, x) in
  ∃ w' o0' o1',
    interact e w = (Returns tt, w') ∧
    nodes (graph (self w')) !! e.1 = Some o0' ∧
    nodes (graph (self w')) !! e.2 = Some o1' ∧
    (row.1.1 == o0')%Q ∧ (row.1.2 == o1')%Q ∧
    match edges (graph (self w')) !! ekey e.1 e.2 with
    | Some x' => (row.2 == x')%Q
    | None => row.2 = 0%Q
    end.
Proof.
  intros Hx H0 H1 Hne p row.
  destruct (scalar_interacted_lookup p e o0 o1 x (graph (self w)) Hne)
    as (Hn0 & Hn1 & He).
  eexists _, _, _. split; [by apply scalar_interact_run|].
  split; [exact Hn0|]. split; [exact Hn1|].
  unfold row, Analysis.trace_step. cbn [fst snd].
  split; [ring|]. split; [ring|].
  change (edges (graph (self (map_graph (interacted (params (self w)) e o0 o1 x) w)))
            !! ekey e.1 e.2)
    with (edges (interacted p e o0 o1 x (graph (self w))) !! ekey e.1 e.2).
  rewrite He.
  assert (x + beta p * x * (1 - x) * (1 - gamma p * Qabs (o1 - o0)) ==
          x + delta_w p o0 o1 x)%Q as Hw.
  { unfold delta_w. by rewrite (Qabs_Qminus o1 o0). }
  rewrite (Qltb_proper _ _ _ Hw). by destruct (Qltb _ _).
Qed.

(** X5.  With [alpha], [beta] in [0,1] and [gamma >= 0] the scalar engine
    needs no clamping: from opinions in [0,1] and weights in [0.05, 1], any
    number of [update] calls that return leave opinions in [0,1] and weights
    in [0.05, 1], and [step] has counted them. *)
Theorem scalar_run_keeps_bounds fuel n w w' :
  valid (params (self w)) → graph_wf (graph (self w)) → bounded (graph (self w)) →
  run fuel n w = (Returns tt, w') →
  bounded (graph (self w')) ∧ step (self w') = (step (self w) + n)%nat.
Proof.
  intros Hv Hwf Hb Hrun.
  by destruct (scalar_run_invariant fuel n w w' Hv Hwf Hb Hrun) as (_ & ? & _ & ?).
Qed.

(** X6.  [initialize] cannot fail on a generated topology; it keeps the
    coefficients, resets [step] to 0 and leaves a well-formed graph on
    exactly the generated nodes and edges, every opinion 0 or 1 and every
    weight 0.5. *)
Theorem scalar_initialize_result t w :
  topology_wf t →
  ∃ w', initialize t w = (Returns tt, w') ∧
    params (self w') = params (self w) ∧ arrays w' = arrays w ∧
    step (self w') = 0%nat ∧
    graph_wf (graph (self w')) ∧
    (∀ n, is_Some (nodes (graph (self w')) !! n) ↔ n ∈ t_nodes t) ∧
    (∀ e, is_Some (edges (graph (self w')) !! e) ↔ e ∈ t_edges t) ∧
    (∀ n o, nodes (graph (self w')) !! n = Some o → o = 0%Q ∨ o = 1%Q) ∧
    (∀ e x, edges (graph (self w')) !! e = Some x → x = 0.5%Q).
Proof.
  intros Ht.
  destruct (scalar_initialize_spec t w Ht) as (w' & Hrun & Hp & Ha & Hs & Hrest).
  exists w'. do 4 (split; [done|]).
  split; [|exact Hrest]. by destruct (scalar_initialize_invariants t w w' Ht Hrun).
Qed.

(** X7.  The whole scalar run of the notebook, [initialize] followed by
    [n] calls of [update]: with [alpha], [beta] in [0,1] and [gamma >= 0],
    whenever it returns every opinion lies in [0,1], every weight in
    [0.05, 1], and [step] is [n]. *)
Theorem scalar_simulation_stays_bounded fuel n t w w' :
  topology_wf t → valid (params (self w)) →
  bind (initialize t) (λ _, run fuel n) w = (Returns tt, w') →
  bounded (graph (self w')) ∧ step (self w') = n.
Proof.
  intros Ht Hv Hrun.
  apply bind_Returns_inv in Hrun as ([] & w1 & Hinit & Hrun).
  destruct (scalar_initialize_spec t w Ht) as (w1' & Hinit' & Hp & _ & Hs & _).
  rewrite Hinit in Hinit'. simplify_eq.
  destruct (scalar_initialize_invariants t w w1' Ht Hinit) as [Hwf Hb].
  destruct (scalar_run_invariant fuel n w1' w') as (_ & Hstep & _ & Hb');
    [by rewrite Hp | done | done | done |].
  split; [done|]. by rewrite Hstep, Hs.
Qed.
End ScalarLocal.

Section VecLocal.
Import Vec.
Implicit Types (w : Vec.W).

(** X2.  A vector [update] either returns or fails before writing anything:
    the only failures are [IndexError] on a graph without edges and
    [ValueError] on a graph with fewer than two nodes.  On a well-formed
    graph with at least one edge it always returns. *)
Theorem vec_update_failure_modes w o w' :
  store_wf w →
  update w = (o, w') →
  (o = Returns tt ∨
   (self w' = self w ∧ arrays w' = arrays w ∧
    ((o = Raises IndexError ∧ edges (graph (self w)) = ∅) ∨
     (o = Raises ValueError ∧ (size (nodes (graph (self w))) < 2)%nat)))) ∧
  (edges (graph (self w)) ≠ ∅ → o = Returns tt).
Proof.
  intros Hwf Hrun.
  pose proof (vec_update_outcomes w o w' Hwf Hrun) as Hout.
  split; [exact Hout|]. intros Hne.
  destruct Hout as [? | (_ & _ & [[_ He] | [_ Hsz]])]; [done.. |].
  destruct (map_choose _ Hne) as ([u v] & x & Hx).
  pose proof (graph_wf_two_nodes _ (u, v) (proj1 Hwf) (mk_is_Some _ _ Hx)). lia.
Qed.

(** X4.  A vector [update] that returns has counted exactly one step, kept
    the coefficients and the node set, kept every node on an array of its
    own, and touched at most one edge and the opinions of its two
    endpoints. *)
Theorem vec_update_is_local w w' :
  store_wf w →
  update w = (Returns tt, w') →
  store_wf w' ∧
  params (self w') = params (self w) ∧
  step (self w') = S (step (self w)) ∧
  (∀ n, is_Some (opinions w' n) ↔ is_Some (opinions w n)) ∧
  ∃ e : node * node,
    (∀ n, n ≠ e.1 → n ≠ e.2 → opinions w' n = opinions w n) ∧
    (∀ e', e' ≠ e →
       edges (graph (self w')) !! e' = edges (graph (self w)) !! e').
Proof.
  intros Hwf Hrun.
  destruct (vec_update_inv w w' Hwf Hrun) as (Hwf' & Hp & Hs & Hcase).
  do 3 (split; [done|]).
  destruct Hcase as [[Hop Hg] | (e & x & a & b & Hx & Ha & Hb & Ha' & Hb' & Hoth & He & Hoe)].
  - split; [by intros n; rewrite Hop|].
    destruct Hg as [-> | (u & v & _ & _ & ->)].
    + by exists (0%nat, 0%nat).
    + exists (ekey u v). split; [done|]. intros e' He'. cbn.
      by rewrite lookup_insert_ne.
  - split; [|by exists e].
    intros n. destruct (decide (n = e.1)) as [->|]; [by rewrite Ha, Ha'|].
    destruct (decide (n = e.2)) as [->|]; [by rewrite Hb, Hb'|].
    by rewrite Hoth.
Qed.

(** X8.  [initialize] cannot fail on a generated topology; it keeps the
    coefficients, resets [step] to 0 and leaves a well-formed store on
    exactly the generated nodes and edges, where every node has an array of
    its own holding [n_topics] entries, each 0 or 1 (so in [0,1]). *)
Theorem vec_initialize_result t w :
  topology_wf t →
  ∃ w', initialize t w = (Returns tt, w') ∧
    params (self w') = params (self w) ∧
    step (self w') = 0%nat ∧
    store_wf w' ∧
    (∀ n, is_Some (opinions w' n) ↔ n ∈ t_nodes t) ∧
    (∀ e, is_Some (edges (graph (self w')) !! e) ↔ e ∈ t_edges t) ∧
    (∀ n o, opinions w' n = Some o →
       length o = Z.to_nat (n_topics (params (self w))) ∧ Forall is_bit o) ∧
    opinions_in_unit w'.
Proof.
  intros Ht.
  destruct (vec_initialize_spec t w Ht) as (w' & Hrun & Hp & Hs & Hwf & Hn & He & Hbits).
  exists w'. do 6 (split; [done|]). split; [exact Hbits|].
  intros m o Ho. destruct (Hbits m o Ho) as [_ Hb].
  eapply Forall_impl; [apply is_bit_in_unit | exact Hb].
Qed.

(** X9.  The whole vector run with flexibility configured, [initialize]
    followed by [n] calls of [update]: whenever it returns, every entry of
    every opinion vector lies in [0,1] and every node still has an array
    of its own. *)
Theorem vec_simulation_opinions_in_unit n t w w' :
  topology_wf t →
  is_Some (if_truthy (delta (params (self w)))) →
  bind (initialize t) (λ _, run n) w = (Returns tt, w') →
  opinions_in_unit w' ∧ store_wf w'.
Proof.
  intros Ht Hd Hrun.
  apply bind_Returns_inv in Hrun as ([] & w1 & Hinit & Hrun).
  destruct (vec_initialize_spec t w Ht) as (w1' & Hinit' & Hp & _ & Hwf & _ & _ & Hbits).
  rewrite Hinit in Hinit'. simplify_eq.
  destruct (vec_run_invariant n w1' w') as [Hwf' Hin'];
    [by rewrite Hp | done | | done | done].
  intros m o Ho. destruct (Hbits m o Ho) as [_ Hb].
  eapply Forall_impl; [apply is_bit_in_unit | exact Hb].
Qed.
End VecLocal.

(** ** The further properties at concrete worlds *)

Lemma scalar_disconnected_wf : graph_wf Examples.scalar_disconnected.
Proof. intros u v x H. finite_lookup H. Qed.

Lemma scalar_fresh_pair_wf : graph_wf Examples.scalar_fresh_pair.
Proof. intros u v x H. finite_lookup H. split; [cbv; lia | split; by eexists]. Qed.

Lemma scalar_fresh_pair_bounded : Scalar.bounded Examples.scalar_fresh_pair.
Proof.
  split.
  - intros n o H. finite_lookup H; split; by cbv.
  - intros e x H. finite_lookup H; split; by cbv.
Qed.

Lemma scalar_fresh_pair_complete : complete Examples.scalar_fresh_pair.
Proof. intros u v [ou Hu] [ov Hv] Hne. finite_lookup Hu; finite_lookup Hv; done. Qed.

Lemma scalar_params_valid : Scalar.valid Examples.scalar_params.
Proof. repeat split; by cbv. Qed.

Lemma path3_wf : topology_wf Examples.path3.
Proof.
  split.
  - by apply (bool_decide_unpack _).
  - intros e He. cbn in He.
    repeat (apply elem_of_cons in He as [->|He];
      [cbn; split; [lia | split; by apply (bool_decide_unpack _)]|]).
    by apply elem_of_nil in He.
Qed.

Lemma vec_mild_pair_wf : Vec.store_wf Examples.vec_mild_pair.
Proof. concrete_store_wf. Qed.

Lemma vec_two_topics_opinions : Vec.opinions_in_unit Examples.vec_two_topics.
Proof. concrete_opinions. Qed.

Lemma vec_two_topics_weights : Vec.weights_in_unit Examples.vec_two_topics.
Proof. concrete_weights. Qed.

Lemma scalar_update_outcomes_witness :
  @Raises unit IndexError = Returns tt ∨
  (self (py_advance (Examples.scalar_world Examples.scalar_disconnected Examples.rng_interact)) =
     self (Examples.scalar_world Examples.scalar_disconnected Examples.rng_interact) ∧
   arrays (py_advance (Examples.scalar_world Examples.scalar_disconnected Examples.rng_interact)) =
     arrays (Examples.scalar_world Examples.scalar_disconnected Examples.rng_interact) ∧
   ((@Raises unit IndexError = Raises IndexError ∧
     edges Examples.scalar_disconnected = ∅) ∨
    (@Raises unit IndexError = Raises ValueError ∧
     (size (nodes Examples.scalar_disconnected) < 2)%nat) ∨
    @Raises unit IndexError = Diverges)).
Proof.
  apply (scalar_update_outcomes 0
    (Examples.scalar_world Examples.scalar_disconnected Examples.rng_interact));
    [apply scalar_disconnected_wf | reflexivity].
Defined.

Lemma vec_update_failure_modes_witness :
  (Returns tt = Returns tt ∨
   (self (Vec.update Examples.vec_two_topics).2 = self Examples.vec_two_topics ∧
    arrays (Vec.update Examples.vec_two_topics).2 = arrays Examples.vec_two_topics ∧
    ((Returns tt = Raises IndexError ∧
      edges (Vec.graph (self Examples.vec_two_topics)) = ∅) ∨
     (Returns tt = Raises ValueError ∧
      (size (nodes (Vec.graph (self Examples.vec_two_topics))) < 2)%nat)))) ∧
  (edges (Vec.graph (self Examples.vec_two_topics)) ≠ ∅ → Returns tt = Returns tt).
Proof.
  apply (vec_update_failure_modes Examples.vec_two_topics);
    [apply vec_two_topics_wf | by vm_compute].
Defined.

Lemma scalar_update_is_local_witness :
  Scalar.step (self (Scalar.update 0
    (Examples.scalar_world Examples.scalar_fresh_pair Examples.rng_interact)).2) = 1%nat ∧
  graph_wf (Scalar.graph (self (Scalar.update 0
    (Examples.scalar_world Examples.scalar_fresh_pair Examples.rng_interact)).2)) ∧
  ∃ e : node * node,
    (∀ n, n ≠ e.1 → n ≠ e.2 →
       nodes (Scalar.graph (self (Scalar.update 0
         (Examples.scalar_world Examples.scalar_fresh_pair Examples.rng_interact)).2)) !! n =
       nodes Examples.scalar_fresh_pair !! n) ∧
    (∀ e', e' ≠ e →
       edges (Scalar.graph (self (Scalar.update 0
         (Examples.scalar_world Examples.scalar_fresh_pair Examples.rng_interact)).2)) !! e' =
       edges Examples.scalar_fresh_pair !! e').
Proof.
  destruct (scalar_update_is_local 0
    (Examples.scalar_world Examples.scalar_fresh_pair Examples.rng_interact)
    (Scalar.update 0
      (Examples.scalar_world Examples.scalar_fresh_pair Examples.rng_interact)).2)
    as (_ & Hs & _ & Hwf & _ & He); [apply scalar_fresh_pair_wf | by vm_compute |].
  split; [exact Hs|]. split; [exact Hwf | exact He].
Defined.

Lemma vec_update_is_local_witness :
  Vec.store_wf (Vec.update Examples.vec_two_topics).2 ∧
  Vec.step (self (Vec.update Examples.vec_two_topics).2) = 1%nat ∧
  ∃ e : node * node,
    (∀ n, n ≠ e.1 → n ≠ e.2 →
       Vec.opinions (Vec.update Examples.vec_two_topics).2 n =
       Vec.opinions Examples.vec_two_topics n) ∧
    (∀ e', e' ≠ e →
       edges (Vec.graph (self (Vec.update Examples.vec_two_topics).2)) !! e' =
       edges (Vec.graph (self Examples.vec_two_topics)) !! e').
Proof.
  destruct (vec_update_is_local Examples.vec_two_topics
    (Vec.update Examples.vec_two_topics).2)
    as (Hwf & _ & Hs & _ & He); [apply vec_two_topics_wf | by vm_compute |].
  split; [exact Hwf|]. split; [exact Hs | exact He].
Defined.

Lemma scalar_run_keeps_bounds_witness :
  Scalar.bounded (Scalar.graph (self (Scalar.run 0 3
    (Examples.scalar_world Examples.scalar_fresh_pair Examples.rng_steady)).2)) ∧
  Scalar.step (self (Scalar.run 0 3
    (Examples.scalar_world Examples.scalar_fresh_pair Examples.rng_steady)).2) = 3%nat.
Proof.
  apply (scalar_run_keeps_bounds 0 3
    (Examples.scalar_world Examples.scalar_fresh_pair Examples.rng_steady));
    [apply scalar_params_valid | apply scalar_fresh_pair_wf
    | apply scalar_fresh_pair_bounded | by vm_compute].
Defined.

Lemma scalar_initialize_result_witness :
  ∃ w', Scalar.initialize Examples.path3
          (Examples.scalar_world Examples.scalar_pair Examples.rng_interact) =
          (Returns tt, w') ∧
    Scalar.params (self w') = Examples.scalar_params ∧
    arrays w' = ∅ ∧
    Scalar.step (self w') = 0%nat ∧
    graph_wf (Scalar.graph (self w')) ∧
    (∀ n, is_Some (nodes (Scalar.graph (self w')) !! n) ↔ n ∈ [0; 1; 2]%nat) ∧
    (∀ e, is_Some (edges (Scalar.graph (self w')) !! e) ↔
          e ∈ [(0, 1); (1, 2)]%nat) ∧
    (∀ n o, nodes (Scalar.graph (self w')) !! n = Some o → o = 0%Q ∨ o = 1%Q) ∧
    (∀ e x, edges (Scalar.graph (self w')) !! e = Some x → x = 0.5%Q).
Proof.
  apply (scalar_initialize_result Examples.path3
    (Examples.scalar_world Examples.scalar_pair Examples.rng_interact)).
  apply path3_wf.
Defined.

Lemma scalar_simulation_stays_bounded_witness :
  Scalar.bounded (Scalar.graph (self
    (bind (Scalar.initialize Examples.path3) (λ _, Scalar.run 0 3)
       (Examples.scalar_world Examples.scalar_disconnected Examples.rng_steady)).2)) ∧
  Scalar.step (self
    (bind (Scalar.initialize Examples.path3) (λ _, Scalar.run 0 3)
       (Examples.scalar_world Examples.scalar_disconnected Examples.rng_steady)).2) = 3%nat.
Proof.
  apply (scalar_simulation_stays_bounded 0 3 Examples.path3
    (Examples.scalar_world Examples.scalar_disconnected Examples.rng_steady));
    [apply path3_wf | apply scalar_params_valid | by vm_compute].
Defined.

Lemma vec_initialize_result_witness :
  ∃ w', Vec.initialize Examples.path3 Examples.vec_blank = (Returns tt, w') ∧
    Vec.params (self w') = Vec.params (self Examples.vec_blank) ∧
    Vec.step (self w') = 0%nat ∧
    Vec.store_wf w' ∧
    (∀ n, is_Some (Vec.opinions w' n) ↔ n ∈ [0; 1; 2]%nat) ∧
    (∀ e, is_Some (edges (Vec.graph (self w')) !! e) ↔ e ∈ [(0, 1); (1, 2)]%nat) ∧
    (∀ n o, Vec.opinions w' n = Some o → length o = 2%nat ∧ Forall is_bit o) ∧
    Vec.opinions_in_unit w'.
Proof.
  apply (vec_initialize_result Examples.path3 Examples.vec_blank). apply path3_wf.
Defined.

Lemma vec_simulation_opinions_in_unit_witness :
  Vec.opinions_in_unit
    (bind (Vec.initialize Examples.path3) (λ _, Vec.run 2) Examples.vec_blank).2 ∧
  Vec.store_wf
    (bind (Vec.initialize Examples.path3) (λ _, Vec.run 2) Examples.vec_blank).2.
Proof.
  apply (vec_simulation_opinions_in_unit 2 Examples.path3 Examples.vec_blank);
    [apply path3_wf | by eexists | by vm_compute].
Defined.

Lemma vec_linear_update_opinions_witness :
  Vec.opinions_in_unit (Vec.update Examples.vec_two_topics).2.
Proof.
  apply (vec_linear_update_opinions Examples.vec_two_topics);
    [apply vec_two_topics_wf | reflexivity | split; by cbv
    | apply vec_two_topics_opinions | apply vec_two_topics_weights | by vm_compute].
Defined.

Lemma vec_linear_weight_nondecreasing_witness :
  ∃ w', Vec.interact (0%nat, 1%nat) Examples.vec_mild_pair = (Returns tt, w') ∧
    ∀ x', edges (Vec.graph (self w')) !! (0%nat, 1%nat) = Some x' → (0.5 <= x')%Q.
Proof.
  apply (vec_linear_weight_nondecreasing Examples.vec_mild_pair (0%nat, 1%nat) 0.5%Q
           [1%Q; 0%Q] [0%Q; 0%Q]);
    [apply vec_mild_pair_wf | reflexivity | split; by cbv | by cbv | by cbv
    | reflexivity | split; by cbv | reflexivity | reflexivity
    | repeat constructor; by cbv | repeat constructor; by cbv | reflexivity | done].
Defined.


Lemma scalar_agreeing_pair_is_fixed_witness :
  ∃ w' o0' o1' y,
    Scalar.interact (0%nat, 1%nat)
      (Examples.scalar_world Examples.scalar_agreeing_pair Examples.rng_interact) =
      (Returns tt, w') ∧
    nodes (Scalar.graph (self w')) !! 0%nat = Some o0' ∧
    nodes (Scalar.graph (self w')) !! 1%nat = Some o1' ∧
    (o0' == 1)%Q ∧ (o1' == 1)%Q ∧
    (y == 0.5 + 0.3 * 0.5 * (1 - 0.5))%Q ∧
    edges (Scalar.graph (self w')) !! (0%nat, 1%nat) =
      (if Qltb y 0.05 then None else Some y).
Proof.
  apply (scalar_agreeing_pair_is_fixed
    (Examples.scalar_world Examples.scalar_agreeing_pair Examples.rng_interact)
    (0%nat, 1%nat) 0.5%Q 1%Q 1%Q); [reflexivity | reflexivity | reflexivity | done | reflexivity].
Defined.

Lemma scalar_new_edge_diverges_on_complete_graph_witness :
  (∃ w', Scalar.create_edge 5
           (Examples.scalar_world Examples.scalar_fresh_pair (Examples.rng_create 0)) =
           (Diverges, w') ∧
         self w' = self (Examples.scalar_world Examples.scalar_fresh_pair (Examples.rng_create 0)) ∧
         arrays w' = arrays (Examples.scalar_world Examples.scalar_fresh_pair (Examples.rng_create 0))) ∧
  (∀ r w1,
     random_uniform 0 1
       (Examples.scalar_world Examples.scalar_fresh_pair (Examples.rng_create 0)) =
       (Returns r, w1) →
     Qltb r 0.01 = true →
     ∃ w', Scalar.update 5
             (Examples.scalar_world Examples.scalar_fresh_pair (Examples.rng_create 0)) =
             (Diverges, w') ∧
           self w' = self (Examples.scalar_world Examples.scalar_fresh_pair (Examples.rng_create 0)) ∧
           arrays w' = arrays (Examples.scalar_world Examples.scalar_fresh_pair (Examples.rng_create 0))).
Proof.
  apply (scalar_new_edge_diverges_on_complete_graph 5
    (Examples.scalar_world Examples.scalar_fresh_pair (Examples.rng_create 0)));
    [apply scalar_fresh_pair_complete | by vm_compute].
Defined.

Lemma trace_step_matches_interaction_witness :
  ∃ w' o0' o1',
    Scalar.interact (0%nat, 1%nat)
      (Examples.scalar_world Examples.scalar_pair Examples.rng_interact) =
      (Returns tt, w') ∧
    nodes (Scalar.graph (self w')) !! 0%nat = Some o0' ∧
    nodes (Scalar.graph (self w')) !! 1%nat = Some o1' ∧
    ((Analysis.trace_step 0.03 0.3 4 (0.3, 0, 0.25)%Q).1.1 == o0')%Q ∧
    ((Analysis.trace_step 0.03 0.3 4 (0.3, 0, 0.25)%Q).1.2 == o1')%Q ∧
    match edges (Scalar.graph (self w')) !! (0%nat, 1%nat) with
    | Some x' => ((Analysis.trace_step 0.03 0.3 4 (0.3, 0, 0.25)%Q).2 == x')%Q
    | None => (Analysis.trace_step 0.03 0.3 4 (0.3, 0, 0.25)%Q).2 = 0%Q
    end.
Proof.
  apply (trace_step_matches_interaction
    (Examples.scalar_world Examples.scalar_pair Examples.rng_interact)
    (0%nat, 1%nat) 0.25%Q 0.3%Q 0%Q); [reflexivity | reflexivity | reflexivity | done].
Defined.

Lemma trace_dead_edge_witness :
  ((Analysis.trace_step 0.03 0.3 4 (0.3, 0.1, 0)%Q).1.1 == 0.3 ∧
   (Analysis.trace_step 0.03 0.3 4 (0.3, 0.1, 0)%Q).1.2 == 0.1)%Q ∧
  (Analysis.trace_step 0.03 0.3 4 (0.3, 0.1, 0)%Q).2 = 0%Q.
Proof.
  apply (trace_dead_edge 0.03 0.3 4 3 0.3 0.1
           (Analysis.trace_step 0.03 0.3 4 (0.3, 0.1, 0)%Q)).
  apply list_elem_of_further, list_elem_of_here.
Defined.
